(** * The blast proof-search engine of [library/blast/blast.cpp]

    A shallow embedding of the engine's driver, its type-context facade, the
    internalizer ([to_blast_expr_fn]) and the externalizer
    ([to_tactic_proof_fn]), followed by the properties established about
    them.

    Conventions.
    - [unsigned] is a 32-bit integer: a [Z] in [0, 2^32) whose additions are
      reduced modulo [2^32] ([wrap32]).
    - a [std::vector] that the code only uses as a stack ([push_back],
      [back], [pop_back], [clear]) is a [list] whose head is [back()].
    - a [name_map<T>] is a [gmap name T]; a [hypothesis_idx_set] is a
      [gset nat].
    - a [while] loop whose number of iterations is not bounded by the data
      takes a fuel argument and returns [None] when the fuel runs out; the
      theorems say when enough fuel exists.
    - a violated [lean_assert] (or the use of an accessor outside its
      domain) is the outcome [AssertionViolation] (or [None]); a thrown
      [blast_exception] is the outcome [Throw]. *)

From stdpp Require Import gmap strings list.
From Stdlib Require Import ZArith Lia.

Local Open Scope Z_scope.
#[local] Set Warnings "-register-all,-clear-no-such-hyp".

(* ===================================================================== *)
(** ** Terms: names, universe levels, expressions                        *)
(* ===================================================================== *)

Module Term.

(** Names are only compared. The names of the ambient system are strings;
    the engine generates internal unique names for its hypothesis and
    metavariable references and for temporary local constants. *)
Inductive name :=
| ext_name (s : string)
| href_name (idx : nat)
| mref_name (idx : nat)
| uref_name (idx : nat)
| tmp_name (idx : nat).

#[global] Instance name_eq_dec : EqDecision name.
Proof. solve_decision. Defined.

#[global] Instance name_countable : Countable name.
Proof.
  refine (inj_countable'
    (fun n => match n with
              | ext_name s => inl s
              | href_name i => inr (inl i)
              | mref_name i => inr (inr (inl i))
              | uref_name i => inr (inr (inr (inl i)))
              | tmp_name i => inr (inr (inr (inr i)))
              end)
    (fun c => match c with
              | inl s => ext_name s
              | inr (inl i) => href_name i
              | inr (inr (inl i)) => mref_name i
              | inr (inr (inr (inl i))) => uref_name i
              | inr (inr (inr (inr i))) => tmp_name i
              end) _).
  intros []; reflexivity.
Defined.

(** [level_kind]: the usual lattice, extended with the engine's [uref]. *)
Inductive level :=
| LZero
| LSucc (l : level)
| LMax (l1 l2 : level)
| LIMax (l1 l2 : level)
| LParam (n : name)
| LGlobal (n : name)
| LMeta (n : name)
| LUref (idx : nat).

#[global] Instance level_eq_dec : EqDecision level.
Proof. solve_decision. Defined.

Inductive binder_info := bi_default | bi_implicit | bi_strict_implicit | bi_inst_implicit.

#[global] Instance binder_info_eq_dec : EqDecision binder_info.
Proof. solve_decision. Defined.

(** [expr_kind], extended with the two reference leaves of the engine.
    [Href] is of kind Local and [Mref] of kind Meta: the visitors of
    [blast.cpp] receive them in [visit_local] and [visit_meta]. *)
Inductive expr :=
| Var (idx : nat)
| Sort (l : level)
| Const (n : name) (ls : list level)
| Meta (n : name) (ty : expr)
| Local (n : name) (pp : name) (ty : expr)
| Href (idx : nat)
| Mref (idx : nat)
| App (f a : expr)
| Lam (n : name) (d b : expr) (bi : binder_info)
| Pi (n : name) (d b : expr) (bi : binder_info)
| Macro (def : name) (args : list expr).

(** Induction principle that reaches the arguments of a macro. *)
Section expr_ind.
Variable P : expr -> Prop.
Hypothesis HVar : forall i, P (Var i).
Hypothesis HSort : forall l, P (Sort l).
Hypothesis HConst : forall n ls, P (Const n ls).
Hypothesis HMeta : forall n ty, P ty -> P (Meta n ty).
Hypothesis HLocal : forall n pp ty, P ty -> P (Local n pp ty).
Hypothesis HHref : forall i, P (Href i).
Hypothesis HMref : forall i, P (Mref i).
Hypothesis HApp : forall f a, P f -> P a -> P (App f a).
Hypothesis HLam : forall n d b bi, P d -> P b -> P (Lam n d b bi).
Hypothesis HPi : forall n d b bi, P d -> P b -> P (Pi n d b bi).
Hypothesis HMacro : forall def args, Forall P args -> P (Macro def args).

Fixpoint expr_ind' (e : expr) : P e :=
  match e with
  | Var i => HVar i
  | Sort l => HSort l
  | Const n ls => HConst n ls
  | Meta n ty => HMeta n ty (expr_ind' ty)
  | Local n pp ty => HLocal n pp ty (expr_ind' ty)
  | Href i => HHref i
  | Mref i => HMref i
  | App f a => HApp f a (expr_ind' f) (expr_ind' a)
  | Lam n d b bi => HLam n d b bi (expr_ind' d) (expr_ind' b)
  | Pi n d b bi => HPi n d b bi (expr_ind' d) (expr_ind' b)
  | Macro def args =>
      HMacro def args
        ((fix go (l : list expr) : Forall P l :=
            match l with
            | [] => List.Forall_nil P
            | x :: l' => @List.Forall_cons _ P x l' (expr_ind' x) (go l')
            end) args)
  end.
End expr_ind.

#[global] Instance expr_eq_dec : EqDecision expr.
Proof.
  unfold EqDecision, Decision.
  fix IH 1.
  intros x y; destruct x, y; try (right; discriminate).
  - destruct (decide (idx = idx0)); [left; congruence | right; congruence].
  - destruct (decide (l = l0)); [left; congruence | right; congruence].
  - destruct (decide (n = n0)); [| right; congruence].
    destruct (decide (ls = ls0)); [left; congruence | right; congruence].
  - destruct (decide (n = n0)); [| right; congruence].
    destruct (IH x y); [left; congruence | right; congruence].
  - destruct (decide (n = n0)); [| right; congruence].
    destruct (decide (pp = pp0)); [| right; congruence].
    destruct (IH x y); [left; congruence | right; congruence].
  - destruct (decide (idx = idx0)); [left; congruence | right; congruence].
  - destruct (decide (idx = idx0)); [left; congruence | right; congruence].
  - destruct (IH x1 y1); [| right; congruence].
    destruct (IH x2 y2); [left; congruence | right; congruence].
  - destruct (decide (n = n0)); [| right; congruence].
    destruct (decide (bi = bi0)); [| right; congruence].
    destruct (IH x1 y1); [| right; congruence].
    destruct (IH x2 y2); [left; congruence | right; congruence].
  - destruct (decide (n = n0)); [| right; congruence].
    destruct (decide (bi = bi0)); [| right; congruence].
    destruct (IH x1 y1); [| right; congruence].
    destruct (IH x2 y2); [left; congruence | right; congruence].
  - destruct (decide (def = def0)); [| right; congruence].
    assert (Hl : {args = args0} + {args <> args0}).
    { revert args0. induction args as [|a args IHa]; intros [|b args0];
        try (right; discriminate); [left; reflexivity |].
      destruct (IH a b); [| right; congruence].
      destruct (IHa args0); [left; congruence | right; congruence]. }
    destruct Hl; [left; congruence | right; congruence].
Defined.

(** *** Kinds and accessors ([kernel/expr.h], [library/blast/expr.h]) *)

Definition is_href (e : expr) : bool :=
  match e with Href _ => true | _ => false end.

Definition is_mref (e : expr) : bool :=
  match e with Mref _ => true | _ => false end.

Definition is_local (e : expr) : bool :=
  match e with Local _ _ _ | Href _ => true | _ => false end.

Definition is_metavar (e : expr) : bool :=
  match e with Meta _ _ | Mref _ => true | _ => false end.

Definition is_mlocal (e : expr) : bool := is_local e || is_metavar e.

(** Temporary local constants are the ones made by the
    [tmp_local_generator]; they carry its internal names. *)
Definition is_tmp_local (e : expr) : bool :=
  match e with Local (tmp_name _) _ _ => true | _ => false end.

(** [mlocal_name] is defined on metavariables and local constants only. *)
Definition mlocal_name (e : expr) : option name :=
  match e with
  | Meta n _ | Local n _ _ => Some n
  | Href i => Some (href_name i)
  | Mref i => Some (mref_name i)
  | _ => None
  end.

Definition href_index (e : expr) : option nat :=
  match e with Href i => Some i | _ => None end.

Definition mref_index (e : expr) : option nat :=
  match e with Mref i => Some i | _ => None end.

Definition uref_index (l : level) : option nat :=
  match l with LUref i => Some i | _ => None end.

(** [get_app_args(e, args)]: the head of an application and its arguments,
    first argument first. *)
Fixpoint get_app_rev_args (e : expr) : expr * list expr :=
  match e with
  | App f a => let '(h, rargs) := get_app_rev_args f in (h, a :: rargs)
  | _ => (e, [])
  end.

Definition get_app_args (e : expr) : expr * list expr :=
  let '(h, rargs) := get_app_rev_args e in (h, rev rargs).

Definition get_app_fn (e : expr) : expr := fst (get_app_rev_args e).

(** [mk_app(f, n, args)] *)
Definition mk_app (f : expr) (args : list expr) : expr := fold_left App args f.

(** [is_meta(e)]: the head of [e] is a metavariable. *)
Definition is_meta (e : expr) : bool := is_metavar (get_app_fn e).

(** [closed(e)]: no loose bound variable; [closed_upto k e] allows the
    variables below [k]. *)
Fixpoint closed_upto (k : nat) (e : expr) : bool :=
  match e with
  | Var i => bool_decide (i < k)%nat
  | Sort _ | Const _ _ | Href _ | Mref _ => true
  | Meta _ ty | Local _ _ ty => closed_upto k ty
  | App f a => closed_upto k f && closed_upto k a
  | Lam _ d b _ | Pi _ d b _ => closed_upto k d && closed_upto (S k) b
  | Macro _ args => forallb (closed_upto k) args
  end.

Definition closed (e : expr) : bool := closed_upto 0 e.

(** The hypothesis references of an expression. *)
Fixpoint hrefs_of (e : expr) : gset nat :=
  match e with
  | Href i => {[ i ]}
  | Var _ | Sort _ | Const _ _ | Mref _ => ∅
  | Meta _ ty | Local _ _ ty => hrefs_of ty
  | App f a => hrefs_of f ∪ hrefs_of a
  | Lam _ d b _ | Pi _ d b _ => hrefs_of d ∪ hrefs_of b
  | Macro _ args => fold_right (fun a acc => hrefs_of a ∪ acc) ∅ args
  end.

(** Modelled from the spec: [for_each] of [kernel/for_each_fn.h], which is
    not among the sources. The traversal is pre-order: the visitor is called
    on a node and, when it answers [true], on the node's children from left
    to right (the type of a metavariable or local constant is its child; the
    two reference leaves have none). The visitor's captured variables are
    the threaded accumulator. The memo table of the original only skips
    repeated visits of a shared subterm. *)
Fixpoint for_each {S : Type} (f : expr -> S -> bool * S) (e : expr) (acc : S) : S :=
  let '(descend, acc1) := f e acc in
  if descend then
    match e with
    | Var _ | Sort _ | Const _ _ | Href _ | Mref _ => acc1
    | Meta _ ty | Local _ _ ty => for_each f ty acc1
    | App fn a => for_each f a (for_each f fn acc1)
    | Lam _ d b _ | Pi _ d b _ => for_each f b (for_each f d acc1)
    | Macro _ args => fold_left (fun acc' a => for_each f a acc') args acc1
    end
  else acc1.

(** [std::all_of] over a predicate that may be undefined on an element:
    elements are tested in order up to the first that fails. *)
Fixpoint all_of {A : Type} (p : A -> option bool) (l : list A) : option bool :=
  match l with
  | [] => Some true
  | a :: l' =>
      match p a with
      | None => None
      | Some false => Some false
      | Some true => all_of p l'
      end
  end.

(** [mlocal_name(a) != mlocal_name(b)] *)
Definition mlocal_name_ne (a b : expr) : option bool :=
  match mlocal_name a, mlocal_name b with
  | Some na, Some nb => Some (negb (bool_decide (na = nb)))
  | _, _ => None
  end.

End Term.

(* ===================================================================== *)
(** ** The engine state ([library/blast/state.h], not among the sources)  *)
(* ===================================================================== *)

Module State.
Import Term.

(** Modelled from the spec: a hypothesis is "a declaration with a pretty
    name, a type, an optional definitional value, and an original external
    local constant retained for externalization". *)
Record hypothesis := mk_hypothesis_decl {
  h_name : name;
  h_type : expr;
  h_value : option expr;
  h_local : expr
}.

(** Modelled from the spec: a metavariable declaration is "a type and a set
    of href indices describing the admissible context". *)
Record metavar_decl := mk_metavar_decl {
  md_context : gset nat;
  md_type : expr
}.

(** Modelled from the spec: a proof step is an opaque resolver. The model
    keeps a token for it; its [resolve] operation is a parameter of the
    driver. *)
Record proof_step := mk_proof_step { ps_cell : nat }.

(** Modelled from the spec: an assignment snapshot "records the current
    sizes of the assignment maps so they can be rolled back". *)
Record assignment_snapshot := mk_snapshot {
  snap_usize : nat;
  snap_esize : nat
}.

(** Modelled from the spec: the State owns the hypothesis table, the
    metavariable declarations, the two assignment maps, the target and the
    proof-step stack. The assignment maps are append-only ("no assignment
    is ever mutated in place beyond append"): a list of bindings, the most
    recent first. *)
Record state := mk_state {
  m_hyp_decls : gmap nat hypothesis;
  m_metavar_decls : gmap nat metavar_decl;
  m_uassignment : list (nat * level);
  m_eassignment : list (nat * expr);
  m_target : expr;
  m_proof_steps : list proof_step
}.

Definition set_metavar_decls (ds : gmap nat metavar_decl) (s : state) : state :=
  mk_state (m_hyp_decls s) ds (m_uassignment s) (m_eassignment s)
           (m_target s) (m_proof_steps s).

Definition set_assignments (us : list (nat * level)) (es : list (nat * expr))
    (s : state) : state :=
  mk_state (m_hyp_decls s) (m_metavar_decls s) us es (m_target s) (m_proof_steps s).

Definition set_proof_steps (ps : list proof_step) (s : state) : state :=
  mk_state (m_hyp_decls s) (m_metavar_decls s) (m_uassignment s)
           (m_eassignment s) (m_target s) ps.

Definition set_target (t : expr) (s : state) : state :=
  mk_state (m_hyp_decls s) (m_metavar_decls s) (m_uassignment s)
           (m_eassignment s) t (m_proof_steps s).

Definition empty_state : state := mk_state ∅ ∅ [] [] (Sort LZero) [].

(** The most recent binding of a key. *)
Fixpoint assoc_find {A : Type} (i : nat) (l : list (nat * A)) : option A :=
  match l with
  | [] => None
  | (j, a) :: l' => if bool_decide (i = j) then Some a else assoc_find i l'
  end.

Definition get_hypothesis_decl (s : state) (e : expr) : option hypothesis :=
  match href_index e with
  | Some i => m_hyp_decls s !! i
  | None => None
  end.

Definition get_metavar_decl (s : state) (m : expr) : option metavar_decl :=
  match mref_index m with
  | Some i => m_metavar_decls s !! i
  | None => None
  end.

(** [metavar_decl::contains_href] *)
Definition contains_href (d : metavar_decl) (e : expr) : bool :=
  match href_index e with
  | Some i => bool_decide (i ∈ md_context d)
  | None => false
  end.

(** Modelled from the spec: [mk_metavar(context, type)] "allocates a
    metavariable"; [idx] is the fresh index drawn by the caller from the
    engine's counter. *)
Definition mk_metavar (idx : nat) (ctx : list nat) (type : expr) (s : state)
    : expr * state :=
  (Mref idx,
   set_metavar_decls
     (<[ idx := mk_metavar_decl (list_to_set ctx) type ]> (m_metavar_decls s)) s).

(** Modelled from the spec: [assign_uref] and [assign_mref] "record
    assignments", by appending. *)
Definition assign_uref (u : nat) (l : level) (s : state) : state :=
  set_assignments ((u, l) :: m_uassignment s) (m_eassignment s) s.

Definition assign_mref (m : nat) (v : expr) (s : state) : state :=
  set_assignments (m_uassignment s) ((m, v) :: m_eassignment s) s.

(** Modelled from the spec: "optional lookup". *)
Definition get_uref_assignment (s : state) (u : level) : option level :=
  match uref_index u with
  | Some i => assoc_find i (m_uassignment s)
  | None => None
  end.

Definition get_mref_assignment (s : state) (m : expr) : option expr :=
  match mref_index m with
  | Some i => assoc_find i (m_eassignment s)
  | None => None
  end.

(** Modelled from the spec: [save_assignment] and [restore_assignment]
    "checkpoint/rollback by shrinking the assignment maps back to the
    recorded sizes". [shrink n l] keeps the [n] oldest bindings. *)
Definition shrink {A : Type} (n : nat) (l : list A) : list A :=
  drop (length l - n) l.

Definition save_assignment (s : state) : assignment_snapshot :=
  mk_snapshot (length (m_uassignment s)) (length (m_eassignment s)).

Definition restore_assignment (sn : assignment_snapshot) (s : state) : state :=
  set_assignments (shrink (snap_usize sn) (m_uassignment s))
                  (shrink (snap_esize sn) (m_eassignment s)) s.

(** Modelled from the spec: [restrict_mref_context_using(m', m)] "narrow[s]
    the admissible context of m' to the intersection of its context and
    m's; fails if the result would invalidate an existing assignment of
    m'". The context is narrowed in any case (the caller's comment reads
    "we force it to be") and the boolean reports the failure; both
    metavariables must be declared. *)
Definition restrict_mref_context_using (m' m : expr) (s : state)
    : option (bool * state) :=
  match mref_index m', get_metavar_decl s m', get_metavar_decl s m with
  | Some i', Some d', Some d =>
      let ctx := md_context d' ∩ md_context d in
      let valid :=
        match get_mref_assignment s m' with
        | Some v => bool_decide (hrefs_of v ⊆ ctx)
        | None => true
        end in
      Some (valid,
            set_metavar_decls
              (<[ i' := mk_metavar_decl ctx (md_type d') ]> (m_metavar_decls s)) s)
  | _, _, _ => None
  end.

(** Modelled from the spec: the proof-step stack with [push_proof_step],
    [top_proof_step], [pop_proof_step], [has_proof_steps] and
    [get_proof_depth]; the proof depth is taken to be the number of
    pending steps. *)
Definition has_proof_steps (s : state) : bool :=
  match m_proof_steps s with [] => false | _ :: _ => true end.

Definition top_proof_step (s : state) : option proof_step := head (m_proof_steps s).

Definition pop_proof_step (s : state) : state :=
  set_proof_steps (tail (m_proof_steps s)) s.

Definition push_proof_step (ps : proof_step) (s : state) : state :=
  set_proof_steps (ps :: m_proof_steps s) s.

Definition get_proof_depth (s : state) : Z := Z.of_nat (length (m_proof_steps s)).

(** Modelled from the spec: [instantiate_urefs_mrefs] "recursively
    substitutes assigned metavariables and universe metavariables
    throughout an expression". The recursion continues into the assigned
    values, so it is bounded by fuel; [None] when the fuel runs out. *)
Fixpoint instantiate_level (fuel : nat) (s : state) (l : level) : option level :=
  match fuel with
  | O => None
  | S fuel' =>
      let go := instantiate_level fuel' s in
      match l with
      | LZero | LParam _ | LGlobal _ | LMeta _ => Some l
      | LSucc l1 => l1' ← go l1; Some (LSucc l1')
      | LMax l1 l2 => l1' ← go l1; l2' ← go l2; Some (LMax l1' l2')
      | LIMax l1 l2 => l1' ← go l1; l2' ← go l2; Some (LIMax l1' l2')
      | LUref _ =>
          match get_uref_assignment s l with
          | Some v => go v
          | None => Some l
          end
      end
  end.

Fixpoint instantiate_urefs_mrefs (fuel : nat) (s : state) (e : expr) : option expr :=
  match fuel with
  | O => None
  | S fuel' =>
      let go := instantiate_urefs_mrefs fuel' s in
      match e with
      | Var _ | Href _ => Some e
      | Sort l => l' ← instantiate_level fuel' s l; Some (Sort l')
      | Const n ls => ls' ← mapM (instantiate_level fuel' s) ls; Some (Const n ls')
      | Meta n ty => ty' ← go ty; Some (Meta n ty')
      | Local n pp ty => ty' ← go ty; Some (Local n pp ty')
      | Mref _ =>
          match get_mref_assignment s e with
          | Some v => go v
          | None => Some e
          end
      | App f a => f' ← go f; a' ← go a; Some (App f' a')
      | Lam n d b bi => d' ← go d; b' ← go b; Some (Lam n d' b' bi)
      | Pi n d b bi => d' ← go d; b' ← go b; Some (Pi n d' b' bi)
      | Macro def args => args' ← mapM go args; Some (Macro def args')
      end
  end.

End State.

(* ===================================================================== *)
(** ** [class blastenv]: the members the modelled methods read or write   *)
(* ===================================================================== *)

Module Engine.
Import Term State.

Definition UINT_MAX : Z := 4294967295.

(** Arithmetic on [unsigned]. *)
Definition wrap32 (z : Z) : Z := z mod 2 ^ 32.

Record blastenv := mk_blastenv {
  m_curr_state : state;
  m_choice_points : list state;
  m_max_depth : Z;
  m_init_depth : Z;
  m_inc_depth : Z
}.

Definition set_curr_state (s : state) (b : blastenv) : blastenv :=
  mk_blastenv s (m_choice_points b) (m_max_depth b) (m_init_depth b) (m_inc_depth b).

Definition set_choice_points (cps : list state) (b : blastenv) : blastenv :=
  mk_blastenv (m_curr_state b) cps (m_max_depth b) (m_init_depth b) (m_inc_depth b).

(** [set_options], on the three values read by [get_blast_max_depth],
    [get_blast_init_depth] and [get_blast_inc_depth]. *)
Definition set_options (max_depth init_depth inc_depth : Z) (b : blastenv) : blastenv :=
  mk_blastenv (m_curr_state b) (m_choice_points b) max_depth init_depth inc_depth.

Definition LEAN_DEFAULT_BLAST_MAX_DEPTH : Z := 128.
Definition LEAN_DEFAULT_BLAST_INIT_DEPTH : Z := 1.
Definition LEAN_DEFAULT_BLAST_INC_DEPTH : Z := 5.

(** [o.get_unsigned(name, default)]: the option's value when it is set. *)
Definition get_unsigned (o : option Z) (default : Z) : Z :=
  match o with Some v => v | None => default end.

(** [next_choice_point] *)
Definition next_choice_point (b : blastenv) : bool * blastenv :=
  match m_choice_points b with
  | [] => (false, b)
  | s :: cps => (true, set_choice_points cps (set_curr_state s b))
  end.

End Engine.

(* ===================================================================== *)
(** ** [class tctx]: the type-context facade                              *)
(* ===================================================================== *)

Module Tctx.
Import Term State Engine.

(** [m_benv] is a reference to the engine: the facade reads and writes the
    engine's current state. *)
Record tctx := mk_tctx {
  m_benv : blastenv;
  m_stack : list assignment_snapshot
}.

Definition curr_state (t : tctx) : state := m_curr_state (m_benv t).

Definition with_curr_state (s : state) (t : tctx) : tctx :=
  mk_tctx (set_curr_state s (m_benv t)) (m_stack t).

Definition is_uvar (l : level) : bool :=
  match l with LUref _ => true | _ => false end.

Definition is_mvar (e : expr) : bool := is_mref e.

Definition get_assignment_level (t : tctx) (u : level) : option level :=
  get_uref_assignment (curr_state t) u.

Definition get_assignment (t : tctx) (m : expr) : option expr :=
  get_mref_assignment (curr_state t) m.

(** [update_assignment]: defined on a [uref] (resp. an [mref]). *)
Definition update_assignment_level (u v : level) (t : tctx) : option tctx :=
  match uref_index u with
  | Some i => Some (with_curr_state (assign_uref i v (curr_state t)) t)
  | None => None
  end.

Definition update_assignment (m v : expr) (t : tctx) : option tctx :=
  match mref_index m with
  | Some i => Some (with_curr_state (assign_mref i v (curr_state t)) t)
  | None => None
  end.

(** The visitor that [validate_assignment] passes to [for_each]. Its
    captured variables are [ok] and the state [s]; the accumulator is
    [None] once an assertion has been violated. The boolean it returns
    tells [for_each] whether to visit the children. *)
Definition validate_visitor (d : metavar_decl) (m : expr) (locals : list expr)
    (e : expr) (acc : option (bool * state)) : bool * option (bool * state) :=
  match acc with
  | None => (false, None)
  | Some (ok, s) =>
      if negb ok then (false, acc)
      else if is_href e then
        if negb (contains_href d e) then (false, Some (false, s))  (* failed 1 *)
        else (true, acc)
      else if is_local e && negb (is_tmp_local e) then
        match all_of (fun a => mlocal_name_ne a e) locals with
        | None => (false, None)
        | Some true => (false, Some (false, s))                    (* failed 3 *)
        | Some false => (true, acc)
        end
      else if is_mref e then
        if bool_decide (m = e) then (false, Some (false, s))       (* failed 4 *)
        else
          match restrict_mref_context_using e m s with             (* enforce 2 *)
          | Some (_, s') => (false, Some (true, s'))
          | None => (false, None)
          end
      else (true, acc)
  end.

(** [validate_assignment(m, locals, v)]: the answer, with the engine state
    it leaves. *)
Definition validate_assignment (m : expr) (locals : list expr) (v : expr)
    (t : tctx) : option (bool * tctx) :=
  match get_metavar_decl (curr_state t) m with
  | None => None
  | Some d =>
      match for_each (validate_visitor d m locals) v (Some (true, curr_state t)) with
      | Some (ok, s') => Some (ok, with_curr_state s' t)
      | None => None
      end
  end.

(** [infer_local] and [infer_metavar] *)
Definition infer_local (t : tctx) (e : expr) : option expr :=
  if is_href e then h ← get_hypothesis_decl (curr_state t) e; Some (h_type h)
  else match e with Local _ _ ty => Some ty | _ => None end.

Definition infer_metavar (t : tctx) (m : expr) : option expr :=
  if is_mref m then d ← get_metavar_decl (curr_state t) m; Some (md_type d)
  else None.

(** [push], [pop], [commit] *)
Definition push (t : tctx) : tctx :=
  mk_tctx (m_benv t) (save_assignment (curr_state t) :: m_stack t).

Definition pop (t : tctx) : option tctx :=
  match m_stack t with
  | sn :: st =>
      Some (mk_tctx (set_curr_state (restore_assignment sn (curr_state t)) (m_benv t)) st)
  | [] => None
  end.

Definition commit (t : tctx) : option tctx :=
  match m_stack t with
  | _ :: st => Some (mk_tctx (m_benv t) st)
  | [] => None
  end.

(** A unification block between [push] and [pop]: a sequence of
    assignment updates. *)
Inductive update :=
| upd_level (u v : level)
| upd_expr (m v : expr).

Definition run_update (u : update) (t : tctx) : option tctx :=
  match u with
  | upd_level u v => update_assignment_level u v t
  | upd_expr m v => update_assignment m v t
  end.

Fixpoint run_updates (us : list update) (t : tctx) : option tctx :=
  match us with
  | [] => Some t
  | u :: us' =>
      match run_update u t with
      | Some t' => run_updates us' t'
      | None => None
      end
  end.

End Tctx.

(* ===================================================================== *)
(** ** The search driver                                                  *)
(* ===================================================================== *)

Module Driver.
Import Term State Engine.

(** [enum status], paired in the source with the proof of a closed branch. *)
Inductive status :=
| NoAction
| ClosedBranch (pr : expr)
| Continue.

Section Search.

(** The actions ([library/blast/intros.h], [assumption.h], [state.h]) work
    on the engine's current state; the resolver of a proof step is the one
    operation a proof step exposes. They are parameters of the driver. *)
Variable intros_action : state -> bool * state.
Variable activate_hypothesis : state -> option nat * state.
Variable assumption_action : state -> option expr * state.
Variable step_resolve : proof_step -> state -> expr -> option expr.

Definition next_action (b : blastenv) : status * blastenv :=
  let '(introduced, s1) := intros_action (m_curr_state b) in
  if introduced then (Continue, set_curr_state s1 b)
  else
    let '(activated, s2) := activate_hypothesis s1 in
    match activated with
    | Some _ => (Continue, set_curr_state s2 b)
    | None =>
        let '(pr, s3) := assumption_action s2 in
        match pr with
        | Some p => (ClosedBranch p, set_curr_state s3 b)
        | None => (NoAction, set_curr_state s3 b)
        end
    end.

(** The loop of [resolve]: [Some (Some pr, b)] is [some_expr(pr)],
    [Some (None, b)] is [none_expr()], [None] is fuel exhaustion. *)
Fixpoint resolve_loop (fuel : nat) (b : blastenv) (pr : expr)
    : option (option expr * blastenv) :=
  if has_proof_steps (m_curr_state b) then
    match fuel with
    | O => None
    | S fuel' =>
        match top_proof_step (m_curr_state b) with
        | None => None
        | Some s =>
            match step_resolve s (m_curr_state b) pr with
            | Some new_pr =>
                resolve_loop fuel'
                  (set_curr_state (pop_proof_step (m_curr_state b)) b) new_pr
            | None => Some (None, b)  (* continue the search *)
            end
        end
    end
  else Some (Some pr, b).  (* closed all branches *)

(** Each iteration that continues pops one step: the number of pending
    steps is enough fuel. *)
Definition resolve (b : blastenv) (pr : expr) : option (option expr * blastenv) :=
  resolve_loop (length (m_proof_steps (m_curr_state b))) b pr.

(** One iteration of the [while (true)] loop of [search_upto]: it returns
    from the function or goes round again. *)
Inductive iteration :=
| Return (r : option expr) (b : blastenv)
| Again (b : blastenv).

Definition search_upto_body (depth : Z) (b : blastenv) : option iteration :=
  let act (b1 : blastenv) :=
    let '(st, b2) := next_action b1 in
    match st with
    | NoAction =>
        let '(ok, b3) := next_choice_point b2 in
        if ok then Some (Again b3) else Some (Return None b3)
    | ClosedBranch pr =>
        match resolve b2 pr with
        | None => None
        | Some (Some r, b3) => Some (Return (Some r) b3)
        | Some (None, b3) => Some (Again b3)
        end
    | Continue => Some (Again b2)
    end in
  if get_proof_depth (m_curr_state b) >? depth then
    (* maximum depth reached *)
    let '(ok, b1) := next_choice_point b in
    if ok then act b1 else Some (Return None b1)
  else act b.

Fixpoint search_upto (fuel : nat) (depth : Z) (b : blastenv)
    : option (option expr * blastenv) :=
  match fuel with
  | O => None
  | S fuel' =>
      match search_upto_body depth b with
      | None => None
      | Some (Return r b') => Some (r, b')
      | Some (Again b') => search_upto fuel' depth b'
      end
  end.

(** The loop of [search]; [s] is the saved state and [d] the depth. *)
Fixpoint search_loop (fuel : nat) (s : state) (d : Z) (b : blastenv)
    : option (option expr * blastenv) :=
  match fuel with
  | O => None
  | S fuel' =>
      if d <=? m_max_depth b then
        match search_upto fuel' d b with
        | None => None
        | Some (Some r, b1) => Some (Some r, b1)
        | Some (None, b1) =>
            search_loop fuel' s (wrap32 (d + m_inc_depth b1))
              (set_choice_points [] (set_curr_state s b1))
        end
      else Some (None, b)
  end.

Definition search (fuel : nat) (b : blastenv) : option (option expr * blastenv) :=
  search_loop fuel (m_curr_state b) (m_init_depth b) b.

End Search.
End Driver.

(* ===================================================================== *)
(** ** Outcomes of the two term visitors                                  *)
(* ===================================================================== *)

Module Outcome.
Import Term.

(** The two [blast_exception]s thrown by the internalizer:
    "'blast' tactic failed, goal contains a meta-variable application that
    is not supported" and "blast tactic failed, ill-formed input goal",
    each with the offending term. *)
Inductive blast_exception :=
| unsupported_metavar_occ (e : expr)
| ill_formed_input_goal (e : expr).

Inductive outcome (A : Type) :=
| Ok (a : A)
| Throw (ex : blast_exception)
| AssertionViolation
| OutOfFuel.

Arguments Ok {A} a.
Arguments Throw {A} ex.
Arguments AssertionViolation {A}.
Arguments OutOfFuel {A}.

Definition obind {A B : Type} (o : outcome A) (k : A -> outcome B) : outcome B :=
  match o with
  | Ok a => k a
  | Throw ex => Throw ex
  | AssertionViolation => AssertionViolation
  | OutOfFuel => OutOfFuel
  end.

Fixpoint omap {A B : Type} (f : A -> outcome B) (l : list A) : outcome (list B) :=
  match l with
  | [] => Ok []
  | a :: l' => obind (f a) (fun b => obind (omap f l') (fun bs => Ok (b :: bs)))
  end.

End Outcome.

(* ===================================================================== *)
(** ** The internalizer: [class to_blast_expr_fn]                         *)
(* ===================================================================== *)

Module Internalize.
Import Term State Outcome.

(** What the visitor refers to and updates: the state under construction
    ([m_state]), the engine's two maps, and the engine's counters of fresh
    [uref] and [mref] indices. *)
Record conv := mk_conv {
  cv_state : state;
  cv_uvar2uref : gmap name level;
  cv_mvar2meta_mref : gmap name (expr * expr);
  cv_next_uref : nat;
  cv_next_mref : nat
}.

(** Computations of the visitor: state passing, with outcomes. *)
Definition M (A : Type) : Type := conv -> outcome (A * conv).

Definition ret {A : Type} (a : A) : M A := fun c => Ok (a, c).

Definition bind {A B : Type} (m : M A) (k : A -> M B) : M B :=
  fun c =>
    match m c with
    | Ok (a, c') => k a c'
    | Throw ex => Throw ex
    | AssertionViolation => AssertionViolation
    | OutOfFuel => OutOfFuel
    end.

Definition raise {A : Type} (ex : blast_exception) : M A := fun _ => Throw ex.

Definition violated {A : Type} : M A := fun _ => AssertionViolation.

Notation "'let*' x ':=' m 'in' k" := (bind m (fun x => k))
  (at level 10, x name, m at level 100, k at level 200).

Fixpoint mapM_conv {A B : Type} (f : A -> M B) (l : list A) : M (list B) :=
  match l with
  | [] => ret []
  | a :: l' => let* b := f a in let* bs := mapM_conv f l' in ret (b :: bs)
  end.

(** [meta_id] of a universe metavariable; a [uref] met in the input is a
    metavariable under its internal name. *)
Definition mk_fresh_uref : M level :=
  fun c =>
    Ok (LUref (cv_next_uref c),
        mk_conv (cv_state c) (cv_uvar2uref c) (cv_mvar2meta_mref c)
                (S (cv_next_uref c)) (cv_next_mref c)).

Definition uvar2uref_find (n : name) : M (option level) :=
  fun c => Ok (cv_uvar2uref c !! n, c).

Definition uvar2uref_insert (n : name) (u : level) : M unit :=
  fun c =>
    Ok (tt, mk_conv (cv_state c) (<[ n := u ]> (cv_uvar2uref c))
                    (cv_mvar2meta_mref c) (cv_next_uref c) (cv_next_mref c)).

Definition to_blast_meta_level (n : name) : M level :=
  let* r := uvar2uref_find n in
  match r with
  | Some u => ret u
  | None => let* uref := mk_fresh_uref in let* _ := uvar2uref_insert n uref in ret uref
  end.

Fixpoint to_blast_level (l : level) : M level :=
  match l with
  | LSucc l1 => let* l1' := to_blast_level l1 in ret (LSucc l1')
  | LZero => ret LZero
  | LParam n => ret (LParam n)
  | LGlobal n => ret (LGlobal n)
  | LMax l1 l2 =>
      let* lhs := to_blast_level l1 in let* rhs := to_blast_level l2 in ret (LMax lhs rhs)
  | LIMax l1 l2 =>
      let* lhs := to_blast_level l1 in let* rhs := to_blast_level l2 in ret (LIMax lhs rhs)
  | LMeta n => to_blast_meta_level n
  | LUref i => to_blast_meta_level (uref_name i)
  end.

(** [m_state.mk_metavar(ctx, type)], drawing the next [mref] index. *)
Definition state_mk_metavar (ctx : list nat) (type : expr) : M expr :=
  fun c =>
    let '(mref, s') := mk_metavar (cv_next_mref c) ctx type (cv_state c) in
    Ok (mref, mk_conv s' (cv_uvar2uref c) (cv_mvar2meta_mref c)
                      (cv_next_uref c) (S (cv_next_mref c))).

Definition mvar2meta_mref_find (n : name) : M (option (expr * expr)) :=
  fun c => Ok (cv_mvar2meta_mref c !! n, c).

Definition mvar2meta_mref_insert (n : name) (p : expr * expr) : M unit :=
  fun c =>
    Ok (tt, mk_conv (cv_state c) (cv_uvar2uref c)
                    (<[ n := p ]> (cv_mvar2meta_mref c))
                    (cv_next_uref c) (cv_next_mref c)).

(** [aux = app_fn(aux)], [k] times. *)
Fixpoint app_fn_iter (k : nat) (e : expr) : option expr :=
  match k with
  | O => Some e
  | S k' => match e with App f _ => app_fn_iter k' f | _ => None end
  end.

(** The loop of [visit_meta_app] that checks a later occurrence against the
    recorded application, position by position: [true] when no position
    makes it throw. The size test before the loop makes [args] at least as
    long as [decl_args]. *)
Fixpoint prefix_matches (decl_args args : list expr) : bool :=
  match decl_args, args with
  | [], _ => true
  | d :: decl_args', a :: args' =>
      if is_local d then
        if negb (is_local a) || negb (bool_decide (mlocal_name a = mlocal_name d))
        then false
        else prefix_matches decl_args' args'
      else if negb (bool_decide (d = a)) then false
      else prefix_matches decl_args' args'
  | _ :: _, [] => false
  end.

Section Visitor.

(** [m_tc.infer(e).first], the kernel's type inference. *)
Variable infer : expr -> expr.

(** [m_local2href]: filled by [to_state], only read by the visitor. *)
Variable m_local2href : gmap name expr.

(** The loop of [visit_meta_app] that finds the "prefix that contains only
    closed terms": [seen] are the arguments before position [i] (in
    order), [rest] the ones from [i] on, [ctx] the buffer of hypothesis
    indices. It ends with [(prefix_sz, ctx)] or throws for [e]. *)
Fixpoint find_prefix (e : expr) (seen rest : list expr) (ctx : list nat)
    : outcome (nat * list nat) :=
  match rest with
  | [] => Ok (length seen, ctx)
  | a :: rest' =>
      if negb (closed a) then Ok (length seen, ctx)              (* break *)
      else if negb (is_local a) then
        (* Ignore arguments that are not local constants. *)
        find_prefix e (seen ++ [a]) rest' ctx
      else
        match all_of (fun prev => mlocal_name_ne prev a) seen with
        | None => AssertionViolation
        | Some false =>
            (* Local has already been processed *)
            find_prefix e (seen ++ [a]) rest' ctx
        | Some true =>
            match mlocal_name a with
            | None => AssertionViolation
            | Some n =>
                match m_local2href !! n with
                | None => Throw (unsupported_metavar_occ e)
                | Some href =>
                    match href_index href with
                    | None => AssertionViolation
                    | Some hidx => find_prefix e (seen ++ [a]) rest' (ctx ++ [hidx])
                    end
                end
            end
        end
  end.

Section Methods.

(** The methods call [visit] recursively; [visit] below ties the knot. *)
Variable visit : expr -> M expr.

Definition throw_unsupported_metavar_occ {A : Type} (e : expr) : M A :=
  raise (unsupported_metavar_occ e).

Definition visit_sort (e : expr) : M expr :=
  match e with
  | Sort l => let* l' := to_blast_level l in ret (Sort l')
  | _ => violated
  end.

Definition visit_macro (e : expr) : M expr :=
  match e with
  | Macro def args => let* new_args := mapM_conv visit args in ret (Macro def new_args)
  | _ => violated
  end.

Definition visit_constant (e : expr) : M expr :=
  match e with
  | Const n ls => let* new_ls := mapM_conv to_blast_level ls in ret (Const n new_ls)
  | _ => violated
  end.

Definition visit_var (e : expr) : M expr :=
  match e with
  | Var i => ret (Var i)
  | _ => violated
  end.

Definition mk_mref_app (mref : expr) (args : list expr) : M expr :=
  if negb (is_mref mref) then violated
  else let* new_args := mapM_conv visit args in ret (mk_app mref new_args).

Definition visit_meta_app (e : expr) : M expr :=
  if negb (is_meta e) then violated
  else
    let '(mvar, args) := get_app_args e in
    match mlocal_name mvar with
    | None => violated
    | Some mname =>
        let* meta_mref := mvar2meta_mref_find mname in
        match meta_mref with
        | Some (meta, mref) =>
            if negb (is_meta meta) || negb (is_mref mref) then violated
            else
              let decl_args := snd (get_app_args meta) in
              if (length args <? length decl_args)%nat
              then throw_unsupported_metavar_occ e
              else if negb (prefix_matches decl_args args)
              then throw_unsupported_metavar_occ e
              else mk_mref_app mref (drop (length decl_args) args)
        | None =>
            match find_prefix e [] args [] with
            | Ok (prefix_sz, ctx) =>
                match app_fn_iter (length args - prefix_sz) e with
                | None => violated
                | Some aux =>
                    if negb (is_meta aux) then violated
                    else
                      let* type := visit (infer aux) in
                      let* mref := state_mk_metavar ctx type in
                      let* _ := mvar2meta_mref_insert mname (e, mref) in
                      mk_mref_app mref (drop prefix_sz args)
                end
            | Throw ex => raise ex
            | AssertionViolation => violated
            | OutOfFuel => fun _ => OutOfFuel
            end
        end
    end.

Definition visit_meta (e : expr) : M expr := visit_meta_app e.

Definition visit_local (e : expr) : M expr :=
  match mlocal_name e with
  | None => violated
  | Some n =>
      match m_local2href !! n with
      | Some r => ret r
      | None => raise (ill_formed_input_goal e)
      end
  end.

Definition visit_app (e : expr) : M expr :=
  if is_meta e then visit_meta_app e
  else
    match e with
    | App fn a => let* f := visit fn in let* a' := visit a in ret (App f a')
    | _ => violated
    end.

Definition visit_lambda (e : expr) : M expr :=
  match e with
  | Lam n dom b bi => let* d := visit dom in let* b' := visit b in ret (Lam n d b' bi)
  | _ => violated
  end.

Definition visit_pi (e : expr) : M expr :=
  match e with
  | Pi n dom b bi => let* d := visit dom in let* b' := visit b in ret (Pi n d b' bi)
  | _ => violated
  end.

End Methods.

(** Modelled from the spec: [replace_visitor::visit] of
    [library/replace_visitor.h], which is not among the sources: "a
    compositional traversal" that hands each node to the method of its
    kind. The recursion also enters the inferred type of a metavariable,
    hence the fuel. The visitor's result cache is left out. *)
Fixpoint visit (fuel : nat) (e : expr) : M expr :=
  match fuel with
  | O => fun _ => OutOfFuel
  | S fuel' =>
      match e with
      | Sort _ => visit_sort e
      | Macro _ _ => visit_macro (visit fuel') e
      | Const _ _ => visit_constant e
      | Var _ => visit_var e
      | Meta _ _ | Mref _ => visit_meta (visit fuel') e
      | Local _ _ _ | Href _ => visit_local e
      | App _ _ => visit_app (visit fuel') e
      | Lam _ _ _ _ => visit_lambda (visit fuel') e
      | Pi _ _ _ _ => visit_pi (visit fuel') e
      end
  end.

(** [to_blast_expr(e)], the visitor's [operator()]. *)
Definition to_blast_expr (fuel : nat) (e : expr) : M expr := visit fuel e.

End Visitor.
End Internalize.

(* ===================================================================== *)
(** ** The externalizer: [struct to_tactic_proof_fn]                      *)
(* ===================================================================== *)

Module Externalize.
Import Term State Outcome.

Section Visitor.

Variable m_state : state.

Section Methods.

Variable visit : expr -> outcome expr.

(** Modelled from the spec: the methods of the base class
    [replace_visitor] ([library/replace_visitor.h], not among the sources),
    by which "all other constructors are reconstructed compositionally":
    a metavariable or local constant is rebuilt around its visited type
    (the two reference leaves have none); the methods are defined on nodes
    of their own kind. *)
Definition replace_visitor_visit_mlocal (e : expr) : outcome expr :=
  match e with
  | Meta n ty => obind (visit ty) (fun ty' => Ok (Meta n ty'))
  | Local n pp ty => obind (visit ty) (fun ty' => Ok (Local n pp ty'))
  | Href _ | Mref _ => Ok e
  | _ => AssertionViolation
  end.

Definition replace_visitor_visit_meta (e : expr) : outcome expr :=
  replace_visitor_visit_mlocal e.

Definition replace_visitor_visit_local (e : expr) : outcome expr :=
  replace_visitor_visit_mlocal e.

Definition replace_visitor_visit_app (e : expr) : outcome expr :=
  match e with
  | App f a => obind (visit f) (fun f' => obind (visit a) (fun a' => Ok (App f' a')))
  | _ => AssertionViolation
  end.

Definition replace_visitor_visit_binding (e : expr) : outcome expr :=
  match e with
  | Lam n d b bi =>
      obind (visit d) (fun d' => obind (visit b) (fun b' => Ok (Lam n d' b' bi)))
  | Pi n d b bi =>
      obind (visit d) (fun d' => obind (visit b) (fun b' => Ok (Pi n d' b' bi)))
  | _ => AssertionViolation
  end.

Definition replace_visitor_visit_macro (e : expr) : outcome expr :=
  match e with
  | Macro def args => obind (omap visit args) (fun args' => Ok (Macro def args'))
  | _ => AssertionViolation
  end.

(** [to_tactic_proof_fn::visit_local] *)
Definition visit_local (e : expr) : outcome expr :=
  if is_href e then
    match get_hypothesis_decl m_state e with
    | None => AssertionViolation
    | Some h =>
        match h_value h with
        | Some r => visit r
        | None => replace_visitor_visit_local e
        end
    end
  else replace_visitor_visit_local e.

(** [to_tactic_proof_fn::visit_meta]; [fuel] bounds the instantiation. *)
Definition visit_meta (fuel : nat) (e : expr) : outcome expr :=
  if negb (is_mref e) then AssertionViolation
  else
    match instantiate_urefs_mrefs fuel m_state e with
    | None => OutOfFuel
    | Some v =>
        if bool_decide (v = e) then Ok v
        else replace_visitor_visit_meta v
    end.

End Methods.

(** Modelled from the spec: [replace_visitor::visit], the dispatch on the
    kind of the node (see [Internalize.visit]). The recursion enters the
    value of a hypothesis and the type of an instantiated metavariable,
    hence the fuel. *)
Fixpoint visit (fuel : nat) (e : expr) : outcome expr :=
  match fuel with
  | O => OutOfFuel
  | S fuel' =>
      match e with
      | Sort _ | Const _ _ | Var _ => Ok e
      | Macro _ _ => replace_visitor_visit_macro (visit fuel') e
      | Meta _ _ | Mref _ => visit_meta (visit fuel') fuel' e
      | Local _ _ _ | Href _ => visit_local (visit fuel') e
      | App _ _ => replace_visitor_visit_app (visit fuel') e
      | Lam _ _ _ _ | Pi _ _ _ _ => replace_visitor_visit_binding (visit fuel') e
      end
  end.

End Visitor.

(** [blastenv::to_tactic_proof(pr)]: the visitor over the current state. *)
Definition to_tactic_proof (fuel : nat) (s : state) (pr : expr) : outcome expr :=
  visit s fuel pr.

End Externalize.

(* ===================================================================== *)
(** ** The engine entry: [blastenv::operator()]                           *)
(* ===================================================================== *)

Module Entry.
Import Term State Engine Outcome.

Section Run.

Variable intros_action : state -> bool * state.
Variable activate_hypothesis : state -> option nat * state.
Variable assumption_action : state -> option expr * state.
Variable step_resolve : proof_step -> state -> expr -> option expr.

(** [operator()(g)] after [init_state(g)] has installed the state of the
    goal in [b]: [Some None] is [none_expr()], [Some (Some o)] is the
    externalized proof, [None] is fuel exhaustion in [search]. *)
Definition run (fuel ext_fuel : nat) (b : blastenv)
    : option (option (outcome expr)) :=
  match Driver.search intros_action activate_hypothesis assumption_action
          step_resolve fuel b with
  | None => None
  | Some (Some r, b') =>
      Some (Some (Externalize.to_tactic_proof ext_fuel (m_curr_state b') r))
  | Some (None, _) => Some None
  end.

End Run.
End Entry.

(* ===================================================================== *)
(** * Properties                                                          *)
(* ===================================================================== *)

(** ** The search driver: [resolve], [search_upto], [search] *)

Module DriverFacts.
Import Term State Engine Driver.

(** The environment in which every iteration of [search] after the first
    starts: the saved state, no choice point. *)
Definition reset_env (s : state) (b : blastenv) : blastenv :=
  set_choice_points [] (set_curr_state s b).

(** The depth reached from [d] after [k] times [d += inc]. *)
Fixpoint depth_from (inc d : Z) (k : nat) : Z :=
  match k with
  | O => d
  | S k' => depth_from inc (wrap32 (d + inc)) k'
  end.

(** The depth tried by the [k]-th iteration of [search]. *)
Definition depth_at (b : blastenv) (k : nat) : Z :=
  depth_from (m_inc_depth b) (m_init_depth b) k.

(** The environment in which the [k]-th iteration starts. *)
Definition env_at (b : blastenv) (k : nat) : blastenv :=
  match k with
  | O => b
  | S _ => reset_env (m_curr_state b) b
  end.

Definition same_options (b b' : blastenv) : Prop :=
  m_max_depth b' = m_max_depth b /\
  m_init_depth b' = m_init_depth b /\
  m_inc_depth b' = m_inc_depth b.

Section Facts.

Variable intros_action : state -> bool * state.
Variable activate_hypothesis : state -> option nat * state.
Variable assumption_action : state -> option expr * state.
Variable step_resolve : proof_step -> state -> expr -> option expr.

Local Abbreviation next_action :=
  (next_action intros_action activate_hypothesis assumption_action).
Local Abbreviation resolve_loop := (resolve_loop step_resolve).
Local Abbreviation resolve := (resolve step_resolve).
Local Abbreviation search_upto :=
  (search_upto intros_action activate_hypothesis assumption_action step_resolve).
Local Abbreviation search_loop :=
  (search_loop intros_action activate_hypothesis assumption_action step_resolve).
Local Abbreviation search :=
  (search intros_action activate_hypothesis assumption_action step_resolve).
Local Abbreviation run :=
  (Entry.run intros_action activate_hypothesis assumption_action step_resolve).

(** [search_upto d] (resp. the loop of [search]) returns [r]: some amount
    of fuel is enough. *)
Definition upto_returns (d : Z) (b : blastenv) (r : option expr * blastenv) : Prop :=
  exists fuel, search_upto fuel d b = Some r.

Definition loop_returns (s : state) (d : Z) (b : blastenv)
    (r : option expr * blastenv) : Prop :=
  exists fuel, search_loop fuel s d b = Some r.

Definition search_returns (b : blastenv) (r : option expr * blastenv) : Prop :=
  exists fuel, search fuel b = Some r.

(** *** [resolve] *)

Lemma resolve_loop_no_steps fuel b pr :
  has_proof_steps (m_curr_state b) = false ->
  resolve_loop fuel b pr = Some (Some pr, b).
Proof. intros H. destruct fuel; simpl; rewrite H; reflexivity. Qed.

Lemma resolve_loop_enough fuel :
  forall b pr,
    (length (m_proof_steps (m_curr_state b)) <= fuel)%nat ->
    exists r, resolve_loop fuel b pr = Some r.
Proof.
  induction fuel as [|fuel IH]; intros b pr Hlen.
  - exists (Some pr, b). apply resolve_loop_no_steps.
    unfold has_proof_steps.
    destruct (m_proof_steps (m_curr_state b)); [reflexivity | simpl in Hlen; lia].
  - simpl. unfold has_proof_steps, top_proof_step.
    destruct (m_proof_steps (m_curr_state b)) as [|s rest] eqn:Hst; simpl.
    + eauto.
    + destruct (step_resolve s (m_curr_state b) pr) as [new_pr|]; [|eauto].
      apply IH. simpl. rewrite Hst. simpl in *. lia.
Qed.

Lemma resolve_loop_final fuel :
  forall b pr p b',
    resolve_loop fuel b pr = Some (Some p, b') ->
    has_proof_steps (m_curr_state b') = false.
Proof.
  induction fuel as [|fuel IH]; intros b pr p b'; simpl.
  - destruct (has_proof_steps (m_curr_state b)) eqn:Hs; [discriminate|].
    intros [= <- <-]. exact Hs.
  - destruct (has_proof_steps (m_curr_state b)) eqn:Hs.
    + destruct (top_proof_step (m_curr_state b)) as [s|]; [|discriminate].
      destruct (step_resolve s (m_curr_state b) pr) as [new_pr|]; [|discriminate].
      apply IH.
    + intros [= <- <-]. exact Hs.
Qed.

Lemma resolve_same_options b pr r b' :
  resolve b pr = Some (r, b') -> same_options b b'.
Proof.
  unfold resolve.
  generalize (length (m_proof_steps (m_curr_state b))) as fuel.
  intros fuel. revert b pr.
  induction fuel as [|fuel IH]; intros b pr; simpl.
  - destruct (has_proof_steps (m_curr_state b)); [discriminate|].
    intros [= <- <-]. repeat split.
  - destruct (has_proof_steps (m_curr_state b)).
    + destruct (top_proof_step (m_curr_state b)) as [s|]; [|discriminate].
      destruct (step_resolve s (m_curr_state b) pr) as [new_pr|].
      * intros H. apply IH in H. destruct b; exact H.
      * intros [= <- <-]. repeat split.
    + intros [= <- <-]. repeat split.
Qed.

(** *** The options are not touched by the loops *)

Lemma same_options_refl b : same_options b b.
Proof. repeat split. Qed.

Lemma same_options_trans b1 b2 b3 :
  same_options b1 b2 -> same_options b2 b3 -> same_options b1 b3.
Proof. intros (?&?&?) (?&?&?). repeat split; congruence. Qed.

Lemma same_options_set_curr_state s b : same_options b (set_curr_state s b).
Proof. repeat split. Qed.

Lemma same_options_set_choice_points cps b : same_options b (set_choice_points cps b).
Proof. repeat split. Qed.

Lemma next_choice_point_same_options b ok b' :
  next_choice_point b = (ok, b') -> same_options b b'.
Proof.
  unfold next_choice_point. destruct (m_choice_points b).
  - intros [= <- <-]. apply same_options_refl.
  - intros [= <- <-]. repeat split.
Qed.

Lemma next_action_same_options b st b' :
  next_action b = (st, b') -> same_options b b'.
Proof.
  unfold Driver.next_action.
  destruct (intros_action (m_curr_state b)) as [[] s1].
  { intros [= <- <-]. apply same_options_set_curr_state. }
  destruct (activate_hypothesis s1) as [[hidx|] s2].
  { intros [= <- <-]. apply same_options_set_curr_state. }
  destruct (assumption_action s2) as [[p|] s3];
    intros [= <- <-]; apply same_options_set_curr_state.
Qed.

Local Abbreviation search_upto_body :=
  (search_upto_body intros_action activate_hypothesis assumption_action step_resolve).

Lemma search_upto_body_same_options d b it :
  search_upto_body d b = Some it ->
  match it with Return _ b' | Again b' => same_options b b' end.
Proof.
  unfold Driver.search_upto_body.
  assert (Hact : forall b1, same_options b b1 ->
    (let '(st, b2) := next_action b1 in
     match st with
     | NoAction =>
         let '(ok, b3) := next_choice_point b2 in
         if ok then Some (Again b3) else Some (Return None b3)
     | ClosedBranch pr =>
         match resolve b2 pr with
         | None => None
         | Some (Some r, b3) => Some (Return (Some r) b3)
         | Some (None, b3) => Some (Again b3)
         end
     | Continue => Some (Again b2)
     end) = Some it ->
    match it with Return _ b' | Again b' => same_options b b' end).
  { intros b1 Hb1.
    destruct (next_action b1) as [st b2] eqn:Hna.
    apply next_action_same_options in Hna.
    pose proof (same_options_trans _ _ _ Hb1 Hna) as Hb2.
    destruct st as [|pr|].
    - destruct (next_choice_point b2) as [ok b3] eqn:Hcp.
      apply next_choice_point_same_options in Hcp.
      pose proof (same_options_trans _ _ _ Hb2 Hcp).
      destruct ok; intros [= <-]; assumption.
    - destruct (resolve b2 pr) as [[[r|] b3]|] eqn:Hres; [| |discriminate];
        apply resolve_same_options in Hres;
        pose proof (same_options_trans _ _ _ Hb2 Hres);
        intros [= <-]; assumption.
    - intros [= <-]; assumption. }
  destruct (get_proof_depth (m_curr_state b) >? d).
  - destruct (next_choice_point b) as [ok b1] eqn:Hcp.
    apply next_choice_point_same_options in Hcp.
    destruct ok; [apply Hact; exact Hcp | intros [= <-]; exact Hcp].
  - apply Hact, same_options_refl.
Qed.

Lemma search_upto_same_options fuel :
  forall d b r b',
    search_upto fuel d b = Some (r, b') -> same_options b b'.
Proof.
  induction fuel as [|fuel IH]; intros d b r b'; simpl; [discriminate|].
  destruct (search_upto_body d b) as [[r0 b0|b0]|] eqn:Hbody; [| |discriminate];
    apply search_upto_body_same_options in Hbody.
  - intros [= <- <-]. exact Hbody.
  - intros H. apply IH in H. eapply same_options_trans; eassumption.
Qed.

(** *** Fuel: more of it does not change an answer *)

Lemma search_upto_mono fuel :
  forall fuel' d b r,
    (fuel <= fuel')%nat ->
    search_upto fuel d b = Some r -> search_upto fuel' d b = Some r.
Proof.
  induction fuel as [|fuel IH]; intros fuel' d b r Hle; simpl; [discriminate|].
  destruct fuel' as [|fuel']; [lia|]. simpl.
  destruct (search_upto_body d b) as [[r0 b0|b0]|]; try tauto.
  apply IH. lia.
Qed.

Lemma search_upto_deterministic d b r r' :
  upto_returns d b r -> upto_returns d b r' -> r = r'.
Proof.
  intros [n Hn] [n' Hn'].
  apply (search_upto_mono n (Nat.max n n')) in Hn; [|lia].
  apply (search_upto_mono n' (Nat.max n n')) in Hn'; [|lia].
  congruence.
Qed.

Lemma search_loop_mono fuel :
  forall fuel' s d b r,
    (fuel <= fuel')%nat ->
    search_loop fuel s d b = Some r -> search_loop fuel' s d b = Some r.
Proof.
  induction fuel as [|fuel IH]; intros fuel' s d b r Hle; simpl; [discriminate|].
  destruct fuel' as [|fuel']; [lia|]. simpl.
  destruct (d <=? m_max_depth b); [|tauto].
  destruct (search_upto fuel d b) as [[[pr|] b1]|] eqn:Hup; [| |discriminate];
    rewrite (search_upto_mono fuel fuel' d b _ ltac:(lia) Hup); [tauto|].
  apply IH. lia.
Qed.

(** *** One iteration of [search] *)

Lemma reset_env_same_options s b b' :
  same_options b b' -> reset_env s b' = reset_env s b.
Proof.
  intros (H1 & H2 & H3).
  unfold reset_env, set_choice_points, set_curr_state.
  destruct b, b'; simpl in *. subst. reflexivity.
Qed.

Lemma loop_returns_beyond s d b :
  m_max_depth b < d -> loop_returns s d b (None, b).
Proof.
  intros Hd. exists 1%nat. simpl.
  destruct (Z.leb_spec d (m_max_depth b)); [lia | reflexivity].
Qed.

Lemma loop_returns_found s d b pr b1 :
  d <= m_max_depth b ->
  upto_returns d b (Some pr, b1) -> loop_returns s d b (Some pr, b1).
Proof.
  intros Hd [n Hn]. exists (S n). simpl.
  destruct (Z.leb_spec d (m_max_depth b)); [|lia].
  rewrite Hn. reflexivity.
Qed.

Lemma loop_returns_failed s d b b1 r :
  d <= m_max_depth b ->
  upto_returns d b (None, b1) ->
  (loop_returns s d b r <->
   loop_returns s (wrap32 (d + m_inc_depth b)) (reset_env s b) r).
Proof.
  intros Hd [n Hn].
  pose proof (search_upto_same_options _ _ _ _ _ Hn) as Hopt.
  assert (Hinc : m_inc_depth b1 = m_inc_depth b) by apply Hopt.
  split.
  - intros [[|m] Hm]; simpl in Hm; [discriminate|].
    destruct (Z.leb_spec d (m_max_depth b)); [|lia].
    destruct (search_upto m d b) as [r1|] eqn:Hup; [|discriminate].
    assert (r1 = (None, b1)) as ->.
    { eapply search_upto_deterministic; eexists; eassumption. }
    exists m. rewrite Hinc in Hm. fold (reset_env s b1) in Hm.
    rewrite (reset_env_same_options s b b1 Hopt) in Hm. exact Hm.
  - intros [m Hm]. exists (S (Nat.max n m)). simpl.
    destruct (Z.leb_spec d (m_max_depth b)); [|lia].
    rewrite (search_upto_mono n (Nat.max n m) d b _ ltac:(lia) Hn).
    rewrite Hinc. fold (reset_env s b1).
    rewrite (reset_env_same_options s b b1 Hopt).
    apply (search_loop_mono m); [lia | exact Hm].
Qed.

Lemma reset_env_idem s b : reset_env s (reset_env s b) = reset_env s b.
Proof. reflexivity. Qed.

(** Every iteration fails, and the depth passes [m_max_depth] after [n]
    of them. *)
Lemma loop_returns_all_failed n :
  forall s d b,
    (forall k, (k < n)%nat ->
       depth_from (m_inc_depth b) d k <= m_max_depth b /\
       exists b1,
         upto_returns (depth_from (m_inc_depth b) d k)
                      (match k with O => b | S _ => reset_env s b end) (None, b1)) ->
    m_max_depth b < depth_from (m_inc_depth b) d n ->
    loop_returns s d b (None, match n with O => b | S _ => reset_env s b end).
Proof.
  induction n as [|n IH]; intros s d b Hfail Hend.
  - apply loop_returns_beyond. exact Hend.
  - destruct (Hfail 0%nat ltac:(lia)) as [Hd [b1 Hb1]]. simpl in Hd, Hb1.
    apply (loop_returns_failed s d b b1 _ Hd Hb1).
    specialize (IH s (wrap32 (d + m_inc_depth b)) (reset_env s b)).
    replace (match n with O => reset_env s b | S _ => reset_env s (reset_env s b) end)
      with (reset_env s b) in IH by (destruct n; reflexivity).
    apply IH.
    + intros k Hk. destruct (Hfail (S k) ltac:(lia)) as [Hdk [b2 Hb2]].
      split; [exact Hdk|]. exists b2.
      destruct k; exact Hb2.
    + exact Hend.
Qed.

(** *** The depth sequence when no addition wraps around *)

Lemma wrap32_small z : 0 <= z <= UINT_MAX -> wrap32 z = z.
Proof. unfold wrap32, UINT_MAX. intros H. apply Z.mod_small. lia. Qed.

Lemma wrap32_range z : 0 <= wrap32 z <= UINT_MAX.
Proof.
  unfold wrap32, UINT_MAX.
  pose proof (Z.mod_pos_bound z (2 ^ 32) ltac:(lia)). lia.
Qed.

Lemma depth_from_linear inc max k :
  forall d,
    0 <= d -> 0 <= inc -> max + inc <= UINT_MAX ->
    (forall j, (j < k)%nat -> d + Z.of_nat j * inc <= max) ->
    depth_from inc d k = d + Z.of_nat k * inc.
Proof.
  induction k as [|k IH]; intros d Hd Hinc Hmax Hle; simpl depth_from; [lia|].
  pose proof (Hle 0%nat ltac:(lia)) as H0.
  rewrite wrap32_small by lia.
  rewrite IH; try lia.
  intros j Hj. specialize (Hle (S j) ltac:(lia)). lia.
Qed.

(** The number of iterations of [search] that start from depth [d]. *)
Definition iterations (inc max d : Z) : nat :=
  Z.to_nat (Z.max 0 ((max - d) / inc + 1)).

Lemma iterations_spec inc max d :
  0 <= d -> 1 <= inc -> max + inc <= UINT_MAX ->
  max < depth_from inc d (iterations inc max d) /\
  (forall k, (k < iterations inc max d)%nat -> depth_from inc d k <= max).
Proof.
  intros Hd Hinc Hmax. unfold iterations.
  set (q := (max - d) / inc).
  assert (Hq1 : inc * q <= max - d) by (apply Z.mul_div_le; lia).
  assert (Hq2 : max - d < inc * Z.succ q) by (apply Z.mul_succ_div_gt; lia).
  assert (Hlin : forall k, (Z.of_nat k <= Z.max 0 (q + 1)) ->
                 depth_from inc d k = d + Z.of_nat k * inc).
  { intros k Hk. apply (depth_from_linear inc max); try lia.
    intros j Hj. nia. }
  split.
  - rewrite Hlin by lia. nia.
  - intros k Hk. rewrite Hlin by lia. nia.
Qed.

(** *** The claims about the driver *)

(** C7. [resolve(pr)] loops while the proof-step stack is non-empty. It
    always returns. With an empty stack it returns the accumulated proof;
    when the top step's [resolve] yields a new partial proof the step is
    popped and the loop goes on with the new proof; when it yields nothing
    the step stays on the stack (the engine is returned as it was) and
    [resolve] returns none; and a returned proof leaves the stack empty. *)
Theorem resolve_pops_accepting_steps :
  forall b pr,
    (exists r, resolve b pr = Some r) /\
    (has_proof_steps (m_curr_state b) = false ->
       resolve b pr = Some (Some pr, b)) /\
    (forall s new_pr,
       top_proof_step (m_curr_state b) = Some s ->
       step_resolve s (m_curr_state b) pr = Some new_pr ->
       resolve b pr =
       resolve (set_curr_state (pop_proof_step (m_curr_state b)) b) new_pr) /\
    (forall s,
       top_proof_step (m_curr_state b) = Some s ->
       step_resolve s (m_curr_state b) pr = None ->
       resolve b pr = Some (None, b)) /\
    (forall p b',
       resolve b pr = Some (Some p, b') ->
       has_proof_steps (m_curr_state b') = false).
Proof.
  intros b pr. repeat split.
  - apply resolve_loop_enough. lia.
  - intros H. apply resolve_loop_no_steps. exact H.
  - intros s new_pr Htop Hres. unfold Driver.resolve.
    unfold top_proof_step in Htop.
    destruct (m_proof_steps (m_curr_state b)) as [|s' rest] eqn:Hst; [discriminate|].
    simpl in Htop. injection Htop as ->.
    simpl. unfold has_proof_steps, top_proof_step. rewrite Hst. simpl.
    rewrite Hres. reflexivity.
  - intros s Htop Hres. unfold Driver.resolve.
    unfold top_proof_step in Htop.
    destruct (m_proof_steps (m_curr_state b)) as [|s' rest] eqn:Hst; [discriminate|].
    simpl in Htop. injection Htop as ->.
    simpl. unfold has_proof_steps, top_proof_step. rewrite Hst. simpl.
    rewrite Hres. reflexivity.
  - intros p b'. apply resolve_loop_final.
Qed.

(** C1. [search] performs iterative deepening. It starts the loop at
    [m_init_depth] with the current state saved. At depth [d] within
    [m_max_depth], a proof found by [search_upto d] is returned; when
    [search_upto d] fails, the loop goes on from the saved state, with no
    choice point, at depth [d + m_inc_depth]; beyond [m_max_depth] the loop
    returns none. Hence when every iteration fails, up to the first depth
    that exceeds [m_max_depth], [search] returns none, and so does the
    engine: a negative result, no exception. *)
Theorem search_iterative_deepening :
  forall b,
    (forall fuel,
       search fuel b = search_loop fuel (m_curr_state b) (m_init_depth b) b) /\
    (forall s d b0 pr b1,
       d <= m_max_depth b0 ->
       upto_returns d b0 (Some pr, b1) -> loop_returns s d b0 (Some pr, b1)) /\
    (forall s d b0 b1 r,
       d <= m_max_depth b0 ->
       upto_returns d b0 (None, b1) ->
       (loop_returns s d b0 r <->
        loop_returns s (wrap32 (d + m_inc_depth b0)) (reset_env s b0) r)) /\
    (forall s d b0, m_max_depth b0 < d -> loop_returns s d b0 (None, b0)) /\
    (forall n,
       (forall k, (k < n)%nat ->
          depth_at b k <= m_max_depth b /\
          exists b1, upto_returns (depth_at b k) (env_at b k) (None, b1)) ->
       m_max_depth b < depth_at b n ->
       search_returns b (None, env_at b n) /\
       exists fuel, forall ext_fuel, run fuel ext_fuel b = Some None).
Proof.
  intros b. split; [reflexivity|]. split; [|split; [|split]].
  - intros s d b0 pr b1. apply loop_returns_found.
  - intros s d b0 b1 r. apply loop_returns_failed.
  - intros s d b0. apply loop_returns_beyond.
  - intros n Hfail Hend.
    assert (Hret : search_returns b (None, env_at b n)).
    { apply (loop_returns_all_failed n (m_curr_state b) (m_init_depth b) b);
        assumption. }
    split; [exact Hret|].
    destruct Hret as [fuel Hfuel]. exists fuel. intros ext_fuel.
    unfold Entry.run. rewrite Hfuel. reflexivity.
Qed.

(** *** Counting the rounds of [search] *)

(** The loop of [search] with a counter of its rounds, that is of its
    calls of [search_upto]: the same loop, which returns the count beside
    its result. *)
Fixpoint search_loop_rounds (fuel : nat) (s : state) (d : Z) (b : blastenv)
    : option (nat * (option expr * blastenv)) :=
  match fuel with
  | O => None
  | S fuel' =>
      if d <=? m_max_depth b then
        match search_upto fuel' d b with
        | None => None
        | Some (Some r, b1) => Some (1%nat, (Some r, b1))
        | Some (None, b1) =>
            match search_loop_rounds fuel' s (wrap32 (d + m_inc_depth b1))
                    (set_choice_points [] (set_curr_state s b1)) with
            | Some (n, r) => Some (S n, r)
            | None => None
            end
        end
      else Some (0%nat, (None, b))
  end.

Definition search_rounds (fuel : nat) (b : blastenv)
    : option (nat * (option expr * blastenv)) :=
  search_loop_rounds fuel (m_curr_state b) (m_init_depth b) b.

(** The counter only counts: without it, the loop is the loop of
    [search]. *)
Lemma search_loop_rounds_erase fuel :
  forall s d b, search_loop fuel s d b = snd <$> search_loop_rounds fuel s d b.
Proof.
  induction fuel as [|fuel IH]; intros s d b; simpl; [reflexivity|].
  destruct (d <=? m_max_depth b); [|reflexivity].
  destruct (search_upto fuel d b) as [[[pr|] b1]|]; try reflexivity.
  rewrite IH.
  destruct (search_loop_rounds fuel s _ _) as [[n r]|]; reflexivity.
Qed.

Lemma iterations_step inc max d :
  1 <= inc -> d <= max ->
  iterations inc max d = S (iterations inc max (d + inc)).
Proof.
  intros Hinc Hd. unfold iterations.
  replace (max - d) with ((max - (d + inc)) + 1 * inc) by lia.
  rewrite Z.div_add by lia.
  assert (H0 : 0 <= (max - (d + inc) + 1 * inc) / inc)
    by (apply Z.div_pos; lia).
  rewrite Z.div_add in H0 by lia. lia.
Qed.

(** Without wrap-around, the rounds from depth [d] are at most
    [iterations]. *)
Lemma search_loop_rounds_bound inc max fuel :
  1 <= inc -> max + inc <= UINT_MAX ->
  forall s d b n r,
    0 <= d ->
    m_inc_depth b = inc -> m_max_depth b = max ->
    search_loop_rounds fuel s d b = Some (n, r) ->
    (n <= iterations inc max d)%nat.
Proof.
  intros Hinc Hmax.
  induction fuel as [|fuel IH]; intros s d b n r Hd Hi Hm; simpl; [discriminate|].
  rewrite Hm. destruct (Z.leb_spec d max) as [Hle|Hgt].
  - rewrite (iterations_step inc max d Hinc Hle).
    destruct (search_upto fuel d b) as [[[pr|] b1]|] eqn:Hup; try discriminate.
    + intros [= <- <-]. lia.
    + pose proof (search_upto_same_options _ _ _ _ _ Hup) as (Hm1 & _ & Hi1).
      destruct (search_loop_rounds fuel s _ _) as [[n' r']|] eqn:Hrec;
        [|discriminate].
      intros [= <- <-].
      rewrite Hi1, Hi, wrap32_small in Hrec by lia.
      apply IH in Hrec; [lia | lia | |].
      * simpl. congruence.
      * simpl. congruence.
  - intros [= <- <-]. lia.
Qed.


End Facts.

(** *** An engine none of whose actions applies *)

Definition no_intros (s : state) : bool * state := (false, s).
Definition no_activation (s : state) : option nat * state := (None, s).
Definition no_assumption (s : state) : option expr * state := (None, s).
Definition no_resolve (_ : proof_step) (_ : state) (_ : expr) : option expr := None.

Local Abbreviation idle_body :=
  (search_upto_body no_intros no_activation no_assumption no_resolve).
Local Abbreviation idle_upto :=
  (search_upto no_intros no_activation no_assumption no_resolve).
Local Abbreviation idle_loop :=
  (search_loop no_intros no_activation no_assumption no_resolve).
Local Abbreviation idle_search :=
  (search no_intros no_activation no_assumption no_resolve).

(** The engine under the default options, on an empty goal state. *)
Definition default_env : blastenv :=
  mk_blastenv empty_state []
    LEAN_DEFAULT_BLAST_MAX_DEPTH LEAN_DEFAULT_BLAST_INIT_DEPTH
    LEAN_DEFAULT_BLAST_INC_DEPTH.

(** [blast.max_depth] set to the largest [unsigned], steps of one. *)
Definition uint_max_env : blastenv := mk_blastenv empty_state [] UINT_MAX 0 1.

Lemma idle_body_cases d b :
  (exists b', idle_body d b = Some (Return None b')) \/
  (exists b', idle_body d b = Some (Again b') /\
              (length (m_choice_points b') < length (m_choice_points b))%nat).
Proof.
  unfold Driver.search_upto_body, Driver.next_action, no_intros, no_activation,
    no_assumption, next_choice_point.
  destruct (get_proof_depth (m_curr_state b) >? d).
  - destruct (m_choice_points b) as [|s1 cps] eqn:Hcps; [left; eauto|].
    simpl. destruct cps as [|s2 cps]; [left; eauto|].
    right. eexists. split; [reflexivity|]. simpl. lia.
  - simpl. destruct (m_choice_points b) as [|s1 cps] eqn:Hcps; [left; eauto|].
    right. eexists. split; [reflexivity|]. simpl. lia.
Qed.

Lemma idle_upto_fails_within n :
  forall d b,
    (length (m_choice_points b) < n)%nat ->
    exists b', idle_upto n d b = Some (None, b').
Proof.
  induction n as [|n IH]; intros d b Hlen; [lia|]. simpl.
  destruct (idle_body_cases d b) as [[b' ->] | [b' [-> Hlt]]]; [eauto|].
  apply IH. lia.
Qed.

Lemma idle_upto_returns d b :
  exists r, upto_returns no_intros no_activation no_assumption no_resolve d b r.
Proof.
  destruct (idle_upto_fails_within (S (length (m_choice_points b))) d b ltac:(lia))
    as [b' Hb'].
  exists (None, b'), (S (length (m_choice_points b))). exact Hb'.
Qed.

Lemma idle_upto_never_proves n :
  forall d b r b', idle_upto n d b = Some (r, b') -> r = None.
Proof.
  induction n as [|n IH]; intros d b r b'; simpl; [discriminate|].
  destruct (idle_body_cases d b) as [[b1 ->] | [b1 [-> _]]].
  - intros [= <- <-]. reflexivity.
  - apply IH.
Qed.

(** The loop of [search] never returns while the depth stays within
    [m_max_depth]. *)
Lemma idle_loop_diverges fuel :
  forall s d b,
    (forall k, depth_from (m_inc_depth b) d k <= m_max_depth b) ->
    idle_loop fuel s d b = None.
Proof.
  induction fuel as [|fuel IH]; intros s d b Hbelow; simpl; [reflexivity|].
  pose proof (Hbelow 0%nat) as Hd. simpl in Hd.
  destruct (Z.leb_spec d (m_max_depth b)); [|lia].
  destruct (idle_upto fuel d b) as [[r b1]|] eqn:Hup; [|reflexivity].
  pose proof (idle_upto_never_proves _ _ _ _ _ Hup) as ->.
  pose proof (search_upto_same_options _ _ _ _ _ _ _ _ _ Hup) as (Hm & _ & Hi).
  apply IH. simpl. rewrite Hm, Hi. intros k. apply (Hbelow (S k)).
Qed.

(** With [m_inc_depth = 0] the depth never advances: [search] does not
    return when the first depth is within [m_max_depth] and no iteration
    finds a proof. *)
Lemma search_diverges_zero_inc b :
  m_inc_depth b = 0 ->
  0 <= m_init_depth b <= m_max_depth b ->
  m_init_depth b <= UINT_MAX ->
  forall fuel, idle_search fuel b = None.
Proof.
  intros Hinc Hinit Hu fuel. unfold Driver.search.
  apply idle_loop_diverges. rewrite Hinc.
  intros k. induction k as [|k IHk]; simpl; [lia|].
  rewrite wrap32_small by lia.
  replace (m_init_depth b + 0) with (m_init_depth b) by lia. exact IHk.
Qed.

(** [blast.inc_depth] set to [0], the other options left to their
    defaults. *)
Definition zero_inc_env : blastenv :=
  set_options (get_unsigned None LEAN_DEFAULT_BLAST_MAX_DEPTH)
              (get_unsigned None LEAN_DEFAULT_BLAST_INIT_DEPTH)
              (get_unsigned (Some 0) LEAN_DEFAULT_BLAST_INC_DEPTH)
              default_env.

Example search_diverges_inc_depth_0 :
  forall fuel, idle_search fuel zero_inc_env = None.
Proof.
  apply search_diverges_zero_inc; [reflexivity | |];
    simpl; unfold LEAN_DEFAULT_BLAST_INIT_DEPTH, LEAN_DEFAULT_BLAST_MAX_DEPTH,
             UINT_MAX; lia.
Qed.



(** C1 at the default options: the 26 iterations at depths 1, 6, ..., 126
    fail, 131 exceeds 128, and [search] returns none. *)
Lemma search_default_env_returns_none :
  search_returns no_intros no_activation no_assumption no_resolve
    default_env (None, env_at default_env 26) /\
  exists fuel,
    forall ext_fuel,
      Entry.run no_intros no_activation no_assumption no_resolve fuel ext_fuel
        default_env = Some None.
Proof.
  apply (proj2 (proj2 (proj2 (proj2
           (search_iterative_deepening
              no_intros no_activation no_assumption no_resolve default_env))))).
  - intros k Hk. split.
    + apply (proj2 (iterations_spec 5 128 1 ltac:(lia) ltac:(lia)
                      ltac:(unfold UINT_MAX; lia))).
      exact Hk.
    + destruct (idle_upto_fails_within
                  (S (length (m_choice_points (env_at default_env k))))
                  (depth_at default_env k) (env_at default_env k) ltac:(lia))
        as [b1 Hb1].
      exists b1. eexists. exact Hb1.
  - vm_compute. reflexivity.
Defined.

(** The same run, executed. *)
Example search_default_env_run :
  idle_search 30 default_env = Some (None, reset_env empty_state default_env).
Proof. vm_compute. reflexivity. Qed.

(** An engine whose assumption action closes the goal by hypothesis 0. *)
Definition assumption_h0 (s : state) : option expr * state := (Some (Href 0), s).

Example search_finds_at_init_depth :
  search no_intros no_activation assumption_h0 no_resolve 2 default_env
  = Some (Some (Href 0), default_env).
Proof. vm_compute. reflexivity. Qed.

(** A resolver for the examples: the step of cell [0] needs more subgoals,
    any other step abstracts the proof over one hypothesis. *)
Definition abstracting_resolve (ps : proof_step) (_ : state) (pr : expr)
    : option expr :=
  match ps_cell ps with
  | O => None
  | S _ => Some (Lam (ext_name "h") (Sort LZero) pr bi_default)
  end.

Definition two_steps_env : blastenv :=
  mk_blastenv (set_proof_steps [mk_proof_step 1; mk_proof_step 0] empty_state)
              [] 128 1 5.

(** C7 on a stack of two steps: the top step accepts and is popped, the
    next one does not and stays. *)
Lemma resolve_two_steps :
  top_proof_step (m_curr_state two_steps_env) = Some (mk_proof_step 1) /\
  resolve abstracting_resolve two_steps_env (Href 0)
  = resolve abstracting_resolve
      (set_curr_state (pop_proof_step (m_curr_state two_steps_env)) two_steps_env)
      (Lam (ext_name "h") (Sort LZero) (Href 0) bi_default) /\
  resolve abstracting_resolve
      (set_curr_state (pop_proof_step (m_curr_state two_steps_env)) two_steps_env)
      (Lam (ext_name "h") (Sort LZero) (Href 0) bi_default)
  = Some (None,
          set_curr_state (pop_proof_step (m_curr_state two_steps_env)) two_steps_env).
Proof.
  split; [reflexivity|]. split.
  - apply (proj1 (proj2 (proj2
             (resolve_pops_accepting_steps abstracting_resolve two_steps_env (Href 0))))
             (mk_proof_step 1)); reflexivity.
  - apply (proj1 (proj2 (proj2 (proj2
             (resolve_pops_accepting_steps abstracting_resolve
                (set_curr_state (pop_proof_step (m_curr_state two_steps_env))
                   two_steps_env)
                (Lam (ext_name "h") (Sort LZero) (Href 0) bi_default)))))
             (mk_proof_step 0)); reflexivity.
Defined.

End DriverFacts.

(** ** The type-context facade: snapshots and assignment validation *)

Module TctxFacts.
Import Term State Engine Tctx.

(** *** Snapshots *)

Lemma shrink_app {A : Type} (new old : list A) :
  shrink (length old) (new ++ old) = old.
Proof.
  unfold shrink. rewrite length_app.
  replace (length new + length old - length old)%nat with (length new) by lia.
  apply drop_app_length.
Qed.

(** [t'] is [t] with more recent bindings added to the assignment maps,
    and nothing else changed. *)
Definition extends (t t' : tctx) : Prop :=
  exists nu ne,
    t' = with_curr_state
           (set_assignments (nu ++ m_uassignment (curr_state t))
                            (ne ++ m_eassignment (curr_state t))
                            (curr_state t)) t.

Lemma extends_refl t : extends t t.
Proof. exists [], []. destruct t as [[[] ? ? ? ?] ?]. reflexivity. Qed.

Lemma extends_trans t1 t2 t3 : extends t1 t2 -> extends t2 t3 -> extends t1 t3.
Proof.
  intros (nu & ne & ->) (nu' & ne' & ->).
  exists (nu' ++ nu), (ne' ++ ne).
  destruct t1 as [[[] ? ? ? ?] ?]. cbn. rewrite !app_assoc. reflexivity.
Qed.

Lemma run_update_extends u t t' : run_update u t = Some t' -> extends t t'.
Proof.
  destruct u as [u v | m v]; simpl.
  - unfold update_assignment_level. destruct (uref_index u) as [i|]; [|discriminate].
    intros [= <-]. exists [(i, v)], []. destruct t as [[[] ? ? ? ?] ?]. reflexivity.
  - unfold update_assignment. destruct (mref_index m) as [i|]; [|discriminate].
    intros [= <-]. exists [], [(i, v)]. destruct t as [[[] ? ? ? ?] ?]. reflexivity.
Qed.

Lemma run_updates_extends us :
  forall t t', run_updates us t = Some t' -> extends t t'.
Proof.
  induction us as [|u us IH]; intros t t'; simpl.
  - intros [= <-]. apply extends_refl.
  - destruct (run_update u t) as [t1|] eqn:Hu; [|discriminate].
    intros H. eapply extends_trans; [eapply run_update_extends; eassumption|].
    apply IH. exact H.
Qed.

Lemma pop_extends_push t t' : extends (push t) t' -> pop t' = Some t.
Proof.
  intros (nu & ne & ->).
  destruct t as [[[hs ds us es tg ps] cps mx ini inc] st].
  unfold pop, push, with_curr_state, curr_state, restore_assignment, save_assignment,
    set_assignments, set_curr_state. cbn [m_benv m_stack m_curr_state m_uassignment
    m_eassignment snap_usize snap_esize m_hyp_decls m_metavar_decls m_target
    m_proof_steps m_choice_points m_max_depth m_init_depth m_inc_depth].
  rewrite !shrink_app. reflexivity.
Qed.

Lemma run_updates_assigns :
  forall us t t' m v,
    run_updates us t = Some t' ->
    In (upd_expr m v) us ->
    is_Some (get_assignment t' m).
Proof.
  assert (Hkeep : forall us t t' m,
            run_updates us t = Some t' ->
            is_Some (get_assignment t m) -> is_Some (get_assignment t' m)).
  { induction us as [|u us IH]; intros t t' m; simpl.
    - intros [= <-]. auto.
    - destruct (run_update u t) as [t1|] eqn:Hu; [|discriminate].
      intros H Hm. apply (IH _ _ _ H). clear IH H.
      destruct u as [u v | m0 v]; simpl in Hu.
      + unfold update_assignment_level in Hu.
        destruct (uref_index u); [|discriminate]. injection Hu as <-.
        destruct t as [[[] ? ? ? ?] ?]. exact Hm.
      + unfold update_assignment in Hu.
        destruct (mref_index m0) as [i|]; [|discriminate]. injection Hu as <-.
        destruct t as [[[] ? ? ? ?] ?]. revert Hm. unfold get_assignment,
          get_mref_assignment. cbn. destruct (mref_index m) as [j|]; [|auto].
        cbn. destruct (bool_decide (j = i)); eauto. }
  induction us as [|u us IH]; intros t t' m v; simpl; [tauto|].
  destruct (run_update u t) as [t1|] eqn:Hu; [|discriminate].
  intros H [-> | Hin]; [|eapply IH; eassumption].
  apply (Hkeep _ _ _ _ H). simpl in Hu. unfold update_assignment in Hu.
  destruct (mref_index m) as [i|] eqn:Hm; [|discriminate]. injection Hu as <-.
  destruct t as [[[] ? ? ? ?] ?]. unfold get_assignment, get_mref_assignment.
  rewrite Hm. cbn. rewrite bool_decide_eq_true_2 by reflexivity. eauto.
Qed.

(** C8. Snapshots round-trip and nest. [pop] right after [push] gives back
    the facade as it was; so does [pop] after [push] and any assignments,
    and then the metavariables assigned in between, unassigned when the
    snapshot was taken, are unassigned again; and two nested scopes, with
    assignments anywhere inside, give back the facade as it was before the
    outer [push]. *)
Theorem snapshots_roundtrip_and_nest :
  forall t,
    pop (push t) = Some t /\
    (forall us t1,
       run_updates us (push t) = Some t1 ->
       pop t1 = Some t /\
       (forall m v,
          In (upd_expr m v) us ->
          get_assignment t m = None ->
          is_Some (get_assignment t1 m) /\
          forall t2, pop t1 = Some t2 -> get_assignment t2 m = None)) /\
    (forall p, pop (push (push t)) = Some p -> pop p = Some t) /\
    (forall us1 us2 us3 t1 t2 t2' t3,
       run_updates us1 (push t) = Some t1 ->
       run_updates us2 (push t1) = Some t2 ->
       pop t2 = Some t2' ->
       run_updates us3 t2' = Some t3 ->
       t2' = t1 /\ pop t3 = Some t).
Proof.
  intros t. split; [|split; [|split]].
  - apply pop_extends_push, extends_refl.
  - intros us t1 Hrun.
    assert (Hpop : pop t1 = Some t).
    { apply pop_extends_push. eapply run_updates_extends. exact Hrun. }
    split; [exact Hpop|].
    intros m v Hin Hnone. split.
    + eapply run_updates_assigns; eassumption.
    + intros t2 Ht2. rewrite Hpop in Ht2. injection Ht2 as <-. exact Hnone.
  - intros p Hp.
    rewrite (pop_extends_push (push t) (push (push t)) (extends_refl _)) in Hp.
    injection Hp as <-. apply pop_extends_push, extends_refl.
  - intros us1 us2 us3 t1 t2 t2' t3 H1 H2 Hp H3.
    rewrite (pop_extends_push t1 t2 (run_updates_extends _ _ _ H2)) in Hp.
    injection Hp as <-. split; [reflexivity|].
    apply pop_extends_push.
    eapply extends_trans; eapply run_updates_extends; eassumption.
Qed.

(** *** Assignment validation *)

(** [x] occurs in [v]: it is [v] or occurs in a child of [v]. *)
Inductive occurs_in (x : expr) : expr -> Prop :=
| occ_here : occurs_in x x
| occ_meta n ty : occurs_in x ty -> occurs_in x (Meta n ty)
| occ_local n pp ty : occurs_in x ty -> occurs_in x (Local n pp ty)
| occ_app_fn f a : occurs_in x f -> occurs_in x (App f a)
| occ_app_arg f a : occurs_in x a -> occurs_in x (App f a)
| occ_lam_dom n d b bi : occurs_in x d -> occurs_in x (Lam n d b bi)
| occ_lam_body n d b bi : occurs_in x b -> occurs_in x (Lam n d b bi)
| occ_pi_dom n d b bi : occurs_in x d -> occurs_in x (Pi n d b bi)
| occ_pi_body n d b bi : occurs_in x b -> occurs_in x (Pi n d b bi)
| occ_macro def args a : In a args -> occurs_in x a -> occurs_in x (Macro def args).

(** An external local constant: a local constant that is neither an [href]
    nor temporary. *)
Definition is_external_local (e : expr) : bool :=
  is_local e && negb (is_href e) && negb (is_tmp_local e).

(** [l] is in [locals]: some element of [locals] has its name. *)
Definition in_locals (locals : list expr) (l : expr) : Prop :=
  exists a, In a locals /\ mlocal_name a = mlocal_name l.

(** The three breaches that make [validate_assignment] answer [false]. *)
Definition breach (d : metavar_decl) (m : expr) (locals : list expr) (e : expr) : Prop :=
  (exists i, e = Href i /\ i ∉ md_context d) \/
  (is_external_local e = true /\ ~ in_locals locals e) \/
  e = m.

(** The declaration of a metavariable after its context was narrowed
    to [C]. *)
Definition narrow (C : gset nat) (d' : metavar_decl) : metavar_decl :=
  mk_metavar_decl (md_context d' ∩ C) (md_type d').

(** [s] is [s0] with the declarations of the metavariables in [M]
    narrowed to [C]. *)
Definition narrowed_from (s0 : state) (C : gset nat) (M : gset nat) (s : state) : Prop :=
  s = set_metavar_decls (m_metavar_decls s) s0 /\
  forall i,
    m_metavar_decls s !! i =
    if decide (i ∈ M) then narrow C <$> (m_metavar_decls s0 !! i)
    else m_metavar_decls s0 !! i.

Definition children (e : expr) : list expr :=
  match e with
  | Meta _ ty | Local _ _ ty => [ty]
  | App f a => [f; a]
  | Lam _ d b _ | Pi _ d b _ => [d; b]
  | Macro _ args => args
  | Var _ | Sort _ | Const _ _ | Href _ | Mref _ => []
  end.

Lemma for_each_children {S : Type} (f : expr -> S -> bool * S) e acc :
  for_each f e acc =
  let '(descend, acc1) := f e acc in
  if descend then fold_left (fun acc' a => for_each f a acc') (children e) acc1
  else acc1.
Proof. destruct e; simpl; destruct (f _ acc) as [[] acc1]; reflexivity. Qed.

Lemma occurs_in_children x v :
  occurs_in x v <-> x = v \/ exists a, In a (children v) /\ occurs_in x a.
Proof.
  split.
  - intros H. destruct H; simpl; eauto 6 using in_eq, in_cons.
  - intros [-> | (a & Hin & Ha)]; [constructor|].
    destruct v; simpl in Hin; try tauto;
      repeat match goal with
             | H : _ \/ _ |- _ => destruct H
             | H : False |- _ => destruct H
             end; subst; eauto using occurs_in.
Qed.

Lemma all_of_locals locals e :
  Forall (fun a => is_mlocal a = true) locals ->
  is_mlocal e = true ->
  exists b, all_of (fun a => mlocal_name_ne a e) locals = Some b /\
            (b = true <-> ~ in_locals locals e).
Proof.
  intros Hlocals He. unfold in_locals.
  assert (exists n, mlocal_name e = Some n) as [n Hn].
  { destruct e; try discriminate; simpl; eauto. }
  induction Hlocals as [|a l Ha Hl IH]; simpl.
  - exists true. split; [reflexivity|]. split; [|reflexivity].
    intros _ (a & [] & _).
  - assert (exists na, mlocal_name a = Some na) as [na Hna].
    { destruct a; try discriminate; simpl; eauto. }
    unfold mlocal_name_ne at 1. rewrite Hna, Hn.
    destruct (decide (na = n)) as [->|Hne].
    + rewrite bool_decide_eq_true_2 by reflexivity. simpl.
      exists false. split; [reflexivity|]. split; [discriminate|].
      intros H. exfalso. apply H. exists a. split; [left; reflexivity | congruence].
    + rewrite bool_decide_eq_false_2 by exact Hne. simpl.
      destruct IH as (b & -> & Hb). exists b. split; [reflexivity|].
      rewrite Hb. split.
      * intros H (a' & [<- | Hin] & Heq); [congruence|].
        apply H. exists a'. split; [exact Hin | congruence].
      * intros H (a' & Hin & Heq).
        apply H. exists a'. split; [right; exact Hin | congruence].
Qed.

Section Validate.

Variable s0 : state.
Variable im : nat.
Variable d : metavar_decl.
Variable locals : list expr.

Hypothesis Hd : m_metavar_decls s0 !! im = Some d.
Hypothesis Hlocals : Forall (fun a => is_mlocal a = true) locals.

Local Abbreviation m := (Mref im).
Local Abbreviation C := (md_context d).
Local Abbreviation visitor := (validate_visitor d (Mref im) locals).

Lemma narrowed_from_decl_m M s :
  narrowed_from s0 C M s -> im ∉ M -> get_metavar_decl s m = Some d.
Proof.
  intros [_ Hs] Him. unfold get_metavar_decl. simpl.
  rewrite Hs. rewrite decide_False by exact Him. exact Hd.
Qed.

Lemma restrict_narrows M s i :
  narrowed_from s0 C M s -> im ∉ M -> i <> im ->
  is_Some (m_metavar_decls s0 !! i) ->
  exists fl s',
    restrict_mref_context_using (Mref i) m s = Some (fl, s') /\
    narrowed_from s0 C (M ∪ {[ i ]}) s'.
Proof.
  intros Hs Him Hne [di Hdi].
  unfold restrict_mref_context_using.
  rewrite (narrowed_from_decl_m M s Hs Him).
  destruct Hs as [Heq Hs].
  unfold get_metavar_decl. cbn [mref_index].
  assert (exists d', m_metavar_decls s !! i = Some d' /\ narrow C d' = narrow C di)
    as (d' & Hd' & Hnar).
  { rewrite Hs. destruct (decide (i ∈ M)); rewrite Hdi; simpl.
    - eexists. split; [reflexivity|]. unfold narrow. simpl. f_equal. set_solver.
    - eauto. }
  rewrite Hd'. eexists _, _. split; [reflexivity|].
  split.
  - rewrite Heq at 2. destruct s0; reflexivity.
  - intros j. cbn [m_metavar_decls set_metavar_decls].
    destruct (decide (j = i)) as [->|Hji].
    + rewrite lookup_insert_eq. rewrite decide_True by set_solver.
      rewrite Hdi. simpl. f_equal. exact Hnar.
    + rewrite lookup_insert_ne by congruence. rewrite Hs.
      destruct (decide (j ∈ M)); [rewrite decide_True by set_solver; reflexivity|].
      rewrite decide_False by set_solver. reflexivity.
Qed.

(** What a traversal of the terms [vs] from the state [s], in which the
    metavariables of [M] are already narrowed, must give. *)
Definition scan_spec (vs : list expr) (M : gset nat)
    (res : option (bool * state)) : Prop :=
  exists ok s' M',
    res = Some (ok, s') /\
    narrowed_from s0 C M' s' /\ (im ∉ M') /\
    (ok = true ->
       (forall i, i ∈ M' <-> i ∈ M \/ exists a, In a vs /\ occurs_in (Mref i) a) /\
       (forall e a, In a vs -> occurs_in e a -> ~ breach d m locals e)) /\
    (ok = false -> exists e a, In a vs /\ occurs_in e a /\ breach d m locals e).

Definition scan_ok (v : expr) : Prop :=
  forall s M,
    narrowed_from s0 C M s -> im ∉ M ->
    (forall i, occurs_in (Mref i) v -> is_Some (m_metavar_decls s0 !! i)) ->
    scan_spec [v] M (for_each visitor v (Some (true, s))).

Lemma for_each_failed e s :
  for_each visitor e (Some (false, s)) = Some (false, s).
Proof. rewrite for_each_children. reflexivity. Qed.

Lemma fold_failed vs s :
  fold_left (fun acc a => for_each visitor a acc) vs (Some (false, s))
  = Some (false, s).
Proof.
  induction vs as [|v vs IH]; simpl; [reflexivity|].
  rewrite for_each_failed. exact IH.
Qed.

Lemma scan_children vs :
  Forall scan_ok vs ->
  forall s M,
    narrowed_from s0 C M s -> im ∉ M ->
    (forall i a, In a vs -> occurs_in (Mref i) a ->
       is_Some (m_metavar_decls s0 !! i)) ->
    scan_spec vs M
      (fold_left (fun acc a => for_each visitor a acc) vs (Some (true, s))).
Proof.
  induction 1 as [|v vs Hv Hvs IH]; intros s M Hs Him Hdecl; simpl.
  - exists true, s, M. split; [reflexivity|]. split; [exact Hs|].
    split; [exact Him|]. split; [|discriminate].
    intros _. split.
    + intros i. split; [intros Hi; left; exact Hi|].
      intros [Hi | (a & [] & _)]. exact Hi.
    + intros e a [].
  - destruct (Hv s M Hs Him) as (ok1 & s1 & M1 & -> & Hs1 & Him1 & Ht & Hf).
    { intros i Hi. apply (Hdecl i v); [left; reflexivity | exact Hi]. }
    destruct ok1.
    + destruct (Ht eq_refl) as [HM1 Hnb1].
      destruct (IH s1 M1 Hs1 Him1) as (ok & s' & M' & -> & Hs' & Him' & Ht' & Hf').
      { intros i a Ha. apply Hdecl. right. exact Ha. }
      exists ok, s', M'. split; [reflexivity|]. split; [exact Hs'|].
      split; [exact Him'|]. split.
      * intros Hok. destruct (Ht' Hok) as [HM' Hnb']. split.
        -- intros i. rewrite HM', HM1. split.
           ++ intros [[Hi | (a & [<- | []] & Ha)] | (a & Ha & Hocc)];
                eauto 6 using in_eq, in_cons.
           ++ intros [Hi | (a & [<- | Ha] & Hocc)]; eauto 6 using in_eq, in_cons.
        -- intros e a [<- | Ha] Hocc.
           ++ apply (Hnb1 e v); [left; reflexivity | exact Hocc].
           ++ apply (Hnb' e a Ha Hocc).
      * intros Hok. destruct (Hf' Hok) as (e & a & Ha & Hocc & Hb).
        exists e, a. split; [right; exact Ha | split; assumption].
    + rewrite fold_failed.
      exists false, s1, M1. split; [reflexivity|]. split; [exact Hs1|].
      split; [exact Him1|]. split; [discriminate|].
      intros _. destruct (Hf eq_refl) as (e & a & [<- | []] & Hocc & Hb).
      exists e, v. split; [left; reflexivity | split; assumption].
Qed.

(** A node at which the visitor asks for the children. *)
Lemma scan_descend v :
  (forall s, visitor v (Some (true, s)) = (true, Some (true, s))) ->
  ~ breach d m locals v ->
  is_mref v = false ->
  Forall scan_ok (children v) ->
  scan_ok v.
Proof.
  intros Hvis Hnb Hnm Hch s M Hs Him Hdecl.
  rewrite for_each_children, Hvis.
  destruct (scan_children (children v) Hch s M Hs Him)
    as (ok & s' & M' & Hres & Hs' & Him' & Ht & Hf).
  { intros i a Ha Hocc. apply Hdecl. apply occurs_in_children. right. eauto. }
  exists ok, s', M'. split; [exact Hres|]. split; [exact Hs'|]. split; [exact Him'|].
  split.
  - intros Hok. destruct (Ht Hok) as [HM' Hnb']. split.
    + intros i. rewrite HM'. split.
      * intros [Hi | (a & Ha & Hocc)]; [left; exact Hi | right].
        exists v. split; [left; reflexivity|].
        apply occurs_in_children. right. eauto.
      * intros [Hi | (a & [<- | []] & Hocc)]; [left; exact Hi | right].
        apply occurs_in_children in Hocc.
        destruct Hocc as [<- | Hocc]; [discriminate | exact Hocc].
    + intros e a [<- | []] Hocc. apply occurs_in_children in Hocc.
      destruct Hocc as [-> | (c & Hc & Hocc)]; [exact Hnb | eapply Hnb'; eassumption].
  - intros Hok. destruct (Hf Hok) as (e & a & Ha & Hocc & Hb).
    exists e, v. split; [left; reflexivity|]. split; [|exact Hb].
    apply occurs_in_children. right. eauto.
Qed.

Lemma scan_all v : scan_ok v.
Proof.
  induction v as [i | l | n ls | n ty IH | n pp ty IH | i | i
                  | f a IHf IHa | n dm b bi IHd IHb | n dm b bi IHd IHb
                  | def args IH] using expr_ind'.
  - apply scan_descend; [reflexivity | | reflexivity | constructor].
    intros [(j & [=] & _) | [[[=] _] | [=]]].
  - apply scan_descend; [reflexivity | | reflexivity | constructor].
    intros [(j & [=] & _) | [[[=] _] | [=]]].
  - apply scan_descend; [reflexivity | | reflexivity | constructor].
    intros [(j & [=] & _) | [[[=] _] | [=]]].
  - apply scan_descend; [reflexivity | | reflexivity | repeat constructor; exact IH].
    intros [(j & [=] & _) | [[[=] _] | [=]]].
  - (* a local constant *)
    destruct (is_tmp_local (Local n pp ty)) eqn:Htmp.
    + apply scan_descend; [| | reflexivity | repeat constructor; exact IH].
      * intros s. unfold validate_visitor. cbn [negb is_href is_local is_mref andb].
        rewrite Htmp. reflexivity.
      * intros [(j & [=] & _) | [[Hext _] | [=]]].
        unfold is_external_local in Hext. rewrite Htmp in Hext.
        rewrite andb_false_r in Hext. discriminate.
    + destruct (all_of_locals locals (Local n pp ty) Hlocals eq_refl)
        as (bl & Hall & Hbl).
      destruct bl.
      * (* failed 3 *)
        intros s M Hs Him Hdecl. rewrite for_each_children.
        unfold validate_visitor. cbn [negb is_href is_local is_mref andb].
        rewrite Htmp. cbn [negb]. rewrite Hall.
        exists false, s, M. split; [reflexivity|]. split; [exact Hs|].
        split; [exact Him|]. split; [discriminate|].
        intros _. exists (Local n pp ty), (Local n pp ty).
        split; [left; reflexivity|]. split; [constructor|].
        right. left. split; [|apply Hbl; reflexivity].
        unfold is_external_local. rewrite Htmp. reflexivity.
      * apply scan_descend; [| | reflexivity | repeat constructor; exact IH].
        -- intros s. unfold validate_visitor. cbn [negb is_href is_local is_mref andb].
           rewrite Htmp. cbn [negb]. rewrite Hall. reflexivity.
        -- intros [(j & [=] & _) | [[_ Hnin] | [=]]].
           assert (false = true) by (apply Hbl; exact Hnin). discriminate.
  - (* an href *)
    destruct (decide (i ∈ C)) as [Hin | Hnin].
    + apply scan_descend; [| | reflexivity | constructor].
      * intros s. unfold validate_visitor, contains_href. cbn [negb is_href href_index].
        rewrite bool_decide_eq_true_2 by exact Hin. reflexivity.
      * intros [(j & [= <-] & Hj) | [[[=] _] | [=]]]. exact (Hj Hin).
    + intros s M Hs Him Hdecl. rewrite for_each_children.
      unfold validate_visitor, contains_href. cbn [negb is_href href_index].
      rewrite bool_decide_eq_false_2 by exact Hnin. cbn [negb].
      exists false, s, M. split; [reflexivity|]. split; [exact Hs|].
      split; [exact Him|]. split; [discriminate|].
      intros _. exists (Href i), (Href i).
      split; [left; reflexivity|]. split; [constructor|].
      left. eauto.
  - (* an mref *)
    intros s M Hs Him Hdecl. rewrite for_each_children.
    unfold validate_visitor. cbn [negb is_href is_local is_mref andb].
    destruct (decide (i = im)) as [-> | Hne].
    + (* failed 4 *)
      rewrite bool_decide_eq_true_2 by reflexivity.
      exists false, s, M. split; [reflexivity|]. split; [exact Hs|].
      split; [exact Him|]. split; [discriminate|].
      intros _. exists m, m.
      split; [left; reflexivity|]. split; [constructor|].
      right. right. reflexivity.
    + rewrite bool_decide_eq_false_2 by congruence.
      destruct (restrict_narrows M s i Hs Him Hne) as (fl & s' & -> & Hs').
      { apply Hdecl. constructor. }
      exists true, s', (M ∪ {[ i ]}). split; [reflexivity|].
      split; [exact Hs'|]. split; [set_solver|]. split; [|discriminate].
      intros _. split.
      * intros j. rewrite elem_of_union, elem_of_singleton. split.
        -- intros [Hj | ->]; [left; exact Hj | right].
           exists (Mref i). split; [left; reflexivity | constructor].
        -- intros [Hj | (a & [<- | []] & Hocc)]; [left; exact Hj | right].
           apply occurs_in_children in Hocc.
           destruct Hocc as [[= ->] | (c & [] & _)]. reflexivity.
      * intros e a [<- | []] Hocc. apply occurs_in_children in Hocc.
        destruct Hocc as [-> | (c & [] & _)].
        intros [(j & [=] & _) | [[[=] _] | [= ->]]]. congruence.
  - apply scan_descend; [reflexivity | | reflexivity | repeat constructor; assumption].
    intros [(j & [=] & _) | [[[=] _] | [=]]].
  - apply scan_descend; [reflexivity | | reflexivity | repeat constructor; assumption].
    intros [(j & [=] & _) | [[[=] _] | [=]]].
  - apply scan_descend; [reflexivity | | reflexivity | repeat constructor; assumption].
    intros [(j & [=] & _) | [[[=] _] | [=]]].
  - apply scan_descend; [reflexivity | | reflexivity | exact IH].
    intros [(j & [=] & _) | [[[=] _] | [=]]].
Qed.

End Validate.

(** C4. [validate_assignment(m, locals, v)], for a declared [m], local
    constants [locals] and a [v] whose metavariables are declared, answers
    [false] exactly when some [href] occurring in [v] is not in the context
    of [m], or some external (not temporary) local constant occurring in
    [v] is not in [locals], or [m] occurs in [v]. Another [mref] occurring
    in [v] is no cause of [false]: when the answer is [true], the context
    of each of them has been narrowed to its intersection with the context
    of [m], a subset of it. *)
Theorem validate_assignment_answer :
  forall t im d locals v,
    m_metavar_decls (curr_state t) !! im = Some d ->
    Forall (fun a => is_mlocal a = true) locals ->
    (forall i, occurs_in (Mref i) v ->
       is_Some (m_metavar_decls (curr_state t) !! i)) ->
    exists ok t',
      validate_assignment (Mref im) locals v t = Some (ok, t') /\
      (ok = false <->
         (exists i, occurs_in (Href i) v /\ i ∉ md_context d) \/
         (exists l, occurs_in l v /\ is_external_local l = true /\
                    ~ in_locals locals l) \/
         occurs_in (Mref im) v) /\
      (ok = true ->
         forall i, occurs_in (Mref i) v ->
           exists di,
             m_metavar_decls (curr_state t) !! i = Some di /\
             m_metavar_decls (curr_state t') !! i
             = Some (mk_metavar_decl (md_context di ∩ md_context d) (md_type di)) /\
             md_context di ∩ md_context d ⊆ md_context d).
Proof.
  intros t im d locals v Hd Hlocals Hdecl.
  unfold validate_assignment, get_metavar_decl. cbn [mref_index]. rewrite Hd.
  destruct (scan_all (curr_state t) im d locals Hd Hlocals v (curr_state t) ∅)
    as (ok & s' & M' & -> & [_ Hs'] & _ & Ht & Hf).
  { split; [destruct (curr_state t); reflexivity|]. intros i.
    rewrite decide_False by set_solver. reflexivity. }
  { set_solver. }
  { exact Hdecl. }
  exists ok, (with_curr_state s' t). split; [reflexivity|]. split.
  - split.
    + intros Hok. destruct (Hf Hok) as (e & a & [<- | []] & Hocc & Hb).
      destruct Hb as [(i & -> & Hi) | [[Hext Hnin] | ->]]; eauto 6.
    + intros Hb. destruct ok; [|reflexivity]. exfalso.
      destruct (Ht eq_refl) as [_ Hnb].
      destruct Hb as [(i & Hocc & Hi) | [(l & Hocc & Hext & Hnin) | Hocc]].
      * apply (Hnb (Href i) v); [left; reflexivity | exact Hocc |].
        left. eauto.
      * apply (Hnb l v); [left; reflexivity | exact Hocc |].
        right. left. auto.
      * apply (Hnb (Mref im) v); [left; reflexivity | exact Hocc |].
        right. right. reflexivity.
  - intros Hok i Hocc. destruct (Ht Hok) as [HM' _].
    destruct (Hdecl i Hocc) as [di Hdi]. exists di. split; [exact Hdi|]. split.
    + change (curr_state (with_curr_state s' t)) with s'.
      rewrite Hs'. rewrite decide_True.
      * rewrite Hdi. reflexivity.
      * apply HM'. right. exists v. split; [left; reflexivity | exact Hocc].
    + set_solver.
Qed.

(** Two metavariables: [?0] with context [{0}], [?1] with context [{0, 1}]. *)
Definition two_mvars_state : state :=
  set_metavar_decls
    (<[ 0%nat := mk_metavar_decl {[ 0%nat ]} (Sort LZero) ]>
       (<[ 1%nat := mk_metavar_decl {[ 0%nat; 1%nat ]} (Sort LZero) ]> ∅))
    empty_state.

Definition two_mvars_tctx : tctx :=
  mk_tctx (mk_blastenv two_mvars_state [] 128 1 5) [].

Definition decl_0 : metavar_decl := mk_metavar_decl {[ 0%nat ]} (Sort LZero).

(** C4 on [?0 := ?1 h0]: accepted, and the context of [?1] is narrowed. *)
Lemma validate_assignment_accepts :
  m_metavar_decls (curr_state two_mvars_tctx) !! 0%nat = Some decl_0 /\
  exists ok t',
    validate_assignment (Mref 0) [] (App (Mref 1) (Href 0)) two_mvars_tctx
    = Some (ok, t') /\
    (ok = false <->
       (exists i, occurs_in (Href i) (App (Mref 1) (Href 0)) /\
                  i ∉ md_context decl_0) \/
       (exists l, occurs_in l (App (Mref 1) (Href 0)) /\
                  is_external_local l = true /\ ~ in_locals [] l) \/
       occurs_in (Mref 0) (App (Mref 1) (Href 0))) /\
    (ok = true ->
       forall i, occurs_in (Mref i) (App (Mref 1) (Href 0)) ->
         exists di,
           m_metavar_decls (curr_state two_mvars_tctx) !! i = Some di /\
           m_metavar_decls (curr_state t') !! i
           = Some (mk_metavar_decl (md_context di ∩ md_context decl_0) (md_type di)) /\
           md_context di ∩ md_context decl_0 ⊆ md_context decl_0).
Proof.
  split; [reflexivity|].
  apply (validate_assignment_answer two_mvars_tctx 0 decl_0 []
           (App (Mref 1) (Href 0))).
  - reflexivity.
  - constructor.
  - intros i Hocc. apply occurs_in_children in Hocc.
    destruct Hocc as [[=] | (a & [<- | [<- | []]] & Ha)];
      apply occurs_in_children in Ha; destruct Ha as [[= ->] | (c & [] & _)].
    eexists. reflexivity.
Defined.

Example validate_assignment_accepts_run :
  exists t',
    validate_assignment (Mref 0) [] (App (Mref 1) (Href 0)) two_mvars_tctx
    = Some (true, t') /\
    md_context <$> (m_metavar_decls (curr_state t') !! 1%nat) = Some {[ 0%nat ]}.
Proof. eexists. split; vm_compute; reflexivity. Qed.

(** C10. [validate_assignment] is not atomic on rejection: on
    [?0 := ?1 ?0] the occurs check fails after [?1] was visited, the answer
    is [false], and the declaration of [?1] in the state that is left is
    not the one it had. *)
Theorem validate_assignment_not_atomic :
  exists t m locals v t' m',
    validate_assignment m locals v t = Some (false, t') /\
    occurs_in m' v /\ is_mref m' = true /\ m' <> m /\
    get_metavar_decl (curr_state t') m' <> get_metavar_decl (curr_state t) m' /\
    (exists d d',
       get_metavar_decl (curr_state t) m' = Some d /\
       get_metavar_decl (curr_state t') m' = Some d' /\
       md_context d' ⊆ md_context d /\ ~ md_context d ⊆ md_context d').
Proof.
  exists two_mvars_tctx, (Mref 0), [], (App (Mref 1) (Mref 0)).
  eexists. exists (Mref 1).
  split; [vm_compute; reflexivity|].
  split; [apply occ_app_fn; constructor|].
  split; [reflexivity|]. split; [discriminate|].
  split; [vm_compute; discriminate|].
  exists (mk_metavar_decl {[ 0%nat; 1%nat ]} (Sort LZero)),
         (mk_metavar_decl ({[ 0%nat; 1%nat ]} ∩ {[ 0%nat ]}) (Sort LZero)).
  split; [vm_compute; reflexivity|]. split; [vm_compute; reflexivity|].
  cbn [md_context]. split; [set_solver|].
  intros H. specialize (H 1%nat). set_solver.
Qed.

(** C8 on [?1 := h0] between [push] and [pop]. *)
Lemma snapshot_rollback_example :
  run_updates [upd_expr (Mref 1) (Href 0)] (push two_mvars_tctx)
  = Some (with_curr_state (assign_mref 1 (Href 0) two_mvars_state)
                          (push two_mvars_tctx)) /\
  get_assignment two_mvars_tctx (Mref 1) = None /\
  get_assignment (with_curr_state (assign_mref 1 (Href 0) two_mvars_state)
                                  (push two_mvars_tctx)) (Mref 1)
  = Some (Href 0) /\
  pop (with_curr_state (assign_mref 1 (Href 0) two_mvars_state)
                       (push two_mvars_tctx))
  = Some two_mvars_tctx.
Proof.
  split; [reflexivity|]. split; [reflexivity|]. split; [reflexivity|].
  apply (proj1 (proj2 (snapshots_roundtrip_and_nest two_mvars_tctx))
           [upd_expr (Mref 1) (Href 0)]).
  reflexivity.
Defined.

End TctxFacts.

(** ** The internalizer *)

Module InternalizeFacts.
Import Term State Outcome Internalize.

(** The arguments up to the first one that is not closed. *)
Fixpoint closed_prefix (args : list expr) : list expr :=
  match args with
  | [] => []
  | a :: args' => if closed a then a :: closed_prefix args' else []
  end.

(** A later application matches the recorded one position by position: a
    local constant of the recorded application faces a local constant of
    the same name, any other recorded argument faces itself. *)
Definition positional_match (decl_args args : list expr) : Prop :=
  forall i dcl,
    decl_args !! i = Some dcl ->
    exists a,
      args !! i = Some a /\
      if is_local dcl then is_local a = true /\ mlocal_name a = mlocal_name dcl
      else a = dcl.

Lemma prefix_matches_spec decl_args :
  forall args,
    prefix_matches decl_args args = true <-> positional_match decl_args args.
Proof.
  unfold positional_match.
  induction decl_args as [|dcl decl_args IH]; intros args; simpl.
  - split; [intros _ i dcl [=] | reflexivity].
  - destruct args as [|a args].
    { split; [discriminate|]. intros H.
      destruct (H 0%nat dcl eq_refl) as (a & [=] & _). }
    destruct (is_local dcl) eqn:Hdl.
    + destruct (is_local a) eqn:Hal; simpl.
      * destruct (decide (mlocal_name a = mlocal_name dcl)) as [Hn|Hn].
        -- rewrite bool_decide_eq_true_2 by exact Hn. simpl. rewrite IH. split.
           ++ intros H [|i] dcl'; simpl.
              ** intros [= <-]. exists a. rewrite Hdl. auto.
              ** apply H.
           ++ intros H i dcl' Hi. apply (H (S i) dcl' Hi).
        -- rewrite bool_decide_eq_false_2 by exact Hn. simpl.
           split; [discriminate|]. intros H.
           destruct (H 0%nat dcl eq_refl) as (a' & [= <-] & Ha').
           rewrite Hdl in Ha'. tauto.
      * split; [discriminate|]. intros H.
        destruct (H 0%nat dcl eq_refl) as (a' & [= <-] & Ha').
        rewrite Hdl in Ha'. destruct Ha' as [Ha' _]. congruence.
    + destruct (decide (dcl = a)) as [<-|Hda].
      * rewrite bool_decide_eq_true_2 by reflexivity. simpl. rewrite IH. split.
        -- intros H [|i] dcl'; simpl.
           ++ intros [= <-]. exists dcl. rewrite Hdl. auto.
           ++ apply H.
        -- intros H i dcl' Hi. apply (H (S i) dcl' Hi).
      * rewrite bool_decide_eq_false_2 by exact Hda. simpl.
        split; [discriminate|]. intros H.
        destruct (H 0%nat dcl eq_refl) as (a' & [= <-] & Ha').
        rewrite Hdl in Ha'. congruence.
Qed.

Lemma positional_match_length decl_args args :
  positional_match decl_args args -> (length decl_args <= length args)%nat.
Proof.
  intros H. destruct (decide (length decl_args <= length args)%nat) as [|Hn]; [assumption|].
  exfalso. assert (Hlt : (length args < length decl_args)%nat) by lia.
  destruct (lookup_lt_is_Some_2 decl_args (length args) Hlt) as [dcl Hdcl].
  destruct (H _ _ Hdcl) as (a & Ha & _).
  apply lookup_lt_Some in Ha. lia.
Qed.

Section Facts.

Variable infer : expr -> expr.
Variable m_local2href : gmap name expr.

Local Abbreviation visit := (visit infer m_local2href).
Local Abbreviation visit_meta_app := (visit_meta_app infer m_local2href).
Local Abbreviation to_blast_expr := (to_blast_expr infer m_local2href).
Local Abbreviation find_prefix := (find_prefix m_local2href).

(** An application of a metavariable goes to [visit_meta_app], whichever
    method receives it. *)
Lemma visit_is_meta fuel e :
  is_meta e = true ->
  visit (S fuel) e = visit_meta_app (visit fuel) e.
Proof.
  intros He. destruct e; try discriminate; simpl; try reflexivity.
  unfold visit_app. rewrite He. reflexivity.
Qed.

(** C3. When the metavariable at the head of [e] was met before, its
    arguments are checked against the ones of the recorded application,
    position by position. Any mismatch (an argument missing, another local
    constant or no local constant where a local constant is recorded,
    another term elsewhere) makes the internalization of [e] fail with the
    unsupported-metavariable-occurrence error for [e]; a match lets it go
    on with the remaining arguments. *)
Theorem later_occurrence_must_match :
  forall fuel e c mvar args mname meta mref,
    is_meta e = true ->
    get_app_args e = (mvar, args) ->
    mlocal_name mvar = Some mname ->
    cv_mvar2meta_mref c !! mname = Some (meta, mref) ->
    is_meta meta = true ->
    is_mref mref = true ->
    (~ positional_match (snd (get_app_args meta)) args ->
       to_blast_expr (S fuel) e c = Throw (unsupported_metavar_occ e)) /\
    (positional_match (snd (get_app_args meta)) args ->
       to_blast_expr (S fuel) e c
       = mk_mref_app (visit fuel) mref
           (drop (length (snd (get_app_args meta))) args) c).
Proof.
  intros fuel e c mvar args mname meta mref He Hargs Hname Hfind Hmeta Hmref.
  unfold Internalize.to_blast_expr. rewrite (visit_is_meta fuel e He).
  assert (Hstep :
    visit_meta_app (visit fuel) e c =
    (if (length args <? length (snd (get_app_args meta)))%nat
     then throw_unsupported_metavar_occ e
     else if negb (prefix_matches (snd (get_app_args meta)) args)
     then throw_unsupported_metavar_occ e
     else mk_mref_app (visit fuel) mref
            (drop (length (snd (get_app_args meta))) args)) c).
  { unfold Internalize.visit_meta_app. rewrite He, Hargs, Hname. cbn [negb].
    unfold bind at 1, mvar2meta_mref_find. rewrite Hfind, Hmeta, Hmref.
    reflexivity. }
  rewrite Hstep. clear Hstep. split.
  - intros Hmis.
    destruct (length args <? length (snd (get_app_args meta)))%nat; [reflexivity|].
    destruct (prefix_matches (snd (get_app_args meta)) args) eqn:Hpm; [|reflexivity].
    exfalso. apply Hmis, prefix_matches_spec, Hpm.
  - intros Hmatch.
    pose proof (positional_match_length _ _ Hmatch) as Hlen.
    destruct (Nat.ltb_spec (length args) (length (snd (get_app_args meta)))); [lia|].
    apply prefix_matches_spec in Hmatch. rewrite Hmatch. reflexivity.
Qed.

(** *** The first occurrence of a metavariable *)

(** The local constant [a] is compared by name with the arguments
    [before] it, in order ([std::all_of] stops at the first argument that
    has the name of [a]). [p] passes the comparison: it has a name, being
    a local constant or a metavariable, and it is not the name of [a]. *)
Definition differs (a p : expr) : Prop :=
  is_mlocal p = true /\ mlocal_name p <> mlocal_name a.

(** Every argument before [a] passes: [a] is the first of its name. *)
Definition fresh_local (before : list expr) (a : expr) : Prop :=
  is_local a = true /\ Forall (differs a) before.

(** The comparison stops at an argument that has the name of [a]: [a] has
    "already been processed". *)
Definition repeated_local (before : list expr) (a : expr) : Prop :=
  is_local a = true /\
  exists b1 q b2,
    before = b1 ++ q :: b2 /\ Forall (differs a) b1 /\
    is_mlocal q = true /\ mlocal_name q = mlocal_name a.

(** The comparison meets, before any argument of the name of [a], an
    argument that is neither a local constant nor a metavariable:
    [mlocal_name] is applied outside its domain. *)
Definition misplaced_local (before : list expr) (a : expr) : Prop :=
  is_local a = true /\
  exists b1 p b2,
    before = b1 ++ p :: b2 /\ Forall (differs a) b1 /\ is_mlocal p = false.

(** [Q] holds of some argument of [R] and the arguments before it, [seen]
    being the arguments before [R]. *)
Definition at_position (Q : list expr -> expr -> Prop) (seen R : list expr) : Prop :=
  exists b a aft, R = b ++ a :: aft /\ Q (seen ++ b) a.

Definition unmapped_local (a : expr) : Prop :=
  exists n, mlocal_name a = Some n /\ m_local2href !! n = None.

Definition maps_to (h : nat) (a : expr) : Prop :=
  exists n, mlocal_name a = Some n /\ m_local2href !! n = Some (Href h).

(** Some local constant of [R] is the first of its name and is not
    mapped. *)
Definition needs_unmapped_local (seen R : list expr) : Prop :=
  at_position (fun before a => fresh_local before a /\ unmapped_local a) seen R.

(** Some local constant of [R] is compared with an argument that has no
    name. *)
Definition compares_with_nameless (seen R : list expr) : Prop :=
  at_position misplaced_local seen R.

(** [h] is the hypothesis of a local constant of [R] that is the first of
    its name. *)
Definition in_prefix_context (seen R : list expr) (h : nat) : Prop :=
  at_position (fun before a => fresh_local before a /\ maps_to h a) seen R.

Lemma at_position_nil Q seen : ~ at_position Q seen [].
Proof. intros (b & a & aft & H & _). destruct b; discriminate. Qed.

Lemma at_position_cons Q seen a R :
  at_position Q seen (a :: R) <-> Q seen a \/ at_position Q (seen ++ [a]) R.
Proof.
  split.
  - intros (b & a0 & aft & Heq & HQ). destruct b as [|a1 b].
    + injection Heq as <- <-. rewrite app_nil_r in HQ. auto.
    + injection Heq as <- ->. right. exists b, a0, aft. split; [reflexivity|].
      rewrite <- app_assoc. exact HQ.
  - intros [HQ | (b & a0 & aft & -> & HQ)].
    + exists [], a, R. rewrite app_nil_r. auto.
    + exists (a :: b), a0, aft. split; [reflexivity|].
      rewrite <- app_assoc in HQ. exact HQ.
Qed.

Lemma first_stop_unique a :
  forall b1 p b2 c1 q c2,
    b1 ++ p :: b2 = c1 ++ q :: c2 ->
    Forall (differs a) b1 -> ~ differs a p ->
    Forall (differs a) c1 -> ~ differs a q ->
    p = q.
Proof.
  induction b1 as [|x b1 IH]; intros p b2 c1 q c2 Heq Hb Hp Hc Hq.
  - destruct c1 as [|y c1]; simpl in Heq; [congruence|].
    injection Heq as -> _. apply Forall_cons in Hc as [Hy _]. tauto.
  - destruct c1 as [|y c1]; simpl in Heq.
    + injection Heq as -> _. apply Forall_cons in Hb as [Hx _]. tauto.
    + injection Heq as -> Heq. apply Forall_cons in Hb as [_ Hb].
      apply Forall_cons in Hc as [_ Hc]. eapply IH; eassumption.
Qed.

Lemma local_has_name a : is_local a = true -> exists n, mlocal_name a = Some n.
Proof. destruct a; try discriminate; simpl; eauto. Qed.

Lemma mlocal_has_name p : is_mlocal p = true <-> is_Some (mlocal_name p).
Proof.
  destruct p; simpl; split; try discriminate; eauto; intros [? [=]].
Qed.

(** The three ways in which the comparison ends. *)
Lemma all_of_names before a :
  is_local a = true ->
  match all_of (fun p => mlocal_name_ne p a) before with
  | Some true => fresh_local before a
  | Some false => repeated_local before a
  | None => misplaced_local before a
  end.
Proof.
  intros Ha. destruct (local_has_name a Ha) as [n Hn].
  induction before as [|p before IH]; simpl.
  - split; [exact Ha | constructor].
  - unfold mlocal_name_ne at 1. rewrite Hn.
    destruct (mlocal_name p) as [np|] eqn:Hp.
    + assert (Hmp : is_mlocal p = true) by (apply mlocal_has_name; eauto).
      destruct (decide (np = n)) as [->|Hne].
      * rewrite bool_decide_eq_true_2 by reflexivity. simpl.
        split; [exact Ha|]. exists [], p, before.
        split; [reflexivity|]. split; [constructor|]. split; [exact Hmp | congruence].
      * rewrite bool_decide_eq_false_2 by exact Hne. simpl.
        assert (Hdp : differs a p) by (split; [exact Hmp | congruence]).
        destruct (all_of _ before) as [[]|].
        -- destruct IH as [_ IH]. split; [exact Ha|]. constructor; assumption.
        -- destruct IH as [_ (b1 & q & b2 & -> & Hb1 & Hq)]. split; [exact Ha|].
           exists (p :: b1), q, b2. split; [reflexivity|].
           split; [constructor; assumption | exact Hq].
        -- destruct IH as [_ (b1 & q & b2 & -> & Hb1 & Hq)]. split; [exact Ha|].
           exists (p :: b1), q, b2. split; [reflexivity|].
           split; [constructor; assumption | exact Hq].
    + split; [exact Ha|]. exists [], p, before.
      split; [reflexivity|]. split; [constructor|].
      destruct (is_mlocal p) eqn:Hmp; [|reflexivity].
      apply mlocal_has_name in Hmp as [? Hmp]. congruence.
Qed.

Lemma fresh_not_repeated before a : fresh_local before a -> ~ repeated_local before a.
Proof.
  intros [_ Hall] (_ & b1 & q & b2 & -> & _ & _ & Hq).
  apply Forall_app in Hall as [_ Hall]. apply Forall_cons in Hall as [[_ Hne] _].
  exact (Hne Hq).
Qed.

Lemma fresh_not_misplaced before a : fresh_local before a -> ~ misplaced_local before a.
Proof.
  intros [_ Hall] (_ & b1 & p & b2 & -> & _ & Hp).
  apply Forall_app in Hall as [_ Hall]. apply Forall_cons in Hall as [[Hm _] _].
  congruence.
Qed.

Lemma repeated_not_misplaced before a :
  repeated_local before a -> ~ misplaced_local before a.
Proof.
  intros (_ & b1 & q & b2 & -> & Hb1 & Hmq & Hq) (_ & c1 & p & c2 & Heq & Hc1 & Hp).
  assert (q = p) as ->; [|congruence].
  eapply (first_stop_unique a); [exact Heq | exact Hb1 | | exact Hc1 | ].
  - intros [_ Hne]. exact (Hne Hq).
  - intros [Hm _]. congruence.
Qed.

(** After an argument without a name no local constant is the first of
    its name. *)
Lemma misplaced_blocks_fresh seen a R Q :
  misplaced_local seen a ->
  ~ at_position (fun before a' => fresh_local before a' /\ Q a') (seen ++ [a]) R.
Proof.
  intros (_ & b1 & p & b2 & -> & _ & Hp) (b & a' & aft & _ & [_ Hall] & _).
  rewrite <- !app_assoc in Hall.
  apply Forall_app in Hall as [_ Hall]. apply Forall_cons in Hall as [[Hm _] _].
  congruence.
Qed.

(** What the scan of [rest], after [seen], comes to; [R] is the closed
    prefix of [rest]. *)
Definition scan_post (e : expr) (seen R : list expr) (ctx : list nat)
    (o : outcome (nat * list nat)) : Prop :=
  match o with
  | Throw ex => ex = unsupported_metavar_occ e /\ needs_unmapped_local seen R
  | AssertionViolation =>
      ~ needs_unmapped_local seen R /\ compares_with_nameless seen R
  | Ok (n, ctx') =>
      ~ needs_unmapped_local seen R /\ ~ compares_with_nameless seen R /\
      n = (length seen + length R)%nat /\
      exists new, ctx' = ctx ++ new /\
                  forall h, In h new <-> in_prefix_context seen R h
  | OutOfFuel => False
  end.

Lemma scan_post_end e seen ctx : scan_post e seen [] ctx (Ok (length seen, ctx)).
Proof.
  split; [apply at_position_nil|]. split; [apply at_position_nil|].
  split; [simpl; lia|]. exists []. rewrite app_nil_r. split; [reflexivity|].
  intros h. split; [intros [] | intros H; exact (at_position_nil _ _ H)].
Qed.

(** An argument that adds nothing to the context. *)
Lemma scan_post_skip e seen a R ctx o :
  ~ (fresh_local seen a /\ unmapped_local a) ->
  ~ misplaced_local seen a ->
  (forall h, ~ (fresh_local seen a /\ maps_to h a)) ->
  scan_post e (seen ++ [a]) R ctx o ->
  scan_post e seen (a :: R) ctx o.
Proof.
  intros H1 H2 H3. unfold scan_post, needs_unmapped_local, compares_with_nameless,
    in_prefix_context.
  assert (Hlen : (length (seen ++ [a]) + length R = length seen + length (a :: R))%nat).
  { rewrite length_app. simpl. lia. }
  destruct o as [[n ctx']|ex| |]; rewrite ?at_position_cons; try tauto.
  - intros (Ha & Hb & Hn & new & Hctx & Hnew).
    split; [tauto|]. split; [tauto|]. split; [lia|].
    exists new. split; [exact Hctx|]. intros h.
    rewrite at_position_cons, Hnew. specialize (H3 h). tauto.
Qed.

(** A local constant that adds the hypothesis [hidx] to the context. *)
Lemma scan_post_push e seen a R ctx hidx o :
  ~ (fresh_local seen a /\ unmapped_local a) ->
  ~ misplaced_local seen a ->
  (forall h, fresh_local seen a /\ maps_to h a <-> h = hidx) ->
  scan_post e (seen ++ [a]) R (ctx ++ [hidx]) o ->
  scan_post e seen (a :: R) ctx o.
Proof.
  intros H1 H2 H3. unfold scan_post, needs_unmapped_local, compares_with_nameless,
    in_prefix_context.
  assert (Hlen : (length (seen ++ [a]) + length R = length seen + length (a :: R))%nat).
  { rewrite length_app. simpl. lia. }
  destruct o as [[n ctx']|ex| |]; rewrite ?at_position_cons; try tauto.
  - intros (Ha & Hb & Hn & new & Hctx & Hnew).
    split; [tauto|]. split; [tauto|]. split; [lia|].
    exists (hidx :: new). split; [rewrite Hctx, <- app_assoc; reflexivity|].
    intros h. rewrite at_position_cons, <- Hnew, H3. simpl.
    split; intros [?|?]; auto.
Qed.

Lemma find_prefix_outcome rest :
  forall e seen ctx,
    map_Forall (fun _ h => is_href h = true) m_local2href ->
    scan_post e seen (closed_prefix rest) ctx (find_prefix e seen rest ctx).
Proof.
  induction rest as [|a rest IH]; intros e seen ctx Hhref; simpl.
  - apply (scan_post_end e).
  - destruct (closed a); simpl; [|apply (scan_post_end e)].
    destruct (is_local a) eqn:Hloc; simpl.
    + pose proof (all_of_names seen a Hloc) as Hcmp.
      destruct (all_of _ seen) as [[]|].
      * (* the first of its name *)
        destruct (local_has_name a Hloc) as [n Hn]. rewrite Hn.
        destruct (m_local2href !! n) as [href|] eqn:Hmap.
        -- pose proof (Hhref n href Hmap) as Hh. simpl in Hh.
           destruct href as [| | | | |hidx| | | | |]; try discriminate. simpl.
           apply (scan_post_push e seen a _ ctx hidx); [| | |apply IH, Hhref].
           ++ intros [_ (n' & Hn' & Hnone)]. congruence.
           ++ apply fresh_not_misplaced, Hcmp.
           ++ intros h. split.
              ** intros [_ (n' & Hn' & Hh')]. congruence.
              ** intros ->. split; [exact Hcmp|]. exists n. auto.
        -- split; [reflexivity|]. apply at_position_cons. left.
           split; [exact Hcmp|]. exists n. auto.
      * (* already processed *)
        apply scan_post_skip; [| | |apply IH, Hhref].
        -- intros [Hf _]. exact (fresh_not_repeated _ _ Hf Hcmp).
        -- apply repeated_not_misplaced, Hcmp.
        -- intros h [Hf _]. exact (fresh_not_repeated _ _ Hf Hcmp).
      * (* [mlocal_name] outside its domain *)
        split.
        -- intros [[Hf _] | Hlater]%at_position_cons.
           ++ exact (fresh_not_misplaced _ _ Hf Hcmp).
           ++ exact (misplaced_blocks_fresh _ _ _ _ Hcmp Hlater).
        -- apply at_position_cons. left. exact Hcmp.
    + (* not a local constant: ignored *)
      apply scan_post_skip; [| | |apply IH, Hhref].
      * intros [[Hl _] _]. congruence.
      * intros [Hl _]. congruence.
      * intros h [[Hl _] _]. congruence.
Qed.

(** C2, as amended. At the first occurrence of a metavariable, the
    arguments are scanned up to the first one that is not closed. An
    argument that is not a local constant is skipped. A local constant is
    compared by name with the arguments before it, in order: when one of
    them has its name, it is skipped; when all of them are local constants
    or metavariables of other names, it must be mapped by [m_local2href],
    and its hypothesis goes into the context; when the comparison first
    meets an argument that is neither, [mlocal_name] is applied outside
    its domain. So, [m_local2href] mapping to hrefs: the scan throws, and
    then the unsupported-metavariable-occurrence error for [e] and nothing
    else, exactly when some local constant of the prefix is the first of
    its name and not mapped, and the internalization of [e] then fails
    with that error; it ends in the assertion violation exactly when no
    such local constant exists and some local constant is compared with
    an argument that has no name; and in every other case it succeeds
    with the whole prefix and the hypotheses of the local constants that
    are the first of their names. *)
Theorem first_occurrence_prefix_check :
  forall fuel e c mvar args mname,
    is_meta e = true ->
    get_app_args e = (mvar, args) ->
    mlocal_name mvar = Some mname ->
    cv_mvar2meta_mref c !! mname = None ->
    map_Forall (fun _ h => is_href h = true) m_local2href ->
    (needs_unmapped_local [] (closed_prefix args) <->
     find_prefix e [] args [] = Throw (unsupported_metavar_occ e)) /\
    (forall ex, find_prefix e [] args [] = Throw ex -> ex = unsupported_metavar_occ e) /\
    (needs_unmapped_local [] (closed_prefix args) ->
     to_blast_expr (S fuel) e c = Throw (unsupported_metavar_occ e)) /\
    (~ needs_unmapped_local [] (closed_prefix args) /\
     compares_with_nameless [] (closed_prefix args) <->
     find_prefix e [] args [] = AssertionViolation) /\
    (~ needs_unmapped_local [] (closed_prefix args) ->
     compares_with_nameless [] (closed_prefix args) ->
     to_blast_expr (S fuel) e c = AssertionViolation) /\
    (~ needs_unmapped_local [] (closed_prefix args) ->
     ~ compares_with_nameless [] (closed_prefix args) ->
     exists ctx,
       find_prefix e [] args [] = Ok (length (closed_prefix args), ctx) /\
       forall h, In h ctx <-> in_prefix_context [] (closed_prefix args) h).
Proof.
  intros fuel e c mvar args mname He Hargs Hname Hfind Hhref.
  assert (Hrun : to_blast_expr (S fuel) e c =
                 match find_prefix e [] args [] with
                 | Ok (prefix_sz, ctx) =>
                     match app_fn_iter (length args - prefix_sz) e with
                     | None => violated
                     | Some aux =>
                         if negb (is_meta aux) then violated
                         else
                           let* type := visit fuel (infer aux) in
                           let* mref := state_mk_metavar ctx type in
                           let* _ := mvar2meta_mref_insert mname (e, mref) in
                           mk_mref_app (visit fuel) mref (drop prefix_sz args)
                     end c
                 | Throw ex => Throw ex
                 | AssertionViolation => AssertionViolation
                 | OutOfFuel => OutOfFuel
                 end).
  { unfold Internalize.to_blast_expr. rewrite (visit_is_meta fuel e He).
    unfold Internalize.visit_meta_app. rewrite He, Hargs, Hname. cbn [negb].
    unfold bind at 1, mvar2meta_mref_find. rewrite Hfind.
    destruct (find_prefix e [] args []) as [[prefix_sz ctx]| | |]; reflexivity. }
  pose proof (find_prefix_outcome args e [] [] Hhref) as Hpost.
  unfold scan_post in Hpost.
  destruct (find_prefix e [] args []) as [[n ctx]|ex| |] eqn:Hscan;
    [| | |contradiction].
  - destruct Hpost as (Hno & Hnv & Hn & new & -> & Hnew). simpl in Hn. subst n.
    split; [split; [tauto | discriminate]|].
    split; [discriminate|]. split; [tauto|].
    split; [split; [tauto | discriminate]|]. split; [tauto|].
    intros _ _. exists ([] ++ new). split; [reflexivity | exact Hnew].
  - destruct Hpost as [-> Hneeds].
    split; [split; [reflexivity | intros _; exact Hneeds]|].
    split; [intros ex [= <-]; reflexivity|].
    split; [intros _; exact Hrun|].
    split; [split; [tauto | discriminate]|]. split; tauto.
  - destruct Hpost as [Hno Hv].
    split; [split; [tauto | discriminate]|].
    split; [discriminate|]. split; [tauto|].
    split; [split; [reflexivity | auto]|].
    split; [intros _ _; exact Hrun | tauto].
Qed.

End Facts.

(** *** Examples: the goal's locals [x], [y], a constant [f], and [?m] *)

Definition x : expr := Local (ext_name "x") (ext_name "x") (Sort LZero).
Definition y : expr := Local (ext_name "y") (ext_name "y") (Sort LZero).
Definition f : expr := Const (ext_name "f") [].
Definition mvar_m : expr := Meta (ext_name "m") (Sort LZero).

(** [x] is a hypothesis of the goal, mapped to the href 0. *)
Definition l2h_x : gmap name expr := {[ ext_name "x" := Href 0 ]}.

(** Both [x] and [y] are hypotheses of the goal. *)
Definition l2h_xy : gmap name expr := <[ ext_name "y" := Href 1 ]> l2h_x.

Definition conv0 : conv := mk_conv empty_state ∅ ∅ 0 0.

Definition infer0 (_ : expr) : expr := Sort LZero.

(** C2 is refuted as stated. [?m x (f x)] has the prefix [x], [f x], whose
    second argument is closed and is not a local constant, and [?m x x] has
    a repeated local constant: both are accepted, as the metavariable
    reference 0 with context [{0}]. And the internalization of
    [?m (f x) x] does not end with the unsupported-metavariable-occurrence
    error. *)
Lemma nonlocal_or_repeated_arguments_accepted :
  (closed (App f x) = true /\ is_local (App f x) = false /\
   exists c1,
     to_blast_expr infer0 l2h_x 3 (mk_app mvar_m [x; App f x]) conv0
     = Ok (Mref 0, c1) /\
     md_context <$> get_metavar_decl (cv_state c1) (Mref 0) = Some {[ 0%nat ]}) /\
  (exists c1,
     to_blast_expr infer0 l2h_x 3 (mk_app mvar_m [x; x]) conv0 = Ok (Mref 0, c1) /\
     md_context <$> get_metavar_decl (cv_state c1) (Mref 0) = Some {[ 0%nat ]}) /\
  to_blast_expr infer0 l2h_x 3 (mk_app mvar_m [App f x; x]) conv0
  <> Throw (unsupported_metavar_occ (mk_app mvar_m [App f x; x])).
Proof.
  split; [|split].
  - split; [reflexivity|]. split; [reflexivity|].
    eexists. split; vm_compute; reflexivity.
  - eexists. split; vm_compute; reflexivity.
  - vm_compute. discriminate.
Qed.

Lemma l2h_x_hrefs : map_Forall (fun _ h => is_href h = true) l2h_x.
Proof.
  intros n h. unfold l2h_x. intros [_ <-]%lookup_singleton_Some. reflexivity.
Qed.

(** The amended C2 with [x] the only hypothesis of the goal. On [?m x y]
    the local constant [y] is the first of its name and is not mapped:
    the error. On [?m (f x) y] the local constant [y] is compared with
    [f x], which has no name: the assertion violation, not the error. *)
Lemma first_occurrence_unmapped_local :
  (is_meta (mk_app mvar_m [x; y]) = true /\
   get_app_args (mk_app mvar_m [x; y]) = (mvar_m, [x; y]) /\
   mlocal_name mvar_m = Some (ext_name "m") /\
   cv_mvar2meta_mref conv0 !! ext_name "m" = None) /\
  needs_unmapped_local l2h_x [] (closed_prefix [x; y]) /\
  to_blast_expr infer0 l2h_x 3 (mk_app mvar_m [x; y]) conv0
  = Throw (unsupported_metavar_occ (mk_app mvar_m [x; y])) /\
  (~ needs_unmapped_local l2h_x [] (closed_prefix [App f x; y]) /\
   compares_with_nameless [] (closed_prefix [App f x; y])) /\
  to_blast_expr infer0 l2h_x 3 (mk_app mvar_m [App f x; y]) conv0
  = AssertionViolation.
Proof.
  pose proof (first_occurrence_prefix_check infer0 l2h_x 2
                (mk_app mvar_m [x; y]) conv0 mvar_m [x; y] (ext_name "m")
                eq_refl eq_refl eq_refl eq_refl l2h_x_hrefs)
    as (_ & _ & Hthrow & _).
  pose proof (first_occurrence_prefix_check infer0 l2h_x 2
                (mk_app mvar_m [App f x; y]) conv0 mvar_m [App f x; y] (ext_name "m")
                eq_refl eq_refl eq_refl eq_refl l2h_x_hrefs)
    as (_ & _ & _ & Hscan & Hviolation & _).
  assert (Hneeds : needs_unmapped_local l2h_x [] (closed_prefix [x; y])).
  { exists [x], y, []. split; [reflexivity|]. split.
    - split; [reflexivity|]. constructor; [|constructor].
      split; [reflexivity | discriminate].
    - exists (ext_name "y"). split; reflexivity. }
  split; [repeat split|]. split; [exact Hneeds|].
  split; [exact (Hthrow Hneeds)|].
  pose proof (proj2 Hscan eq_refl) as Hnameless.
  split; [exact Hnameless|].
  exact (Hviolation (proj1 Hnameless) (proj2 Hnameless)).
Defined.

(** More runs of the scan: a local constant after [f x] is compared with
    it, unless an argument before [f x] has its name. *)
Example nameless_argument_before_local :
  to_blast_expr infer0 l2h_x 3 (mk_app mvar_m [App f x; x]) conv0
  = AssertionViolation /\
  to_blast_expr infer0 l2h_x 3 (mk_app mvar_m [x; App f x; y]) conv0
  = AssertionViolation /\
  exists c1,
    to_blast_expr infer0 l2h_x 3 (mk_app mvar_m [x; App f x; x]) conv0
    = Ok (Mref 0, c1) /\
    md_context <$> get_metavar_decl (cv_state c1) (Mref 0) = Some {[ 0%nat ]}.
Proof.
  split; [vm_compute; reflexivity|]. split; [vm_compute; reflexivity|].
  eexists. split; vm_compute; reflexivity.
Qed.

(** The conversion state after [?m x] has been internalized. *)
Definition conv_after_m_x : conv :=
  match to_blast_expr infer0 l2h_xy 3 (mk_app mvar_m [x]) conv0 with
  | Ok (_, c) => c
  | _ => conv0
  end.

(** C3 on [?m x] followed by [?m y]. *)
Lemma later_occurrence_mismatch :
  to_blast_expr infer0 l2h_xy 3 (mk_app mvar_m [x]) conv0
  = Ok (Mref 0, conv_after_m_x) /\
  (is_meta (mk_app mvar_m [y]) = true /\
   get_app_args (mk_app mvar_m [y]) = (mvar_m, [y]) /\
   mlocal_name mvar_m = Some (ext_name "m") /\
   cv_mvar2meta_mref conv_after_m_x !! ext_name "m"
   = Some (mk_app mvar_m [x], Mref 0) /\
   is_meta (mk_app mvar_m [x]) = true /\ is_mref (Mref 0) = true /\
   ~ positional_match (snd (get_app_args (mk_app mvar_m [x]))) [y]) /\
  to_blast_expr infer0 l2h_xy 3 (mk_app mvar_m [y]) conv_after_m_x
  = Throw (unsupported_metavar_occ (mk_app mvar_m [y])).
Proof.
  assert (Hmis : ~ positional_match (snd (get_app_args (mk_app mvar_m [x]))) [y]).
  { intros H. destruct (H 0%nat x eq_refl) as (a & [= <-] & Ha).
    simpl in Ha. destruct Ha as [_ [=]]. }
  assert (Hfind : cv_mvar2meta_mref conv_after_m_x !! ext_name "m"
                  = Some (mk_app mvar_m [x], Mref 0)).
  { vm_compute. reflexivity. }
  split; [vm_compute; reflexivity|].
  split; [repeat split; assumption|].
  apply (proj1 (later_occurrence_must_match infer0 l2h_xy 2
                  (mk_app mvar_m [y]) conv_after_m_x mvar_m [y] (ext_name "m")
                  (mk_app mvar_m [x]) (Mref 0)
                  eq_refl eq_refl eq_refl Hfind eq_refl eq_refl)).
  exact Hmis.
Defined.

End InternalizeFacts.

(** ** The externalizer *)

Module ExternalizeFacts.
Import Term State Outcome Externalize.

Lemma visit_href_unfold s fuel i :
  visit s (S fuel) (Href i) = visit_local s (visit s fuel) (Href i).
Proof. reflexivity. Qed.

Lemma visit_mref_unfold s fuel i :
  visit s (S fuel) (Mref i) = visit_meta s (visit s fuel) fuel (Mref i).
Proof. reflexivity. Qed.

(** [visit_local] on an href: when the hypothesis carries a value, the
    externalized value stands in place of the href, and when that value is
    a local constant of the caller, the href becomes this local constant
    (around its externalized type); the base method is reached only when
    [get_value()] is empty. *)
Lemma href_replaced_through_value :
  forall s fuel i h,
    m_hyp_decls s !! i = Some h ->
    (forall r,
       h_value h = Some r ->
       to_tactic_proof (S fuel) s (Href i) = to_tactic_proof fuel s r) /\
    (forall n pp ty ty',
       h_value h = Some (Local n pp ty) ->
       to_tactic_proof fuel s ty = Ok ty' ->
       to_tactic_proof (S (S fuel)) s (Href i) = Ok (Local n pp ty')) /\
    (h_value h = None ->
       to_tactic_proof (S fuel) s (Href i) = Ok (Href i)).
Proof.
  intros s fuel i h Hh.
  assert (Hstep : forall k,
            to_tactic_proof (S k) s (Href i) =
            match h_value h with
            | Some r => to_tactic_proof k s r
            | None => Ok (Href i)
            end).
  { intros k. unfold to_tactic_proof. rewrite visit_href_unfold.
    unfold visit_local, get_hypothesis_decl. cbn [is_href href_index].
    rewrite Hh. destruct (h_value h); reflexivity. }
  split; [|split].
  - intros r Hr. rewrite Hstep, Hr. reflexivity.
  - intros n pp ty ty' Hr Hty. rewrite Hstep, Hr.
    unfold to_tactic_proof in *. simpl. unfold visit_local. cbn [is_href].
    unfold replace_visitor_visit_local, replace_visitor_visit_mlocal.
    rewrite Hty. reflexivity.
  - intros Hnone. rewrite Hstep, Hnone. reflexivity.
Qed.

(** The externalizer leaves an unassigned [mref] as it is. *)
Theorem unassigned_mref_is_kept :
  forall s fuel i,
    get_mref_assignment s (Mref i) = None ->
    to_tactic_proof (S (S fuel)) s (Mref i) = Ok (Mref i).
Proof.
  intros s fuel i Hnone. unfold to_tactic_proof. rewrite visit_mref_unfold.
  unfold visit_meta. cbn [is_mref negb]. simpl instantiate_urefs_mrefs.
  rewrite Hnone. rewrite bool_decide_eq_true_2 by reflexivity. reflexivity.
Qed.

(** *** Examples *)

(** A caller's local constant [h : P]. *)
Definition local_h : expr :=
  Local (ext_name "h") (ext_name "h") (Const (ext_name "P") []).

(** The state of the search after [?m x] was internalized as the
    metavariable reference 0 and left unassigned. *)
Definition state_unassigned : state :=
  Internalize.cv_state InternalizeFacts.conv_after_m_x.

(** C5 at the failing input: the proof term [?0], for the unassigned
    reference that stands for the caller's [?m x]. The externalizer returns
    the reference itself, not the caller's metavariable application. *)
Theorem unassigned_mref_not_reconstituted :
  Internalize.cv_mvar2meta_mref InternalizeFacts.conv_after_m_x !! ext_name "m"
  = Some (mk_app InternalizeFacts.mvar_m [InternalizeFacts.x], Mref 0) /\
  get_mref_assignment state_unassigned (Mref 0) = None /\
  to_tactic_proof 3 state_unassigned (Mref 0) = Ok (Mref 0) /\
  to_tactic_proof 3 state_unassigned (Mref 0)
  <> Ok (mk_app InternalizeFacts.mvar_m [InternalizeFacts.x]).
Proof.
  split; [vm_compute; reflexivity|]. split; [vm_compute; reflexivity|].
  split; [vm_compute; reflexivity|]. vm_compute. discriminate.
Qed.

(** The general fact at this input. *)
Lemma unassigned_mref_is_kept_example :
  get_mref_assignment state_unassigned (Mref 0) = None /\
  to_tactic_proof 3 state_unassigned (Mref 0) = Ok (Mref 0).
Proof.
  assert (H : get_mref_assignment state_unassigned (Mref 0) = None)
    by (vm_compute; reflexivity).
  split; [exact H|]. apply (unassigned_mref_is_kept state_unassigned 1 0 H).
Defined.

(** An assigned reference is replaced by its instantiated assignment when
    that is again a metavariable; for any other term the base method
    [replace_visitor::visit_meta] is applied outside its domain. *)
Example assigned_mref_examples :
  to_tactic_proof 3 (assign_mref 0 (Mref 1) TctxFacts.two_mvars_state) (Mref 0)
  = Ok (Mref 1) /\
  to_tactic_proof 3 (assign_mref 0 (Const (ext_name "c") []) TctxFacts.two_mvars_state)
    (Mref 0)
  = AssertionViolation.
Proof. split; vm_compute; reflexivity. Qed.

End ExternalizeFacts.

(* ===================================================================== *)
(** * Further properties of the code of [blast.cpp]                       *)
(* ===================================================================== *)

(** ** Universe levels: [to_blast_level] *)

Module LevelFacts.
Import Term State Outcome Internalize.

(** No universe metavariable of the caller occurs in the level. *)
Fixpoint level_no_meta (l : level) : bool :=
  match l with
  | LZero | LParam _ | LGlobal _ | LUref _ => true
  | LMeta _ => false
  | LSucc l1 => level_no_meta l1
  | LMax l1 l2 | LIMax l1 l2 => level_no_meta l1 && level_no_meta l2
  end.

(** No universe metavariable at all, of the caller or of the engine. *)
Fixpoint level_plain (l : level) : bool :=
  match l with
  | LZero | LParam _ | LGlobal _ => true
  | LMeta _ | LUref _ => false
  | LSucc l1 => level_plain l1
  | LMax l1 l2 | LIMax l1 l2 => level_plain l1 && level_plain l2
  end.

(** [m_uvar2uref] maps to [uref]s that were drawn from the counter, and
    maps different names to different [uref]s. *)
Definition uref_map_ok (c : conv) : Prop :=
  (forall n u, cv_uvar2uref c !! n = Some u ->
     exists i, u = LUref i /\ (i < cv_next_uref c)%nat) /\
  (forall n1 n2 u,
     cv_uvar2uref c !! n1 = Some u -> cv_uvar2uref c !! n2 = Some u -> n1 = n2).

(** What the translation of a level may change: it extends [m_uvar2uref]
    and advances the counter of [uref]s, nothing else. *)
Definition level_step (c c' : conv) : Prop :=
  cv_state c' = cv_state c /\
  cv_mvar2meta_mref c' = cv_mvar2meta_mref c /\
  cv_next_mref c' = cv_next_mref c /\
  cv_uvar2uref c ⊆ cv_uvar2uref c' /\
  (cv_next_uref c <= cv_next_uref c')%nat.

Lemma level_step_refl c : level_step c c.
Proof. repeat split; auto. Qed.

Lemma level_step_trans c1 c2 c3 :
  level_step c1 c2 -> level_step c2 c3 -> level_step c1 c3.
Proof.
  intros (H1 & H2 & H3 & H4 & H5) (G1 & G2 & G3 & G4 & G5).
  repeat split; try congruence; [etrans; eassumption | lia].
Qed.

Lemma to_blast_meta_level_spec n c :
  exists l' c',
    to_blast_meta_level n c = Ok (l', c') /\
    level_step c c' /\
    cv_uvar2uref c' !! n = Some l' /\
    (cv_uvar2uref c !! n = Some l' -> c' = c) /\
    (uref_map_ok c -> uref_map_ok c' /\ exists i, l' = LUref i).
Proof.
  unfold to_blast_meta_level, bind, uvar2uref_find, mk_fresh_uref,
    uvar2uref_insert, ret.
  destruct (cv_uvar2uref c !! n) as [u|] eqn:Hn.
  - exists u, c. split; [reflexivity|]. split; [apply level_step_refl|].
    split; [exact Hn|]. split; [reflexivity|].
    intros Hok. split; [exact Hok|].
    destruct (proj1 Hok n u Hn) as (i & -> & _). eauto.
  - eexists _, _. split; [reflexivity|]. cbn.
    split; [|split; [apply lookup_insert_eq|split]].
    + repeat split; cbn; [apply insert_subseteq; exact Hn | lia].
    + intros H. rewrite H in Hn. discriminate.
    + intros [Hval Hinj]. split; [|eauto]. split; cbn.
      * intros n' u. rewrite lookup_insert. case_decide.
        -- intros [= <-]. eauto.
        -- intros H'. destruct (Hval _ _ H') as (i & -> & Hi). eauto with lia.
      * intros n1 n2 u. rewrite !lookup_insert.
        repeat case_decide; subst; try reflexivity.
        -- intros [= <-] H2. destruct (Hval _ _ H2) as (i & [= ->] & Hi). lia.
        -- intros H1 [= <-]. destruct (Hval _ _ H1) as (i & [= ->] & Hi). lia.
        -- apply Hinj.
Qed.

Local Ltac level_leaf :=
  split; [reflexivity|]; split; [apply level_step_refl|];
  split; [intros ?; split; [assumption|reflexivity] | intros _; split; reflexivity].

Lemma to_blast_level_spec l :
  forall c,
    exists l' c',
      to_blast_level l c = Ok (l', c') /\
      level_step c c' /\
      (uref_map_ok c -> uref_map_ok c' /\ level_no_meta l' = true) /\
      (level_plain l = true -> l' = l /\ c' = c).
Proof.
  induction l as [|l1 IH1|l1 IH1 l2 IH2|l1 IH1 l2 IH2|n|n|n|i]; intros c; simpl.
  - exists LZero, c. level_leaf.
  - destruct (IH1 c) as (l1' & c1 & H1 & Hs1 & Hok1 & Hp1).
    exists (LSucc l1'), c1. unfold bind. rewrite H1. split; [reflexivity|].
    split; [exact Hs1|]. split.
    + intros Hok. destruct (Hok1 Hok). auto.
    + intros Hp. destruct (Hp1 Hp) as [-> ->]. auto.
  - destruct (IH1 c) as (l1' & c1 & H1 & Hs1 & Hok1 & Hp1).
    destruct (IH2 c1) as (l2' & c2 & H2 & Hs2 & Hok2 & Hp2).
    exists (LMax l1' l2'), c2. unfold bind. rewrite H1, H2. split; [reflexivity|].
    split; [eapply level_step_trans; eassumption|]. split.
    + intros Hok. destruct (Hok1 Hok) as [Hc1 Hm1].
      destruct (Hok2 Hc1) as [Hc2 Hm2]. simpl. rewrite Hm1, Hm2. auto.
    + intros [Hpa Hpb]%andb_true_iff. destruct (Hp1 Hpa) as [-> ->].
      destruct (Hp2 Hpb) as [-> ->]. auto.
  - destruct (IH1 c) as (l1' & c1 & H1 & Hs1 & Hok1 & Hp1).
    destruct (IH2 c1) as (l2' & c2 & H2 & Hs2 & Hok2 & Hp2).
    exists (LIMax l1' l2'), c2. unfold bind. rewrite H1, H2. split; [reflexivity|].
    split; [eapply level_step_trans; eassumption|]. split.
    + intros Hok. destruct (Hok1 Hok) as [Hc1 Hm1].
      destruct (Hok2 Hc1) as [Hc2 Hm2]. simpl. rewrite Hm1, Hm2. auto.
    + intros [Hpa Hpb]%andb_true_iff. destruct (Hp1 Hpa) as [-> ->].
      destruct (Hp2 Hpb) as [-> ->]. auto.
  - exists (LParam n), c. level_leaf.
  - exists (LGlobal n), c. level_leaf.
  - destruct (to_blast_meta_level_spec n c) as (l' & c' & H & Hs & _ & _ & Hok).
    exists l', c'. split; [exact H|]. split; [exact Hs|]. split; [|discriminate].
    intros Hc. destruct (Hok Hc) as [Hc' [i ->]]. auto.
  - destruct (to_blast_meta_level_spec (uref_name i) c)
      as (l' & c' & H & Hs & _ & _ & Hok).
    exists l', c'. split; [exact H|]. split; [exact Hs|]. split; [|discriminate].
    intros Hc. destruct (Hok Hc) as [Hc' [j ->]]. auto.
Qed.

(** Once a level has been translated, translating it again in any later
    state gives the same level and changes nothing. *)
Lemma to_blast_level_again l :
  forall c l' c' c'',
    to_blast_level l c = Ok (l', c') ->
    cv_uvar2uref c' ⊆ cv_uvar2uref c'' ->
    to_blast_level l c'' = Ok (l', c'').
Proof.
  assert (Hmeta : forall n c l' c' c'',
            to_blast_meta_level n c = Ok (l', c') ->
            cv_uvar2uref c' ⊆ cv_uvar2uref c'' ->
            to_blast_meta_level n c'' = Ok (l', c'')).
  { intros n c l' c' c'' Hrun Hsub.
    destruct (to_blast_meta_level_spec n c) as (l0 & c0 & H0 & _ & Hin & _).
    rewrite H0 in Hrun. injection Hrun as <- <-.
    unfold to_blast_meta_level, bind, uvar2uref_find.
    rewrite (lookup_weaken _ _ _ _ Hin Hsub). reflexivity. }
  induction l as [|l1 IH1|l1 IH1 l2 IH2|l1 IH1 l2 IH2|n|n|n|i];
    intros c l' c' c''; simpl; try (intros [= <- <-] _; reflexivity);
    try (apply Hmeta).
  - unfold bind. destruct (to_blast_level l1 c) as [[l1' c1]| | |] eqn:H1;
      try discriminate.
    intros [= <- <-] Hsub. rewrite (IH1 _ _ _ _ H1 Hsub). reflexivity.
  - unfold bind. destruct (to_blast_level l1 c) as [[l1' c1]| | |] eqn:H1;
      try discriminate.
    destruct (to_blast_level l2 c1) as [[l2' c2]| | |] eqn:H2; try discriminate.
    intros [= <- <-] Hsub.
    destruct (to_blast_level_spec l2 c1) as (? & ? & H2' & (_ & _ & _ & Hs2 & _) & _).
    rewrite H2 in H2'. injection H2' as <- <-.
    rewrite (IH1 _ _ _ c'' H1 ltac:(etrans; eassumption)).
    rewrite (IH2 _ _ _ c'' H2 Hsub). reflexivity.
  - unfold bind. destruct (to_blast_level l1 c) as [[l1' c1]| | |] eqn:H1;
      try discriminate.
    destruct (to_blast_level l2 c1) as [[l2' c2]| | |] eqn:H2; try discriminate.
    intros [= <- <-] Hsub.
    destruct (to_blast_level_spec l2 c1) as (? & ? & H2' & (_ & _ & _ & Hs2 & _) & _).
    rewrite H2 in H2'. injection H2' as <- <-.
    rewrite (IH1 _ _ _ c'' H1 ltac:(etrans; eassumption)).
    rewrite (IH2 _ _ _ c'' H2 Hsub). reflexivity.
Qed.

(** X1 ([to_blast_level], blast.cpp 223-246). The translation of a universe
    level never fails and never throws; it leaves the blast state, the
    metavariable map and the counter of [mref]s alone, only extends
    [m_uvar2uref] and advances the counter of [uref]s; and a level without
    universe metavariables is returned as it is, with nothing changed. *)
Theorem to_blast_level_total_and_frame (l : level) (c : conv) :
  exists l' c',
    to_blast_level l c = Ok (l', c') /\
    level_step c c' /\
    (level_plain l = true -> l' = l /\ c' = c).
Proof.
  destruct (to_blast_level_spec l c) as (l' & c' & H & Hs & _ & Hp). eauto.
Qed.

(** X2 ([to_blast_level], blast.cpp 223-246). When [m_uvar2uref] holds only
    [uref]s drawn from the counter, one per name, it still does after the
    translation of a level, and the translated level contains no universe
    metavariable of the caller: each has been replaced by a [uref]. *)
Theorem to_blast_level_replaces_metavariables (l l' : level) (c c' : conv) :
  uref_map_ok c ->
  to_blast_level l c = Ok (l', c') ->
  uref_map_ok c' /\ level_no_meta l' = true.
Proof.
  intros Hok Hrun.
  destruct (to_blast_level_spec l c) as (l0 & c0 & H0 & _ & Hinv & _).
  rewrite H0 in Hrun. injection Hrun as <- <-. auto.
Qed.

(** X3 ([to_blast_level], blast.cpp 223-246). The translation is memoized:
    translating the same level again, in the state the first translation
    left or in any state whose [m_uvar2uref] extends it, gives the same
    level and changes nothing. *)
Theorem to_blast_level_memoized (l l' : level) (c c' c'' : conv) :
  to_blast_level l c = Ok (l', c') ->
  cv_uvar2uref c' ⊆ cv_uvar2uref c'' ->
  to_blast_level l c'' = Ok (l', c'').
Proof. apply to_blast_level_again. Qed.

(** X4 ([to_blast_level], blast.cpp 225-236). Two different universe
    metavariables translated one after the other get different [uref]s,
    and the same one gets the same [uref]. *)
Theorem to_blast_level_distinct_urefs (n1 n2 : name) (u1 u2 : level) (c c1 c2 : conv) :
  uref_map_ok c ->
  to_blast_level (LMeta n1) c = Ok (u1, c1) ->
  to_blast_level (LMeta n2) c1 = Ok (u2, c2) ->
  (u1 = u2 <-> n1 = n2).
Proof.
  simpl. intros Hok H1 H2.
  destruct (to_blast_meta_level_spec n1 c) as (a1 & b1 & G1 & _ & Hin1 & _ & Hinv1).
  rewrite G1 in H1. injection H1 as <- <-.
  destruct (to_blast_meta_level_spec n2 b1) as (a2 & b2 & G2 & Hs2 & Hin2 & _ & Hinv2).
  rewrite G2 in H2. injection H2 as <- <-.
  destruct (Hinv1 Hok) as [Hok1 _]. destruct (Hinv2 Hok1) as [[_ Hinj] _].
  destruct Hs2 as (_ & _ & _ & Hsub & _).
  pose proof (lookup_weaken _ _ _ _ Hin1 Hsub) as Hin1'.
  split.
  - intros <-. exact (Hinj _ _ _ Hin1' Hin2).
  - intros <-. congruence.
Qed.

(** A state of the internalizer before anything has been translated. *)
Definition fresh_conv : conv := mk_conv empty_state ∅ ∅ 0 0.

Lemma fresh_conv_uref_map_ok : uref_map_ok fresh_conv.
Proof. split; intros *; cbn; rewrite lookup_empty; discriminate. Qed.

(** The level [max ?u (succ ?v)]. *)
Definition level_max_u_succ_v : level :=
  LMax (LMeta (ext_name "u")) (LSucc (LMeta (ext_name "v"))).

Definition conv_u_v : conv :=
  mk_conv empty_state
    (<[ ext_name "v" := LUref 1 ]> (<[ ext_name "u" := LUref 0 ]> ∅)) ∅ 2 0.

Lemma to_blast_level_max_u_succ_v :
  to_blast_level level_max_u_succ_v fresh_conv
  = Ok (LMax (LUref 0) (LSucc (LUref 1)), conv_u_v).
Proof. reflexivity. Qed.

Lemma to_blast_level_replaces_metavariables_example :
  uref_map_ok conv_u_v /\
  level_no_meta (LMax (LUref 0) (LSucc (LUref 1))) = true.
Proof.
  exact (to_blast_level_replaces_metavariables _ _ _ _
           fresh_conv_uref_map_ok to_blast_level_max_u_succ_v).
Defined.

Lemma to_blast_level_memoized_example :
  to_blast_level level_max_u_succ_v conv_u_v
  = Ok (LMax (LUref 0) (LSucc (LUref 1)), conv_u_v).
Proof.
  apply (to_blast_level_memoized _ _ fresh_conv conv_u_v conv_u_v).
  - exact to_blast_level_max_u_succ_v.
  - reflexivity.
Defined.

Lemma to_blast_level_distinct_urefs_example :
  LUref 0 = LUref 1 <-> ext_name "u" = ext_name "v".
Proof.
  apply (to_blast_level_distinct_urefs (ext_name "u") (ext_name "v")
           (LUref 0) (LUref 1) fresh_conv
           (mk_conv empty_state (<[ ext_name "u" := LUref 0 ]> ∅) ∅ 1 0)
           conv_u_v).
  - exact fresh_conv_uref_map_ok.
  - reflexivity.
  - reflexivity.
Defined.

End LevelFacts.

(* ===================================================================== *)
(** ** The internalizer: what a successful run establishes                *)
(* ===================================================================== *)

Module InternalizeMore.
Import Term State Outcome Internalize LevelFacts.

(** A term of the engine: no metavariable and no local constant of the
    caller is left, and no universe metavariable of the caller. *)
Fixpoint internal (e : expr) : bool :=
  match e with
  | Var _ | Href _ | Mref _ => true
  | Sort l => level_no_meta l
  | Const _ ls => forallb level_no_meta ls
  | Meta _ _ | Local _ _ _ => false
  | App f a => internal f && internal a
  | Lam _ d b _ | Pi _ d b _ => internal d && internal b
  | Macro _ args => forallb internal args
  end.

(** The parts of the blast state that the internalizer never writes. *)
Definition frame (s s' : state) : Prop :=
  m_hyp_decls s' = m_hyp_decls s /\
  m_uassignment s' = m_uassignment s /\
  m_eassignment s' = m_eassignment s /\
  m_target s' = m_target s /\
  m_proof_steps s' = m_proof_steps s.

(** The internalizer only adds: to its two maps, to the metavariable
    declarations of the state, to the two counters. *)
Definition grows (c c' : conv) : Prop :=
  cv_uvar2uref c ⊆ cv_uvar2uref c' /\
  cv_mvar2meta_mref c ⊆ cv_mvar2meta_mref c' /\
  (cv_next_uref c <= cv_next_uref c')%nat /\
  (cv_next_mref c <= cv_next_mref c')%nat /\
  m_metavar_decls (cv_state c) ⊆ m_metavar_decls (cv_state c') /\
  frame (cv_state c) (cv_state c').

Lemma grows_refl c : grows c c.
Proof. repeat split; reflexivity. Qed.

Lemma grows_trans c1 c2 c3 : grows c1 c2 -> grows c2 c3 -> grows c1 c3.
Proof.
  intros (A1 & A2 & A3 & A4 & A5 & B1 & B2 & B3 & B4 & B5)
         (C1 & C2 & C3 & C4 & C5 & D1 & D2 & D3 & D4 & D5).
  repeat split; try congruence; try lia; etrans; eassumption.
Qed.

Lemma level_step_grows c c' : level_step c c' -> grows c c'.
Proof.
  intros (H1 & H2 & H3 & H4 & H5).
  repeat split; rewrite ?H1, ?H2, ?H3; auto; lia.
Qed.

Lemma internal_mk_app args :
  forall f,
    internal f = true -> forallb internal args = true ->
    internal (mk_app f args) = true.
Proof.
  unfold mk_app. induction args as [|a args IH]; intros f Hf Hargs; simpl in *.
  - exact Hf.
  - apply andb_true_iff in Hargs as [Ha Hargs].
    apply IH; [simpl; rewrite Hf, Ha; reflexivity | exact Hargs].
Qed.

Section Invariant.

Variable infer : expr -> expr.
Variable m_local2href : gmap name expr.

(** [to_state] fills [m_local2href] with hypothesis references only. *)
Definition hrefs_only : Prop :=
  map_Forall (fun _ r => is_href r = true) m_local2href.

(** A declaration made by the internalizer: the type is a term of the
    engine and the context consists of hypotheses of the goal. *)
Definition decl_ok (d : metavar_decl) : Prop :=
  internal (md_type d) = true /\
  forall h, h ∈ md_context d -> exists n, m_local2href !! n = Some (Href h).

(** The engine's tables are consistent: universe metavariables as in
    [uref_map_ok]; the declared metavariables lie below the counter and
    are well formed; [m_mvar2meta_mref] maps to declared metavariable
    references, one per name. *)
Definition conv_ok (c : conv) : Prop :=
  uref_map_ok c /\
  (forall i, is_Some (m_metavar_decls (cv_state c) !! i) ->
     (i < cv_next_mref c)%nat) /\
  (forall i d, m_metavar_decls (cv_state c) !! i = Some d -> decl_ok d) /\
  (forall n meta mref,
     cv_mvar2meta_mref c !! n = Some (meta, mref) ->
     exists i, mref = Mref i /\ is_Some (m_metavar_decls (cv_state c) !! i)) /\
  (forall n1 n2 m1 m2 r,
     cv_mvar2meta_mref c !! n1 = Some (m1, r) ->
     cv_mvar2meta_mref c !! n2 = Some (m2, r) -> n1 = n2).

(** A computation of the visitor that keeps the tables consistent, only
    adds to them, and returns a result with [P]. *)
Definition keeps {A : Type} (P : A -> Prop) (m : M A) : Prop :=
  forall c a c',
    conv_ok c -> m c = Ok (a, c') -> conv_ok c' /\ grows c c' /\ P a.

Lemma keeps_ret {A : Type} (P : A -> Prop) (a : A) : P a -> keeps P (ret a).
Proof.
  intros Ha c a' c' Hok [= <- <-]. auto using grows_refl.
Qed.

Lemma keeps_bind {A B : Type} (P : A -> Prop) (Q : B -> Prop) (m : M A) (k : A -> M B) :
  keeps P m -> (forall a, P a -> keeps Q (k a)) -> keeps Q (bind m k).
Proof.
  intros Hm Hk c b c' Hok. unfold bind.
  destruct (m c) as [[a c1]| | |] eqn:Hrun; try discriminate.
  intros Hk'. destruct (Hm _ _ _ Hok Hrun) as (Hok1 & Hg1 & Ha).
  destruct (Hk a Ha _ _ _ Hok1 Hk') as (Hok2 & Hg2 & Hb).
  eauto using grows_trans.
Qed.

Lemma keeps_mapM {A B : Type} (p : B -> bool) (f : A -> M B) (l : list A) :
  (forall a, keeps (fun b => p b = true) (f a)) ->
  keeps (fun bs => forallb p bs = true) (mapM_conv f l).
Proof.
  intros Hf. induction l as [|a l IH]; simpl.
  - apply keeps_ret. reflexivity.
  - eapply keeps_bind; [apply Hf|]. intros b Hb.
    eapply keeps_bind; [apply IH|]. intros bs Hbs.
    apply keeps_ret. simpl. rewrite Hb, Hbs. reflexivity.
Qed.

Lemma keeps_level l : keeps (fun l' => level_no_meta l' = true) (to_blast_level l).
Proof.
  intros c l' c' (Hu & Hfresh & Hdecls & Hmrefs & Hinj) Hrun.
  destruct (to_blast_level_spec l c) as (l0 & c0 & H0 & Hs & Hinv & _).
  rewrite H0 in Hrun. injection Hrun as <- <-.
  destruct (Hinv Hu) as [Hu' Hnm].
  split; [|split; [apply level_step_grows, Hs | exact Hnm]].
  destruct Hs as (H1 & H2 & H3 & _).
  unfold conv_ok. rewrite H1, H2, H3. auto.
Qed.


(** The context that [find_prefix] collects is made of hypotheses that
    [m_local2href] refers to. *)
Lemma find_prefix_context e rest :
  forall seen ctx n ctx',
    find_prefix m_local2href e seen rest ctx = Ok (n, ctx') ->
    (forall h, h ∈ ctx -> exists k, m_local2href !! k = Some (Href h)) ->
    forall h, h ∈ ctx' -> exists k, m_local2href !! k = Some (Href h).
Proof.
  induction rest as [|a rest IH]; intros seen ctx n ctx'; simpl.
  - intros [= <- <-]. auto.
  - destruct (closed a); simpl; [|intros [= <- <-]; auto].
    destruct (is_local a); simpl; [|apply IH].
    destruct (all_of _ seen) as [[|]|]; try discriminate; [|apply IH].
    destruct (mlocal_name a) as [k|]; try discriminate.
    destruct (m_local2href !! k) as [href|] eqn:Hk; try discriminate.
    destruct href; try discriminate. simpl.
    intros Hrun Hctx. eapply IH; [exact Hrun|].
    intros h [Hh|Hh%list_elem_of_singleton]%elem_of_app; [auto|].
    subst h. eauto.
Qed.

Section Methods.

Variable visit : expr -> M expr.
Hypothesis visit_keeps : forall e, keeps (fun e' => internal e' = true) (visit e).

Lemma mk_mref_app_keeps mref args :
  keeps (fun e' => internal e' = true) (mk_mref_app visit mref args).
Proof.
  unfold mk_mref_app. destruct mref; simpl; try (intros c a c' _ H; discriminate H).
  eapply keeps_bind; [apply keeps_mapM, visit_keeps|].
  intros new_args Hargs. apply keeps_ret.
  apply internal_mk_app; [reflexivity | exact Hargs].
Qed.

Lemma visit_meta_app_keeps e :
  keeps (fun e' => internal e' = true) (visit_meta_app infer m_local2href visit e).
Proof.
  intros c a c' Hok. unfold visit_meta_app.
  destruct (is_meta e); simpl; [|discriminate].
  destruct (get_app_args e) as [mvar args].
  destruct (mlocal_name mvar) as [mname|]; [|discriminate].
  unfold bind at 1, mvar2meta_mref_find.
  destruct (cv_mvar2meta_mref c !! mname) as [[meta mref]|] eqn:Hfind.
  - destruct (negb (is_meta meta) || negb (is_mref mref)); [discriminate|].
    destruct (length args <? _)%nat; [discriminate|].
    destruct (negb (prefix_matches _ args)); [discriminate|].
    apply mk_mref_app_keeps, Hok.
  - destruct (find_prefix m_local2href e [] args []) as [[prefix_sz ctx]| | |] eqn:Hpre;
      try discriminate.
    destruct (app_fn_iter _ e) as [aux|]; [|discriminate].
    destruct (negb (is_meta aux)); [discriminate|].
    unfold bind at 1.
    destruct (visit (infer aux) c) as [[type c1]| | |] eqn:Hty; try discriminate.
    destruct (visit_keeps _ _ _ _ Hok Hty) as (Hok1 & Hg1 & Htype).
    unfold bind at 1, state_mk_metavar, mk_metavar.
    unfold bind at 1, mvar2meta_mref_insert. cbn [cv_state cv_uvar2uref
      cv_mvar2meta_mref cv_next_uref cv_next_mref].
    set (c3 := mk_conv _ _ _ _ _). intros Hrun.
    assert (Hctx : forall h, h ∈ ctx -> exists k, m_local2href !! k = Some (Href h)).
    { eapply find_prefix_context; [exact Hpre|]. intros h Hh. inversion Hh. }
    destruct Hok1 as (Hu1 & Hfresh1 & Hdecls1 & Hmrefs1 & Hinj1).
    assert (Hnew : m_metavar_decls (cv_state c1) !! cv_next_mref c1 = None).
    { destruct (m_metavar_decls (cv_state c1) !! cv_next_mref c1) eqn:Hd; [|reflexivity].
      exfalso. assert (cv_next_mref c1 < cv_next_mref c1)%nat; [|lia].
      apply Hfresh1. eauto. }
    assert (Hok3 : conv_ok c3).
    { unfold conv_ok, c3. cbn. split; [exact Hu1|]. split; [|split; [|split]].
      - intros i. rewrite lookup_insert. case_decide; [lia|].
        intros Hi. apply Hfresh1 in Hi. lia.
      - intros i d. rewrite lookup_insert. case_decide.
        + intros [= <-]. split; [exact Htype|]. cbn.
          intros h Hh. apply Hctx. set_solver.
        + apply Hdecls1.
      - intros n meta mref. rewrite lookup_insert. case_decide.
        + intros [= <- <-]. exists (cv_next_mref c1). split; [reflexivity|].
          rewrite lookup_insert_eq. eauto.
        + intros Hn. destruct (Hmrefs1 _ _ _ Hn) as (i & -> & Hi).
          exists i. split; [reflexivity|].
          rewrite lookup_insert. case_decide; eauto.
      - intros n1 n2 m1 m2 r. rewrite !lookup_insert.
        repeat case_decide; subst; try reflexivity.
        + intros [= <- <-] H2. destruct (Hmrefs1 _ _ _ H2) as (i & [= <-] & Hi).
          apply Hfresh1 in Hi. lia.
        + intros H1 [= <- <-]. destruct (Hmrefs1 _ _ _ H1) as (i & [= <-] & Hi).
          apply Hfresh1 in Hi. lia.
        + apply Hinj1. }
    assert (Hg3 : grows c c3).
    { destruct Hg1 as (G1 & G2 & G3 & G4 & G5 & G6).
      unfold grows, c3. cbn. split; [exact G1|]. split; [|split; [|split; [|split]]].
      - apply insert_subseteq_r; assumption.
      - exact G3.
      - lia.
      - apply insert_subseteq_r; [|exact G5].
        destruct (m_metavar_decls (cv_state c) !! cv_next_mref c1) eqn:Hd; [|reflexivity].
        rewrite (lookup_weaken _ _ _ _ Hd G5) in Hnew. discriminate.
      - exact G6. }
    destruct (mk_mref_app_keeps _ _ _ _ _ Hok3 Hrun) as (Hok' & Hg' & Ha).
    eauto using grows_trans.
Qed.

Lemma visit_local_keeps e :
  hrefs_only ->
  keeps (fun e' => internal e' = true) (visit_local m_local2href e).
Proof.
  intros Hl2h. unfold visit_local.
  destruct (mlocal_name e) as [n|]; [|intros c a c' _ H; discriminate H].
  destruct (m_local2href !! n) as [r|] eqn:Hn; [|intros c a c' _ H; discriminate H].
  apply keeps_ret. specialize (Hl2h _ _ Hn). simpl in Hl2h.
  destruct r; try discriminate. reflexivity.
Qed.

End Methods.

Lemma visit_keeps_invariant fuel :
  hrefs_only ->
  forall e, keeps (fun e' => internal e' = true) (visit infer m_local2href fuel e).
Proof.
  intros Hl2h. induction fuel as [|fuel IH]; intros e; [intros c a c' _ H; discriminate H|].
  destruct e; simpl.
  - apply keeps_ret. reflexivity.
  - eapply keeps_bind; [apply keeps_level|]. intros l' Hl'. apply keeps_ret. exact Hl'.
  - eapply keeps_bind; [apply keeps_mapM, keeps_level|].
    intros ls' Hls'. apply keeps_ret. exact Hls'.
  - apply visit_meta_app_keeps, IH.
  - apply visit_local_keeps, Hl2h.
  - apply visit_local_keeps, Hl2h.
  - apply visit_meta_app_keeps, IH.
  - unfold visit_app. destruct (is_meta _); [apply visit_meta_app_keeps, IH|].
    eapply keeps_bind; [apply IH|]. intros f' Hf.
    eapply keeps_bind; [apply IH|]. intros a' Ha.
    apply keeps_ret. simpl. rewrite Hf, Ha. reflexivity.
  - eapply keeps_bind; [apply IH|]. intros d' Hd.
    eapply keeps_bind; [apply IH|]. intros b' Hb.
    apply keeps_ret. simpl. rewrite Hd, Hb. reflexivity.
  - eapply keeps_bind; [apply IH|]. intros d' Hd.
    eapply keeps_bind; [apply IH|]. intros b' Hb.
    apply keeps_ret. simpl. rewrite Hd, Hb. reflexivity.
  - eapply keeps_bind; [apply keeps_mapM, IH|].
    intros args' Hargs. apply keeps_ret. exact Hargs.
Qed.


(** *** A pattern whose arguments are all closed *)

Lemma visit_meta_head fuel e :
  is_meta e = true ->
  visit infer m_local2href (S fuel) e
  = visit_meta_app infer m_local2href (visit infer m_local2href fuel) e.
Proof.
  intros He. destruct e; try discriminate; simpl; try reflexivity.
  unfold visit_app. rewrite He. reflexivity.
Qed.

Lemma find_prefix_all_closed e rest :
  forall seen ctx n ctx',
    forallb closed rest = true ->
    find_prefix m_local2href e seen rest ctx = Ok (n, ctx') ->
    n = (length seen + length rest)%nat.
Proof.
  induction rest as [|a rest IH]; intros seen ctx n ctx'; simpl.
  - intros _ [= <- _]. lia.
  - intros [Ha Hrest]%andb_true_iff. rewrite Ha. simpl.
    assert (Hlen : (length (seen ++ [a]) + length rest
                    = length seen + S (length rest))%nat).
    { rewrite length_app. simpl. lia. }
    destruct (is_local a); simpl.
    + destruct (all_of _ seen) as [[|]|]; try discriminate.
      * destruct (mlocal_name a) as [k|]; try discriminate.
        destruct (m_local2href !! k) as [href|]; try discriminate.
        destruct (href_index href); try discriminate.
        intros Hrun. rewrite <- Hlen. eapply IH; eassumption.
      * intros Hrun. rewrite <- Hlen. eapply IH; eassumption.
    + intros Hrun. rewrite <- Hlen. eapply IH; eassumption.
Qed.

Lemma prefix_matches_refl args : prefix_matches args args = true.
Proof.
  induction args as [|a args IH]; simpl; [reflexivity|].
  destruct (is_local a); simpl.
  - rewrite bool_decide_eq_true_2 by reflexivity. exact IH.
  - rewrite bool_decide_eq_true_2 by reflexivity. exact IH.
Qed.

Lemma closed_pattern_runs fuel fuel' e c r c1 mvar args mname :
  is_meta e = true ->
  get_app_args e = (mvar, args) ->
  mlocal_name mvar = Some mname ->
  cv_mvar2meta_mref c !! mname = None ->
  forallb closed args = true ->
  to_blast_expr infer m_local2href (S fuel) e c = Ok (r, c1) ->
  is_mref r = true /\
  cv_mvar2meta_mref c1 !! mname = Some (e, r) /\
  to_blast_expr infer m_local2href (S fuel') e c1 = Ok (r, c1).
Proof.
  intros He Hargs Hname Hfind Hclosed. unfold to_blast_expr.
  rewrite !visit_meta_head by exact He.
  unfold visit_meta_app. rewrite He, Hargs, Hname. cbn [negb].
  unfold bind at 1, mvar2meta_mref_find. rewrite Hfind.
  destruct (find_prefix m_local2href e [] args []) as [[prefix_sz ctx]| | |] eqn:Hpre;
    try discriminate.
  apply find_prefix_all_closed in Hpre; [|exact Hclosed]. simpl in Hpre. subst prefix_sz.
  rewrite Nat.sub_diag. cbn [app_fn_iter]. rewrite He. cbn [negb].
  unfold bind at 1.
  destruct (visit infer m_local2href fuel (infer e) c) as [[type c0]| | |];
    try discriminate.
  unfold bind at 1, state_mk_metavar, mk_metavar.
  unfold bind at 1, mvar2meta_mref_insert.
  rewrite drop_all. unfold mk_mref_app at 1.
  intros Hrun. cbn in Hrun. revert Hrun.
  intros [= <- <-]. split; [reflexivity|].
  split; [cbn; apply lookup_insert_eq|].
  unfold bind at 1. cbn [cv_mvar2meta_mref].
  rewrite lookup_insert_eq, He. cbn [is_mref negb orb].
  rewrite Hargs. cbn [snd].
  rewrite Nat.ltb_irrefl, prefix_matches_refl. cbn [negb].
  rewrite drop_all. reflexivity.
Qed.

End Invariant.

(** X5 ([to_blast_expr_fn], blast.cpp 215-378). With [m_local2href] filled
    with hypothesis references, a successful internalization keeps the
    engine's tables consistent (every declared metavariable lies below the
    counter, has a type that is a term of the engine and a context made
    of hypotheses of the goal; every metavariable of the goal is mapped to
    a declared metavariable reference of its own) and its result is a term
    of the engine: no metavariable, local constant or universe
    metavariable of the caller is left in it. *)
Theorem to_blast_expr_result_is_internal
    (infer : expr -> expr) (m_local2href : gmap name expr)
    (fuel : nat) (e e' : expr) (c c' : conv) :
  hrefs_only m_local2href ->
  conv_ok m_local2href c ->
  to_blast_expr infer m_local2href fuel e c = Ok (e', c') ->
  conv_ok m_local2href c' /\ internal e' = true.
Proof.
  intros Hl2h Hok Hrun.
  destruct (visit_keeps_invariant infer m_local2href fuel Hl2h e c e' c' Hok Hrun)
    as (Hok' & _ & He'). auto.
Qed.

(** X6 ([to_blast_expr_fn], blast.cpp 215-378). A successful
    internalization only adds: the hypotheses, the assignments, the target
    and the proof steps of the state are as before; every metavariable
    declaration, every entry of [m_uvar2uref] and every entry of
    [m_mvar2meta_mref] that was there is still there, unchanged; the
    counters have not gone back. *)
Theorem to_blast_expr_only_adds
    (infer : expr -> expr) (m_local2href : gmap name expr)
    (fuel : nat) (e e' : expr) (c c' : conv) :
  hrefs_only m_local2href ->
  conv_ok m_local2href c ->
  to_blast_expr infer m_local2href fuel e c = Ok (e', c') ->
  grows c c'.
Proof.
  intros Hl2h Hok Hrun.
  destruct (visit_keeps_invariant infer m_local2href fuel Hl2h e c e' c' Hok Hrun)
    as (_ & Hg & _). exact Hg.
Qed.

(** X7 ([visit_meta_app], blast.cpp 284-341). The first occurrence of a
    metavariable applied to closed arguments only is internalized as a
    bare metavariable reference and recorded; internalizing the same
    application again, in the state the first run left, returns the same
    reference and changes nothing. *)
Theorem closed_pattern_memoized
    (infer : expr -> expr) (m_local2href : gmap name expr)
    (fuel fuel' : nat) (e r mvar : expr) (args : list expr) (mname : name)
    (c c1 : conv) :
  is_meta e = true ->
  get_app_args e = (mvar, args) ->
  mlocal_name mvar = Some mname ->
  cv_mvar2meta_mref c !! mname = None ->
  forallb closed args = true ->
  to_blast_expr infer m_local2href (S fuel) e c = Ok (r, c1) ->
  is_mref r = true /\
  cv_mvar2meta_mref c1 !! mname = Some (e, r) /\
  to_blast_expr infer m_local2href (S fuel') e c1 = Ok (r, c1).
Proof. apply closed_pattern_runs. Qed.

(** *** Terms without metavariables *)

(** No metavariable is visited: the type of a local constant is not. *)
Fixpoint meta_free (e : expr) : bool :=
  match e with
  | Meta _ _ | Mref _ => false
  | Var _ | Sort _ | Const _ _ | Local _ _ _ | Href _ => true
  | App f a => meta_free f && meta_free a
  | Lam _ d b _ | Pi _ d b _ => meta_free d && meta_free b
  | Macro _ args => forallb meta_free args
  end.

Fixpoint height (e : expr) : nat :=
  match e with
  | App f a => S (Nat.max (height f) (height a))
  | Lam _ d b _ | Pi _ d b _ => S (Nat.max (height d) (height b))
  | Macro _ args => S (fold_right (fun a n => Nat.max (height a) n) 0%nat args)
  | _ => 0%nat
  end.

(** The local constants in the order in which the visitor meets them. *)
Fixpoint visited_locals (e : expr) : list expr :=
  match e with
  | Local _ _ _ | Href _ => [e]
  | App f a => visited_locals f ++ visited_locals a
  | Lam _ d b _ | Pi _ d b _ => visited_locals d ++ visited_locals b
  | Macro _ args => flat_map visited_locals args
  | _ => []
  end.

(** A local constant that is no hypothesis of the goal. *)
Definition unmapped (m_local2href : gmap name expr) (l : expr) : bool :=
  match mlocal_name l with
  | Some n => bool_decide (m_local2href !! n = None)
  | None => false
  end.

Lemma meta_free_not_meta e : meta_free e = true -> is_meta e = false.
Proof.
  unfold is_meta, get_app_fn.
  induction e using expr_ind'; simpl; try reflexivity; try discriminate.
  intros [Hf _]%andb_true_iff. specialize (IHe1 Hf).
  destruct (get_app_rev_args e1). exact IHe1.
Qed.

Lemma find_app {A : Type} (p : A -> bool) (l1 l2 : list A) :
  find p (l1 ++ l2) = match find p l1 with Some a => Some a | None => find p l2 end.
Proof.
  induction l1 as [|a l1 IH]; simpl; [reflexivity|].
  destruct (p a); [reflexivity | exact IH].
Qed.

Section MetaFree.

Variable infer : expr -> expr.
Variable m_local2href : gmap name expr.

(** The computation throws for the first of [ls] that is no hypothesis of
    the goal; when there is none it succeeds, and then it has only
    translated universe levels. *)
Definition runs {A : Type} (ls : list expr) (m : M A) : Prop :=
  forall c,
    match find (unmapped m_local2href) ls with
    | Some l => m c = Throw (ill_formed_input_goal l)
    | None => exists a c', m c = Ok (a, c') /\ level_step c c'
    end.

Lemma runs_ret {A : Type} (a : A) : runs [] (ret a).
Proof. intros c. simpl. eauto using level_step_refl. Qed.

Lemma runs_bind {A B : Type} (l1 l2 : list expr) (m : M A) (k : A -> M B) :
  runs l1 m -> (forall a, runs l2 (k a)) -> runs (l1 ++ l2) (bind m k).
Proof.
  intros Hm Hk c. rewrite find_app. unfold bind. specialize (Hm c).
  destruct (find _ l1) as [l|].
  - rewrite Hm. reflexivity.
  - destruct Hm as (a & c1 & -> & Hs1). specialize (Hk a c1).
    destruct (find _ l2) as [l|]; [exact Hk|].
    destruct Hk as (b & c2 & -> & Hs2). eauto using level_step_trans.
Qed.

Lemma runs_then_ret {A B : Type} (ls : list expr) (m : M A) (g : A -> B) :
  runs ls m -> runs ls (let* a := m in ret (g a)).
Proof.
  intros Hm. rewrite <- (app_nil_r ls). apply runs_bind; [exact Hm|].
  intros a. apply runs_ret.
Qed.

Lemma runs_level l : runs [] (to_blast_level l).
Proof.
  intros c. simpl.
  destruct (to_blast_level_spec l c) as (l' & c' & H & Hs & _). eauto.
Qed.

Lemma runs_mapM {A B : Type} (g : A -> list expr) (f : A -> M B) (l : list A) :
  Forall (fun a => runs (g a) (f a)) l ->
  runs (flat_map g l) (mapM_conv f l).
Proof.
  induction 1 as [|a l Ha _ IH]; simpl; [apply runs_ret|].
  apply runs_bind; [exact Ha|]. intros b. apply runs_then_ret, IH.
Qed.

Lemma runs_levels ls : runs [] (mapM_conv to_blast_level ls).
Proof.
  induction ls as [|l ls IH]; simpl; [apply runs_ret|].
  change (@nil expr) with (@nil expr ++ []).
  apply runs_bind; [apply runs_level|]. intros b. apply runs_then_ret, IH.
Qed.

Lemma visit_local_runs e :
  is_local e = true -> runs [e] (visit_local m_local2href e).
Proof.
  intros He c. unfold visit_local, unmapped. simpl.
  destruct e; try discriminate; simpl.
  - destruct (m_local2href !! n) as [r|] eqn:Hn.
    + rewrite bool_decide_eq_false_2 by discriminate.
      exists r, c. split; [reflexivity | apply level_step_refl].
    + rewrite bool_decide_eq_true_2 by reflexivity. reflexivity.
  - destruct (m_local2href !! href_name idx) as [r|] eqn:Hn.
    + rewrite bool_decide_eq_false_2 by discriminate.
      exists r, c. split; [reflexivity | apply level_step_refl].
    + rewrite bool_decide_eq_true_2 by reflexivity. reflexivity.
Qed.

Lemma visit_meta_free fuel :
  forall e,
    meta_free e = true -> (height e < fuel)%nat ->
    runs (visited_locals e) (visit infer m_local2href fuel e).
Proof.
  induction fuel as [|fuel IH]; intros e Hmf Hh; [lia|].
  destruct e; simpl in *; try discriminate.
  - apply runs_ret.
  - apply runs_then_ret, runs_level.
  - apply runs_then_ret, runs_levels.
  - apply visit_local_runs. reflexivity.
  - apply visit_local_runs. reflexivity.
  - unfold visit_app. rewrite (meta_free_not_meta (App e1 e2)) by exact Hmf.
    apply andb_true_iff in Hmf as [H1 H2].
    apply runs_bind; [apply IH; [exact H1 | lia]|]. intros f'.
    apply runs_then_ret, IH; [exact H2 | lia].
  - apply andb_true_iff in Hmf as [H1 H2].
    apply runs_bind; [apply IH; [exact H1 | lia]|]. intros d'.
    apply runs_then_ret, IH; [exact H2 | lia].
  - apply andb_true_iff in Hmf as [H1 H2].
    apply runs_bind; [apply IH; [exact H1 | lia]|]. intros d'.
    apply runs_then_ret, IH; [exact H2 | lia].
  - apply runs_then_ret, runs_mapM.
    apply Nat.succ_lt_mono in Hh.
    induction args as [|a args IHargs]; simpl in *; [constructor|].
    apply andb_true_iff in Hmf as [Ha Hargs].
    constructor; [apply IH; [exact Ha | lia] | apply IHargs; [exact Hargs | lia]].
Qed.

End MetaFree.

(** X8 ([visit_local], [visit_app], [visit_lambda], [visit_pi],
    [visit_macro], [visit_sort], [visit_constant], [visit_var]; blast.cpp
    248-268, 347-371). On a term in which no metavariable is visited, and
    given fuel for its height, the internalization throws the
    ill-formed-input-goal error for the first local constant it meets that
    is no hypothesis of the goal; when there is none it succeeds, and then
    it has only translated universe levels: no metavariable was declared
    and the state is as before. *)
Theorem meta_free_internalization
    (infer : expr -> expr) (m_local2href : gmap name expr)
    (fuel : nat) (e : expr) (c : conv) :
  meta_free e = true ->
  (height e < fuel)%nat ->
  match find (unmapped m_local2href) (visited_locals e) with
  | Some l =>
      to_blast_expr infer m_local2href fuel e c = Throw (ill_formed_input_goal l)
  | None =>
      exists e' c',
        to_blast_expr infer m_local2href fuel e c = Ok (e', c') /\ level_step c c'
  end.
Proof.
  intros Hmf Hh. exact (visit_meta_free infer m_local2href fuel e Hmf Hh c).
Qed.

(** *** The goal [?m x], with [x] the hypothesis 0, and [f x y] *)

Definition hyp_x : expr := Local (ext_name "x") (ext_name "x") (Sort LZero).
Definition local_y : expr := Local (ext_name "y") (ext_name "y") (Sort LZero).
Definition meta_m_x : expr := App (Meta (ext_name "m") (Sort LZero)) hyp_x.
Definition local2href_x : gmap name expr := {[ ext_name "x" := Href 0 ]}.

(** Every type is [Sort ?u]. *)
Definition infer_sort_u (_ : expr) : expr := Sort (LMeta (ext_name "u")).

Definition conv_m_x : conv :=
  match to_blast_expr infer_sort_u local2href_x 3 meta_m_x fresh_conv with
  | Ok (_, c) => c
  | _ => fresh_conv
  end.

Lemma hrefs_only_x : hrefs_only local2href_x.
Proof. apply map_Forall_singleton. reflexivity. Qed.

Lemma conv_ok_fresh l2h : conv_ok l2h fresh_conv.
Proof.
  split; [apply fresh_conv_uref_map_ok|].
  split; [|split; [|split]]; cbn; intros *; rewrite ?lookup_empty;
    try discriminate.
  intros [? [=]].
Qed.

Lemma to_blast_expr_meta_m_x :
  to_blast_expr infer_sort_u local2href_x 3 meta_m_x fresh_conv
  = Ok (Mref 0, conv_m_x).
Proof. vm_compute. reflexivity. Qed.

Lemma to_blast_expr_result_is_internal_example :
  conv_ok local2href_x conv_m_x /\ internal (Mref 0) = true.
Proof.
  exact (to_blast_expr_result_is_internal infer_sort_u local2href_x 3 meta_m_x
           (Mref 0) fresh_conv conv_m_x hrefs_only_x
           (conv_ok_fresh local2href_x) to_blast_expr_meta_m_x).
Defined.

Lemma to_blast_expr_only_adds_example : grows fresh_conv conv_m_x.
Proof.
  exact (to_blast_expr_only_adds infer_sort_u local2href_x 3 meta_m_x
           (Mref 0) fresh_conv conv_m_x hrefs_only_x
           (conv_ok_fresh local2href_x) to_blast_expr_meta_m_x).
Defined.

Lemma closed_pattern_memoized_example :
  is_mref (Mref 0) = true /\
  cv_mvar2meta_mref conv_m_x !! ext_name "m" = Some (meta_m_x, Mref 0) /\
  to_blast_expr infer_sort_u local2href_x 1 meta_m_x conv_m_x
  = Ok (Mref 0, conv_m_x).
Proof.
  apply (closed_pattern_memoized infer_sort_u local2href_x 2 0 meta_m_x (Mref 0)
           (Meta (ext_name "m") (Sort LZero)) [hyp_x] (ext_name "m")
           fresh_conv conv_m_x); reflexivity.
Defined.

Lemma meta_free_internalization_example :
  to_blast_expr infer_sort_u local2href_x 3
    (App (App (Const (ext_name "f") []) hyp_x) local_y) fresh_conv
  = Throw (ill_formed_input_goal local_y).
Proof.
  apply (meta_free_internalization infer_sort_u local2href_x 3
           (App (App (Const (ext_name "f") []) hyp_x) local_y) fresh_conv).
  - reflexivity.
  - simpl. lia.
Defined.

End InternalizeMore.

(* ===================================================================== *)
(** ** [validate_assignment]: what it leaves behind                       *)
(* ===================================================================== *)

Module TctxMore.
Import Term State Engine Tctx TctxFacts.

Lemma narrow_idem C d : narrow C (narrow C d) = narrow C d.
Proof. unfold narrow. simpl. f_equal. set_solver. Qed.


Lemma narrowed_from_self s C : narrowed_from s C ∅ s.
Proof.
  split; [destruct s; reflexivity|]. intros i.
  rewrite decide_False by set_solver. reflexivity.
Qed.

(** The run of [validate_assignment] on a declared [m], in terms of the
    set [M'] of the metavariables whose context it narrowed. *)
Lemma validate_assignment_run t im d locals v :
  m_metavar_decls (curr_state t) !! im = Some d ->
  Forall (fun a => is_mlocal a = true) locals ->
  (forall i, occurs_in (Mref i) v ->
     is_Some (m_metavar_decls (curr_state t) !! i)) ->
  exists ok s' M',
    validate_assignment (Mref im) locals v t = Some (ok, with_curr_state s' t) /\
    narrowed_from (curr_state t) (md_context d) M' s' /\
    (im ∉ M') /\
    (ok = true ->
       (forall i, i ∈ M' <-> occurs_in (Mref i) v) /\
       (forall e, occurs_in e v -> ~ breach d (Mref im) locals e)) /\
    (ok = false -> exists e, occurs_in e v /\ breach d (Mref im) locals e).
Proof.
  intros Hd Hlocals Hdecl.
  unfold validate_assignment, get_metavar_decl. cbn [mref_index]. rewrite Hd.
  destruct (scan_all (curr_state t) im d locals Hd Hlocals v (curr_state t) ∅)
    as (ok & s' & M' & -> & Hs' & Him & Ht & Hf).
  { apply narrowed_from_self. }
  { set_solver. }
  { exact Hdecl. }
  exists ok, s', M'. split; [reflexivity|]. split; [exact Hs'|].
  split; [exact Him|]. split.
  - intros Hok. destruct (Ht Hok) as [HM Hnb]. split.
    + intros i. rewrite HM. split.
      * intros [Hi | (a & [<- | []] & Hocc)]; [set_solver | exact Hocc].
      * intros Hocc. right. exists v. split; [left; reflexivity | exact Hocc].
    + intros e Hocc. apply (Hnb e v); [left; reflexivity | exact Hocc].
  - intros Hok. destruct (Hf Hok) as (e & a & [<- | []] & Hocc & Hb). eauto.
Qed.

(** X9 ([validate_assignment], blast.cpp 132-168). Whatever it answers,
    [validate_assignment] writes nothing but contexts of metavariable
    declarations: the snapshot stack, the options, the choice points and
    every other part of the state (assignments included) are as before;
    no declaration is added or removed; the declaration of [m] itself is
    untouched; and any other declaration is either untouched or has its
    context narrowed to the intersection with the context of [m], its
    type unchanged. *)
Theorem validate_assignment_only_narrows
    (t t' : tctx) (im : nat) (d : metavar_decl) (locals : list expr)
    (v : expr) (ok : bool) :
  m_metavar_decls (curr_state t) !! im = Some d ->
  Forall (fun a => is_mlocal a = true) locals ->
  (forall i, occurs_in (Mref i) v ->
     is_Some (m_metavar_decls (curr_state t) !! i)) ->
  validate_assignment (Mref im) locals v t = Some (ok, t') ->
  t' = with_curr_state
         (set_metavar_decls (m_metavar_decls (curr_state t')) (curr_state t)) t /\
  m_metavar_decls (curr_state t') !! im = Some d /\
  forall i,
    match m_metavar_decls (curr_state t) !! i with
    | Some di =>
        exists di',
          m_metavar_decls (curr_state t') !! i = Some di' /\
          md_type di' = md_type di /\
          md_context di' ⊆ md_context di /\
          (di' = di \/ di' = narrow (md_context d) di)
    | None => m_metavar_decls (curr_state t') !! i = None
    end.
Proof.
  intros Hd Hlocals Hdecl Hrun.
  destruct (validate_assignment_run t im d locals v Hd Hlocals Hdecl)
    as (ok0 & s' & M' & Hrun0 & [Heq Hs'] & Him & _).
  rewrite Hrun0 in Hrun. injection Hrun as <- <-.
  change (curr_state (with_curr_state s' t)) with s'.
  split; [rewrite <- Heq; reflexivity|]. split.
  - rewrite Hs', decide_False by exact Him. exact Hd.
  - intros i. rewrite Hs'.
    destruct (m_metavar_decls (curr_state t) !! i) as [di|];
      destruct (decide (i ∈ M')); simpl; try reflexivity.
    + exists (narrow (md_context d) di). split; [reflexivity|].
      split; [reflexivity|]. split; [simpl; set_solver | right; reflexivity].
    + exists di. split; [reflexivity|]. split; [reflexivity|].
      split; [reflexivity | left; reflexivity].
Qed.

(** X10 ([validate_assignment], blast.cpp 132-168). An accepted
    validation is stable: once [validate_assignment(m, locals, v)] has
    answered [true], asking again in the state it left answers [true] and
    leaves that state as it is. *)
Theorem validate_assignment_idempotent
    (t t' : tctx) (im : nat) (d : metavar_decl) (locals : list expr) (v : expr) :
  m_metavar_decls (curr_state t) !! im = Some d ->
  Forall (fun a => is_mlocal a = true) locals ->
  (forall i, occurs_in (Mref i) v ->
     is_Some (m_metavar_decls (curr_state t) !! i)) ->
  validate_assignment (Mref im) locals v t = Some (true, t') ->
  validate_assignment (Mref im) locals v t' = Some (true, t').
Proof.
  intros Hd Hlocals Hdecl Hrun.
  destruct (validate_assignment_run t im d locals v Hd Hlocals Hdecl)
    as (ok0 & s' & M' & Hrun0 & [Heq Hs'] & Him & Ht & _).
  rewrite Hrun0 in Hrun. injection Hrun as -> <-.
  destruct (Ht eq_refl) as [HM' Hnb].
  assert (Hd' : m_metavar_decls (curr_state (with_curr_state s' t)) !! im = Some d).
  { change (curr_state (with_curr_state s' t)) with s'.
    rewrite Hs', decide_False by exact Him. exact Hd. }
  assert (Hdecl' : forall i, occurs_in (Mref i) v ->
            is_Some (m_metavar_decls (curr_state (with_curr_state s' t)) !! i)).
  { intros i Hocc. change (curr_state (with_curr_state s' t)) with s'.
    rewrite Hs'. destruct (Hdecl i Hocc) as [di ->].
    destruct (decide (i ∈ M')); simpl; eauto. }
  destruct (validate_assignment_run (with_curr_state s' t) im d locals v
              Hd' Hlocals Hdecl')
    as (ok2 & s2 & M2 & Hrun2 & [Heq2 Hs2] & Him2 & Ht2 & Hf2).
  rewrite Hrun2.
  destruct ok2.
  - destruct (Ht2 eq_refl) as [HM2 _].
    assert (Hsame : s2 = s').
    { change (curr_state (with_curr_state s' t)) with s' in Heq2, Hs2.
      rewrite Heq2. replace (m_metavar_decls s2) with (m_metavar_decls s');
        [destruct s'; reflexivity|].
      apply map_eq. intros i. rewrite Hs2.
      destruct (decide (i ∈ M2)) as [Hi|Hi]; [|reflexivity].
      rewrite Hs'. rewrite decide_True by (apply HM', HM2, Hi).
      destruct (m_metavar_decls (curr_state t) !! i); simpl; [|reflexivity].
      rewrite narrow_idem. reflexivity. }
    rewrite Hsame. destruct t as [[] ?]. reflexivity.
  - exfalso. destruct (Hf2 eq_refl) as (e & Hocc & Hb). exact (Hnb e Hocc Hb).
Qed.

Definition state_two_mvars : state :=
  set_metavar_decls
    (<[ 0%nat := mk_metavar_decl {[ 0%nat ]} (Sort LZero) ]>
       (<[ 1%nat := mk_metavar_decl {[ 0%nat; 1%nat ]} (Sort LZero) ]> ∅))
    empty_state.

Definition tctx_two_mvars : tctx :=
  mk_tctx (mk_blastenv state_two_mvars [] 128 1 5) [].

Definition decl_m0 : metavar_decl := mk_metavar_decl {[ 0%nat ]} (Sort LZero).

Definition tctx_validated : tctx :=
  match validate_assignment (Mref 0) [] (App (Mref 1) (Href 0)) tctx_two_mvars with
  | Some (_, t') => t'
  | None => tctx_two_mvars
  end.

Lemma occurs_in_mref1_href0 i :
  occurs_in (Mref i) (App (Mref 1) (Href 0)) -> i = 1%nat.
Proof.
  intros Hocc. apply occurs_in_children in Hocc.
  destruct Hocc as [[=] | (a & [<- | [<- | []]] & Ha)];
    apply occurs_in_children in Ha; destruct Ha as [[= ->] | (c & [] & _)].
  reflexivity.
Qed.

Lemma validate_assignment_only_narrows_example :
  tctx_validated
  = with_curr_state
      (set_metavar_decls (m_metavar_decls (curr_state tctx_validated))
         (curr_state tctx_two_mvars)) tctx_two_mvars /\
  m_metavar_decls (curr_state tctx_validated) !! 0%nat = Some decl_m0 /\
  forall i,
    match m_metavar_decls (curr_state tctx_two_mvars) !! i with
    | Some di =>
        exists di',
          m_metavar_decls (curr_state tctx_validated) !! i = Some di' /\
          md_type di' = md_type di /\
          md_context di' ⊆ md_context di /\
          (di' = di \/ di' = narrow (md_context decl_m0) di)
    | None => m_metavar_decls (curr_state tctx_validated) !! i = None
    end.
Proof.
  apply (validate_assignment_only_narrows tctx_two_mvars tctx_validated 0 decl_m0
           [] (App (Mref 1) (Href 0)) true).
  - reflexivity.
  - constructor.
  - intros i ->%occurs_in_mref1_href0. eexists. reflexivity.
  - vm_compute. reflexivity.
Defined.

Lemma validate_assignment_idempotent_example :
  validate_assignment (Mref 0) [] (App (Mref 1) (Href 0)) tctx_validated
  = Some (true, tctx_validated).
Proof.
  apply (validate_assignment_idempotent tctx_two_mvars tctx_validated 0 decl_m0).
  - reflexivity.
  - constructor.
  - intros i ->%occurs_in_mref1_href0. eexists. reflexivity.
  - vm_compute. reflexivity.
Defined.

End TctxMore.

(* ===================================================================== *)
(** ** The driver: what [resolve], [search_upto] and [search] leave       *)
(* ===================================================================== *)

Module DriverMore.
Import Term State Engine Driver DriverFacts.

(** The engine after [k] proof steps were popped from the current state. *)
Definition popped (k : nat) (b : blastenv) : blastenv :=
  set_curr_state
    (set_proof_steps (drop k (m_proof_steps (m_curr_state b))) (m_curr_state b)) b.

Lemma popped_zero b : popped 0 b = b.
Proof. destruct b as [[] ? ? ? ?]. reflexivity. Qed.

Lemma popped_succ k b :
  popped (S k) b = popped k (set_curr_state (pop_proof_step (m_curr_state b)) b).
Proof.
  unfold popped, pop_proof_step. destruct b as [[? ? ? ? ? steps] ? ? ? ?].
  cbn. destruct steps; cbn; [rewrite drop_nil|]; reflexivity.
Qed.

Section Facts.

Variable intros_action : state -> bool * state.
Variable activate_hypothesis : state -> option nat * state.
Variable assumption_action : state -> option expr * state.
Variable step_resolve : proof_step -> state -> expr -> option expr.

Local Abbreviation next_action :=
  (next_action intros_action activate_hypothesis assumption_action).
Local Abbreviation resolve_loop := (resolve_loop step_resolve).
Local Abbreviation resolve := (resolve step_resolve).
Local Abbreviation search_upto_body :=
  (search_upto_body intros_action activate_hypothesis assumption_action step_resolve).
Local Abbreviation search_upto :=
  (search_upto intros_action activate_hypothesis assumption_action step_resolve).
Local Abbreviation search_loop :=
  (search_loop intros_action activate_hypothesis assumption_action step_resolve).
Local Abbreviation search :=
  (search intros_action activate_hypothesis assumption_action step_resolve).

Lemma resolve_loop_pops fuel :
  forall b pr r b',
    resolve_loop fuel b pr = Some (r, b') ->
    exists k,
      b' = popped k b /\
      match r with
      | Some _ => k = length (m_proof_steps (m_curr_state b))
      | None => (k < length (m_proof_steps (m_curr_state b)))%nat
      end.
Proof.
  induction fuel as [|fuel IH]; intros b pr r b'; simpl;
    unfold has_proof_steps, top_proof_step;
    destruct (m_proof_steps (m_curr_state b)) as [|s rest] eqn:Hst;
    simpl; try discriminate.
  - intros [= <- <-]. exists 0%nat. rewrite popped_zero. auto.
  - intros [= <- <-]. exists 0%nat. rewrite popped_zero. auto.
  - destruct (step_resolve s (m_curr_state b) pr) as [new_pr|].
    + intros Hrun. destruct (IH _ _ _ _ Hrun) as (k & -> & Hk).
      exists (S k). rewrite popped_succ. split; [reflexivity|].
      cbn in Hk. rewrite Hst in Hk. cbn in Hk. destruct r; lia.
    + intros [= <- <-]. exists 0%nat. rewrite popped_zero. split; [reflexivity|lia].
Qed.

(** *** Choice points are only consumed *)

Lemma next_choice_point_consumes b ok b' :
  next_choice_point b = (ok, b') ->
  m_choice_points b' `suffix_of` m_choice_points b /\
  (ok = false -> m_choice_points b' = []).
Proof.
  unfold next_choice_point. destruct (m_choice_points b) as [|s cps] eqn:Hcps.
  - intros [= <- <-]. rewrite Hcps. split; [reflexivity | auto].
  - intros [= <- <-]. cbn. split; [apply suffix_cons_r; reflexivity | discriminate].
Qed.

Lemma next_action_choice_points b st b' :
  next_action b = (st, b') -> m_choice_points b' = m_choice_points b.
Proof.
  unfold Driver.next_action.
  destruct (intros_action (m_curr_state b)) as [[] s1].
  { intros [= <- <-]. reflexivity. }
  destruct (activate_hypothesis s1) as [[hidx|] s2].
  { intros [= <- <-]. reflexivity. }
  destruct (assumption_action s2) as [[p|] s3]; intros [= <- <-]; reflexivity.
Qed.

Lemma search_upto_body_consumes d b it :
  search_upto_body d b = Some it ->
  match it with
  | Return r b' =>
      m_choice_points b' `suffix_of` m_choice_points b /\
      match r with
      | Some _ => has_proof_steps (m_curr_state b') = false
      | None => m_choice_points b' = []
      end
  | Again b' => m_choice_points b' `suffix_of` m_choice_points b
  end.
Proof.
  unfold Driver.search_upto_body.
  assert (Hact : forall b1, m_choice_points b1 `suffix_of` m_choice_points b ->
    (let '(st, b2) := next_action b1 in
     match st with
     | NoAction =>
         let '(ok, b3) := next_choice_point b2 in
         if ok then Some (Again b3) else Some (Return None b3)
     | ClosedBranch pr =>
         match resolve b2 pr with
         | None => None
         | Some (Some r, b3) => Some (Return (Some r) b3)
         | Some (None, b3) => Some (Again b3)
         end
     | Continue => Some (Again b2)
     end) = Some it ->
    match it with
    | Return r b' =>
        m_choice_points b' `suffix_of` m_choice_points b /\
        match r with
        | Some _ => has_proof_steps (m_curr_state b') = false
        | None => m_choice_points b' = []
        end
    | Again b' => m_choice_points b' `suffix_of` m_choice_points b
    end).
  { intros b1 Hb1.
    destruct (next_action b1) as [st b2] eqn:Hna.
    apply next_action_choice_points in Hna. rewrite <- Hna in Hb1.
    destruct st as [|pr|].
    - destruct (next_choice_point b2) as [ok b3] eqn:Hcp.
      apply next_choice_point_consumes in Hcp as [Hsuf Hemp].
      destruct ok; intros [= <-].
      + etrans; eassumption.
      + split; [etrans; eassumption | auto].
    - destruct (resolve b2 pr) as [[[r|] b3]|] eqn:Hres; [| |discriminate].
      + intros [= <-].
        pose proof (resolve_loop_final _ _ _ _ _ _ Hres) as Hfin.
        apply resolve_loop_pops in Hres as (k & -> & _). auto.
      + intros [= <-]. apply resolve_loop_pops in Hres as (k & -> & _). exact Hb1.
    - intros [= <-]. exact Hb1. }
  destruct (get_proof_depth (m_curr_state b) >? d).
  - destruct (next_choice_point b) as [ok b1] eqn:Hcp.
    apply next_choice_point_consumes in Hcp as [Hsuf Hemp].
    destruct ok; [apply Hact; exact Hsuf | intros [= <-]; auto].
  - apply Hact. reflexivity.
Qed.

Lemma search_upto_consumes fuel :
  forall d b r b',
    search_upto fuel d b = Some (r, b') ->
    m_choice_points b' `suffix_of` m_choice_points b /\
    match r with
    | Some _ => has_proof_steps (m_curr_state b') = false
    | None => m_choice_points b' = []
    end.
Proof.
  induction fuel as [|fuel IH]; intros d b r b'; simpl; [discriminate|].
  destruct (search_upto_body d b) as [[r0 b0|b0]|] eqn:Hbody; [| |discriminate];
    apply search_upto_body_consumes in Hbody.
  - intros [= <- <-]. exact Hbody.
  - intros H. apply IH in H as [Hsuf Hr]. split; [etrans; eassumption | exact Hr].
Qed.

Lemma search_loop_result fuel :
  forall s d b r b',
    search_loop fuel s d b = Some (r, b') ->
    same_options b b' /\
    match r with
    | Some _ => has_proof_steps (m_curr_state b') = false
    | None => b' = b \/ b' = reset_env s b
    end.
Proof.
  induction fuel as [|fuel IH]; intros s d b r b'; simpl; [discriminate|].
  destruct (d <=? m_max_depth b).
  - destruct (search_upto fuel d b) as [[[pr|] b1]|] eqn:Hup; [| |discriminate].
    + intros [= <- <-]. split; [eapply search_upto_same_options; exact Hup|].
      apply search_upto_consumes in Hup. apply Hup.
    + intros Hrun. pose proof (search_upto_same_options _ _ _ _ _ _ _ _ _ Hup) as Hopt.
      apply IH in Hrun as [Hopt' Hr].
      fold (reset_env s b1) in Hopt', Hr.
      rewrite (reset_env_same_options s b b1 Hopt) in Hopt', Hr. split.
      * eapply same_options_trans; [|exact Hopt']. repeat split.
      * destruct r; [exact Hr|]. right. destruct Hr as [-> | ->]; reflexivity.
  - intros [= <- <-]. split; [apply same_options_refl | left; reflexivity].
Qed.

End Facts.


(** X12 ([search_upto], [next_choice_point], blast.cpp 419-425, 460-482).
    [search_upto] only consumes choice points: the ones it leaves are a
    suffix of the ones it found. It returns none only when no choice point
    is left, and it returns a proof only when no proof step is pending. *)
Theorem search_upto_consumes_choice_points
    (intros_action : state -> bool * state)
    (activate_hypothesis : state -> option nat * state)
    (assumption_action : state -> option expr * state)
    (step_resolve : proof_step -> state -> expr -> option expr)
    (fuel : nat) (d : Z) (b b' : blastenv) (r : option expr) :
  search_upto intros_action activate_hypothesis assumption_action step_resolve
    fuel d b = Some (r, b') ->
  m_choice_points b' `suffix_of` m_choice_points b /\
  match r with
  | Some _ => has_proof_steps (m_curr_state b') = false
  | None => m_choice_points b' = []
  end.
Proof. apply search_upto_consumes. Qed.

(** X13 ([search], blast.cpp 484-495). [search] never changes the options.
    When it returns a proof, no proof step is pending in the state it
    leaves. When it returns none, the engine is the one it found, or the
    one it found with the choice points cleared: the current state is the
    initial one again. *)
Theorem search_result_state
    (intros_action : state -> bool * state)
    (activate_hypothesis : state -> option nat * state)
    (assumption_action : state -> option expr * state)
    (step_resolve : proof_step -> state -> expr -> option expr)
    (fuel : nat) (b b' : blastenv) (r : option expr) :
  search intros_action activate_hypothesis assumption_action step_resolve
    fuel b = Some (r, b') ->
  same_options b b' /\
  match r with
  | Some _ => has_proof_steps (m_curr_state b') = false
  | None => b' = b \/ b' = set_choice_points [] b
  end.
Proof.
  intros Hrun. apply search_loop_result in Hrun as [Hopt Hr].
  split; [exact Hopt|]. destruct r; [exact Hr|].
  destruct Hr as [-> | ->]; [left; reflexivity | right].
  destruct b. reflexivity.
Qed.

(** *** A small engine: two pending steps, one choice point *)

(** The resolver of step 0 wraps the proof; any other step refuses. *)
Definition resolve_cell_0 (s : proof_step) (_ : state) (pr : expr) : option expr :=
  if bool_decide (ps_cell s = 0%nat) then Some (App (Const (ext_name "step") []) pr)
  else None.

Definition idle_intros (s : state) : bool * state := (false, s).
Definition idle_activate (s : state) : option nat * state := (None, s).

(** [assumption_action] closes a branch whose target is [Sort LZero]. *)
Definition assumption_on_sort (s : state) : option expr * state :=
  if bool_decide (m_target s = Sort LZero)
  then (Some (Const (ext_name "trivial") []), s) else (None, s).

Definition state_steps_0_1 : state :=
  set_proof_steps [mk_proof_step 0; mk_proof_step 1]
    (set_target (Const (ext_name "q") []) empty_state).

(** The current state has the steps 0 and 1 and a target that
    [assumption_on_sort] does not close; the choice point has the target
    [Sort LZero] and no step. *)
Definition env_steps_0_1 : blastenv :=
  mk_blastenv state_steps_0_1 [empty_state] 128 1 5.


Lemma search_upto_consumes_choice_points_example :
  [] `suffix_of` [empty_state] /\ has_proof_steps empty_state = false.
Proof.
  exact (search_upto_consumes_choice_points idle_intros idle_activate
           assumption_on_sort resolve_cell_0 3 1 env_steps_0_1
           (mk_blastenv empty_state [] 128 1 5)
           (Some (Const (ext_name "trivial") [])) eq_refl).
Defined.

Lemma search_result_state_example :
  same_options (set_choice_points [] env_steps_0_1)
               (set_choice_points [] env_steps_0_1) /\
  (set_choice_points [] env_steps_0_1 = set_choice_points [] env_steps_0_1 \/
   set_choice_points [] env_steps_0_1
   = set_choice_points [] (set_choice_points [] env_steps_0_1)).
Proof.
  exact (search_result_state idle_intros idle_activate assumption_on_sort
           resolve_cell_0 100 (set_choice_points [] env_steps_0_1)
           (set_choice_points [] env_steps_0_1)
           None ltac:(vm_compute; reflexivity)).
Defined.

End DriverMore.

(* ===================================================================== *)
(** ** The externalizer on proofs without metavariables                   *)
(* ===================================================================== *)

Module ExternalizeMore.
Import Term State Outcome Externalize.

(** No metavariable, of the caller or of the engine, anywhere. *)
Fixpoint no_metavars (e : expr) : bool :=
  match e with
  | Meta _ _ | Mref _ => false
  | Var _ | Sort _ | Const _ _ | Href _ => true
  | Local _ _ ty => no_metavars ty
  | App f a => no_metavars f && no_metavars a
  | Lam _ d b _ | Pi _ d b _ => no_metavars d && no_metavars b
  | Macro _ args => forallb no_metavars args
  end.

(** No metavariable and no hypothesis reference anywhere. *)
Fixpoint no_refs (e : expr) : bool :=
  match e with
  | Meta _ _ | Mref _ | Href _ => false
  | Var _ | Sort _ | Const _ _ => true
  | Local _ _ ty => no_refs ty
  | App f a => no_refs f && no_refs a
  | Lam _ d b _ | Pi _ d b _ => no_refs d && no_refs b
  | Macro _ args => forallb no_refs args
  end.

(** The depth of a term, the type of a local constant counted in. *)
Fixpoint depth (e : expr) : nat :=
  match e with
  | Meta _ ty | Local _ _ ty => S (depth ty)
  | App f a => S (Nat.max (depth f) (depth a))
  | Lam _ d b _ | Pi _ d b _ => S (Nat.max (depth d) (depth b))
  | Macro _ args => S (fold_right (fun a n => Nat.max (depth a) n) 0%nat args)
  | _ => 0%nat
  end.

(** The hypothesis [i] is declared and carries no value. *)
Definition unvalued (s : state) (i : nat) : Prop :=
  exists h, m_hyp_decls s !! i = Some h /\ h_value h = None.

Lemma omap_ok {A B : Type} (f : A -> outcome B) (P : A -> Prop) (Q : B -> Prop) l :
  (forall a b, P a -> f a = Ok b -> Q b) ->
  forall l', Forall P l -> omap f l = Ok l' -> Forall Q l'.
Proof.
  intros Hf. induction l as [|a l IH]; intros l' Hl; simpl.
  - intros [= <-]. constructor.
  - apply Forall_cons in Hl as [Ha Hl].
    destruct (f a) as [b| | |] eqn:Hb; try discriminate. simpl.
    destruct (omap f l) as [bs| | |]; try discriminate. simpl.
    intros [= <-]. constructor; [eapply Hf; eassumption | apply IH; auto].
Qed.

Lemma omap_id {A : Type} (f : A -> outcome A) l :
  Forall (fun a => f a = Ok a) l -> omap f l = Ok l.
Proof.
  induction 1 as [|a l Ha _ IH]; simpl; [reflexivity|].
  rewrite Ha. simpl. rewrite IH. reflexivity.
Qed.

Lemma hrefs_of_macro (P : nat -> Prop) def args :
  Forall (fun a => forall i, i ∈ hrefs_of a -> P i) args ->
  forall i, i ∈ hrefs_of (Macro def args) -> P i.
Proof.
  simpl. induction 1 as [|a l Ha _ IH]; simpl; intros i Hi; [set_solver|].
  apply elem_of_union in Hi as [Hi|Hi]; auto.
Qed.

Section Facts.

Variable m_state : state.

(** The values of the hypotheses contain no metavariable. *)
Hypothesis values_no_metavars :
  forall i h v,
    m_hyp_decls m_state !! i = Some h -> h_value h = Some v ->
    no_metavars v = true.

Lemma visit_unvalued_hrefs fuel :
  forall e e',
    no_metavars e = true ->
    visit m_state fuel e = Ok e' ->
    forall i, i ∈ hrefs_of e' -> unvalued m_state i.
Proof.
  induction fuel as [|fuel IH]; intros e e' Hnm; simpl; [discriminate|].
  destruct e; simpl in Hnm |- *; try discriminate.
  - intros [= <-]. set_solver.
  - intros [= <-]. set_solver.
  - intros [= <-]. set_solver.
  - unfold visit_local. simpl.
    destruct (visit m_state fuel e) as [ty'| | |] eqn:Hty; try discriminate. simpl.
    intros [= <-]. simpl. eapply IH; eassumption.
  - unfold visit_local, get_hypothesis_decl. simpl.
    destruct (m_hyp_decls m_state !! idx) as [h|] eqn:Hh; [|discriminate].
    destruct (h_value h) as [r|] eqn:Hv.
    + apply IH. eapply values_no_metavars; eassumption.
    + intros [= <-]. simpl. intros i ->%elem_of_singleton. exists h. auto.
  - apply andb_true_iff in Hnm as [H1 H2].
    destruct (visit m_state fuel e1) as [f'| | |] eqn:Hf; try discriminate. simpl.
    destruct (visit m_state fuel e2) as [a'| | |] eqn:Ha; try discriminate. simpl.
    intros [= <-]. simpl. intros i [Hi|Hi]%elem_of_union;
      [eapply (IH e1) | eapply (IH e2)]; eassumption.
  - apply andb_true_iff in Hnm as [H1 H2].
    destruct (visit m_state fuel e1) as [f'| | |] eqn:Hf; try discriminate. simpl.
    destruct (visit m_state fuel e2) as [a'| | |] eqn:Ha; try discriminate. simpl.
    intros [= <-]. simpl. intros i [Hi|Hi]%elem_of_union;
      [eapply (IH e1) | eapply (IH e2)]; eassumption.
  - apply andb_true_iff in Hnm as [H1 H2].
    destruct (visit m_state fuel e1) as [f'| | |] eqn:Hf; try discriminate. simpl.
    destruct (visit m_state fuel e2) as [a'| | |] eqn:Ha; try discriminate. simpl.
    intros [= <-]. simpl. intros i [Hi|Hi]%elem_of_union;
      [eapply (IH e1) | eapply (IH e2)]; eassumption.
  - destruct (omap (visit m_state fuel) args) as [args'| | |] eqn:Hargs;
      try discriminate. simpl.
    intros [= <-]. apply hrefs_of_macro.
    eapply (omap_ok _ (fun a => no_metavars a = true)); [| |exact Hargs].
    + intros a b Ha Hb. eapply IH; eassumption.
    + apply Forall_forall. intros a Ha.
      rewrite forallb_forall in Hnm. apply Hnm, list_elem_of_In, Ha.
Qed.

End Facts.

Lemma visit_no_refs s fuel :
  forall e,
    no_refs e = true -> (depth e < fuel)%nat -> visit s fuel e = Ok e.
Proof.
  induction fuel as [|fuel IH]; intros e Hnr Hd; [lia|].
  destruct e; simpl in *; try discriminate; try reflexivity.
  - unfold visit_local. simpl. rewrite IH by (auto; lia). reflexivity.
  - apply andb_true_iff in Hnr as [H1 H2].
    rewrite !IH by (auto; lia). reflexivity.
  - apply andb_true_iff in Hnr as [H1 H2].
    rewrite !IH by (auto; lia). reflexivity.
  - apply andb_true_iff in Hnr as [H1 H2].
    rewrite !IH by (auto; lia). reflexivity.
  - rewrite omap_id; [reflexivity|].
    apply Nat.succ_lt_mono in Hd.
    induction args as [|a args IHargs]; simpl in *; [constructor|].
    apply andb_true_iff in Hnr as [Ha Hargs].
    constructor; [apply IH; [exact Ha | lia] | apply IHargs; [exact Hargs | lia]].
Qed.

(** X14 ([to_tactic_proof_fn::visit_local], [to_tactic_proof], blast.cpp
    497-534). For a proof without metavariables, in a state whose
    hypothesis values have none, the hypothesis references left in the
    externalized proof are exactly of one kind: declared hypotheses that
    carry no value. Every reference to a hypothesis with a value is gone. *)
Theorem to_tactic_proof_leaves_unvalued_hrefs
    (s : state) (fuel : nat) (pr pr' : expr) :
  (forall i h v,
     m_hyp_decls s !! i = Some h -> h_value h = Some v -> no_metavars v = true) ->
  no_metavars pr = true ->
  to_tactic_proof fuel s pr = Ok pr' ->
  forall i, i ∈ hrefs_of pr' -> unvalued s i.
Proof.
  intros Hvals Hpr Hrun. exact (visit_unvalued_hrefs s Hvals fuel pr pr' Hpr Hrun).
Qed.

(** X15 ([to_tactic_proof_fn], [to_tactic_proof], blast.cpp 497-534). A
    proof in which no hypothesis reference and no metavariable occurs is
    returned as it is, whatever the state, given fuel for its depth. *)
Theorem to_tactic_proof_identity (s : state) (fuel : nat) (pr : expr) :
  no_refs pr = true ->
  (depth pr < fuel)%nat ->
  to_tactic_proof fuel s pr = Ok pr.
Proof. apply visit_no_refs. Qed.

(** *** Two hypotheses: [h0] with the value [c], [h1] without a value *)

Definition const_c : expr := Const (ext_name "c") [].

Definition state_h0_h1 : state :=
  mk_state
    (<[ 0%nat := mk_hypothesis_decl (ext_name "h0") (Sort LZero) (Some const_c)
                   (Local (ext_name "h0") (ext_name "h0") (Sort LZero)) ]>
       (<[ 1%nat := mk_hypothesis_decl (ext_name "h1") (Sort LZero) None
                      (Local (ext_name "h1") (ext_name "h1") (Sort LZero)) ]> ∅))
    ∅ [] [] (Sort LZero) [].

Lemma state_h0_h1_values i h v :
  m_hyp_decls state_h0_h1 !! i = Some h -> h_value h = Some v ->
  no_metavars v = true.
Proof.
  cbn. rewrite lookup_insert. case_decide.
  - intros [= <-] [= <-]. reflexivity.
  - rewrite lookup_insert. case_decide; [|rewrite lookup_empty; discriminate].
    intros [= <-] [=].
Qed.

Lemma to_tactic_proof_leaves_unvalued_hrefs_example :
  to_tactic_proof 3 state_h0_h1 (App (Href 0) (Href 1)) = Ok (App const_c (Href 1)) /\
  unvalued state_h0_h1 1.
Proof.
  split; [reflexivity|].
  apply (to_tactic_proof_leaves_unvalued_hrefs state_h0_h1 3
           (App (Href 0) (Href 1)) (App const_c (Href 1))
           state_h0_h1_values eq_refl eq_refl 1%nat).
  simpl. set_solver.
Defined.

Lemma to_tactic_proof_identity_example :
  to_tactic_proof 2 state_h0_h1 (App const_c (Var 0)) = Ok (App const_c (Var 0)).
Proof.
  apply (to_tactic_proof_identity state_h0_h1 2 (App const_c (Var 0))).
  - reflexivity.
  - simpl. lia.
Defined.

End ExternalizeMore.

(* ===================================================================== *)
(** ** [scope_assignment]                                                 *)
(* ===================================================================== *)

Module ScopeAssignment.
Import Term State Engine Tctx TctxFacts.

(** [class scope_assignment]: the object holds [m_keep]; the facade it
    works on is the one of the engine in [g_blastenv]. *)
Record scope_assignment := mk_scope { m_keep : bool }.

(** The constructor: [m_keep(false)], then [m_tctx.push()]. *)
Definition construct (t : tctx) : scope_assignment * tctx :=
  (mk_scope false, push t).

(** [scope_assignment::commit] *)
Definition commit (sc : scope_assignment) : scope_assignment := mk_scope true.

(** The destructor: [commit] of the facade when [m_keep], else [pop]. *)
Definition destroy (sc : scope_assignment) (t : tctx) : option tctx :=
  if m_keep sc then Tctx.commit t else pop t.

(** Code that works on the assignment under scopes: an update of the
    assignment, or a block that declares a [scope_assignment], runs its
    body and, when [keep], calls [commit] before the block ends. *)
Inductive item :=
| Assign (u : update)
| Scope (keep : bool) (body : list item).

Definition run_list {A : Type} (f : A -> tctx -> option tctx)
    : list A -> tctx -> option tctx :=
  fix go (l : list A) (t : tctx) : option tctx :=
    match l with
    | [] => Some t
    | a :: l' =>
        match f a t with
        | Some t' => go l' t'
        | None => None
        end
    end.

Fixpoint run_item (i : item) (t : tctx) : option tctx :=
  match i with
  | Assign u => run_update u t
  | Scope keep body =>
      let '(sc, t1) := construct t in
      match run_list run_item body t1 with
      | Some t2 => destroy (if keep then commit sc else sc) t2
      | None => None
      end
  end.

Definition run_items : list item -> tctx -> option tctx := run_list run_item.

Section item_ind.
Variable P : item -> Prop.
Hypothesis HAssign : forall u, P (Assign u).
Hypothesis HScope : forall keep body, Forall P body -> P (Scope keep body).

Fixpoint item_ind' (i : item) : P i :=
  match i with
  | Assign u => HAssign u
  | Scope keep body =>
      HScope keep body
        ((fix go (l : list item) : Forall P l :=
            match l with
            | [] => List.Forall_nil P
            | x :: l' => @List.Forall_cons _ P x l' (item_ind' x) (go l')
            end) body)
  end.
End item_ind.

(** The facade [t] over another snapshot stack. *)
Definition on_stack (st : list assignment_snapshot) (t : tctx) : tctx :=
  mk_tctx (m_benv t) st.

Lemma run_list_extends body :
  Forall (fun i => forall t t', run_item i t = Some t' -> extends t t') body ->
  forall t t', run_items body t = Some t' -> extends t t'.
Proof.
  induction 1 as [|i body Hi _ IH]; intros t t'; simpl.
  - intros [= <-]. apply extends_refl.
  - destruct (run_item i t) as [t1|] eqn:H1; [|discriminate].
    intros H. eapply extends_trans; [apply Hi; exact H1 | apply IH; exact H].
Qed.

Lemma commit_extends_push t t' :
  extends (push t) t' -> exists t'', Tctx.commit t' = Some t'' /\ extends t t''.
Proof.
  intros (nu & ne & ->). eexists. split; [reflexivity|].
  exists nu, ne. destruct t as [[[] ? ? ? ?] ?]. reflexivity.
Qed.

Lemma run_item_extends i :
  forall t t', run_item i t = Some t' -> extends t t'.
Proof.
  induction i as [u | keep body IH] using item_ind'; intros t t'.
  - apply run_update_extends.
  - cbn [run_item construct].
    destruct (run_list run_item body (push t)) as [t2|] eqn:Hbody;
      [|discriminate].
    pose proof (run_list_extends body IH _ _ Hbody) as Hext.
    destruct keep; unfold destroy, commit; cbn [m_keep].
    + destruct (commit_extends_push _ _ Hext) as (t'' & -> & Ht'').
      intros [= <-]. exact Ht''.
    + rewrite (pop_extends_push _ _ Hext). intros [= <-]. apply extends_refl.
Qed.

Lemma run_items_extends body t t' :
  run_items body t = Some t' -> extends t t'.
Proof.
  apply run_list_extends. apply Forall_forall. intros i _. apply run_item_extends.
Qed.

Lemma run_update_on_stack u b st :
  run_update u (mk_tctx b st) = on_stack st <$> run_update u (mk_tctx b []).
Proof.
  destruct u as [u v | m v]; simpl.
  - unfold update_assignment_level. destruct (uref_index u); reflexivity.
  - unfold update_assignment. destruct (mref_index m); reflexivity.
Qed.

Lemma run_list_on_stack body :
  Forall (fun i => forall b st,
            run_item i (mk_tctx b st) = on_stack st <$> run_item i (mk_tctx b []))
         body ->
  forall b st,
    run_items body (mk_tctx b st) = on_stack st <$> run_items body (mk_tctx b []).
Proof.
  induction 1 as [|i body Hi _ IH]; intros b st; simpl; [reflexivity|].
  rewrite Hi. destruct (run_item i (mk_tctx b [])) as [[b1 st1]|] eqn:H1;
    simpl; [|reflexivity].
  assert (st1 = []) as ->.
  { apply run_item_extends in H1. destruct H1 as (nu & ne & H1).
    injection H1 as _ ->. reflexivity. }
  unfold on_stack at 1. simpl. apply IH.
Qed.

Lemma run_item_on_stack i :
  forall b st,
    run_item i (mk_tctx b st) = on_stack st <$> run_item i (mk_tctx b []).
Proof.
  induction i as [u | keep body IH] using item_ind'; intros b st.
  - apply run_update_on_stack.
  - simpl. unfold push. cbn [m_benv m_stack curr_state].
    pose proof (run_list_on_stack body IH b) as Hst. unfold run_items in Hst.
    rewrite (Hst (_ :: st)), (Hst [_]).
    destruct (run_list run_item body (mk_tctx b [])) as [[b2 st2]|]; simpl;
      [|reflexivity].
    destruct keep; reflexivity.
Qed.

Lemma run_items_on_stack body b st :
  run_items body (mk_tctx b st) = on_stack st <$> run_items body (mk_tctx b []).
Proof.
  apply run_list_on_stack. apply Forall_forall. intros i _. apply run_item_on_stack.
Qed.

(** *** Scopes around code that also validates assignments *)

(** Code that works on the assignment under scopes, as the unifier does:
    an update of the assignment, a call of [validate_assignment] (its
    answer is for the caller to use), or a block that declares a
    [scope_assignment]. *)
Inductive op :=
| Update (u : update)
| Validate (m : expr) (locals : list expr) (v : expr)
| Block (keep : bool) (body : list op).

Fixpoint run_op (o : op) (t : tctx) : option tctx :=
  match o with
  | Update u => run_update u t
  | Validate m locals v =>
      match validate_assignment m locals v t with
      | Some (_, t') => Some t'
      | None => None
      end
  | Block keep body =>
      let '(sc, t1) := construct t in
      match run_list run_op body t1 with
      | Some t2 => destroy (if keep then commit sc else sc) t2
      | None => None
      end
  end.

Definition run_ops : list op -> tctx -> option tctx := run_list run_op.

(** No call of [validate_assignment], at any depth. *)
Fixpoint validation_free (o : op) : bool :=
  match o with
  | Update _ => true
  | Validate _ _ _ => false
  | Block _ body => forallb validation_free body
  end.

Section op_ind.
Variable P : op -> Prop.
Hypothesis HUpdate : forall u, P (Update u).
Hypothesis HValidate : forall m locals v, P (Validate m locals v).
Hypothesis HBlock : forall keep body, Forall P body -> P (Block keep body).

Fixpoint op_ind' (o : op) : P o :=
  match o with
  | Update u => HUpdate u
  | Validate m locals v => HValidate m locals v
  | Block keep body =>
      HBlock keep body
        ((fix go (l : list op) : Forall P l :=
            match l with
            | [] => List.Forall_nil P
            | x :: l' => @List.Forall_cons _ P x l' (op_ind' x) (go l')
            end) body)
  end.
End op_ind.

(** [t'] is [t] with more recent bindings added to the assignment maps
    and with the metavariable declarations [ds]; nothing else changed. *)
Definition extends_with_decls (ds : gmap nat metavar_decl) (t t' : tctx) : Prop :=
  exists nu ne,
    t' = with_curr_state
           (set_metavar_decls ds
              (set_assignments (nu ++ m_uassignment (curr_state t))
                               (ne ++ m_eassignment (curr_state t))
                               (curr_state t))) t.

Definition extends_upto_decls (t t' : tctx) : Prop :=
  exists ds, extends_with_decls ds t t'.

Lemma extends_upto_decls_refl t : extends_upto_decls t t.
Proof.
  exists (m_metavar_decls (curr_state t)), [], [].
  destruct t as [[[] ? ? ? ?] ?]. reflexivity.
Qed.

Lemma extends_upto_decls_trans t1 t2 t3 :
  extends_upto_decls t1 t2 -> extends_upto_decls t2 t3 -> extends_upto_decls t1 t3.
Proof.
  intros (ds & nu & ne & ->) (ds' & nu' & ne' & ->).
  exists ds', (nu' ++ nu), (ne' ++ ne).
  destruct t1 as [[[] ? ? ? ?] ?]. cbn. rewrite !app_assoc. reflexivity.
Qed.

Lemma extends_upto_decls_of_extends t t' : extends t t' -> extends_upto_decls t t'.
Proof.
  intros (nu & ne & ->). exists (m_metavar_decls (curr_state t)), nu, ne.
  destruct t as [[[] ? ? ? ?] ?]. reflexivity.
Qed.

(** [validate_assignment] writes declarations of metavariables only. *)
Definition frame_acc (acc acc' : option (bool * state)) : Prop :=
  match acc, acc' with
  | Some (_, s), Some (_, s') => exists ds, s' = set_metavar_decls ds s
  | _, None => True
  | None, Some _ => False
  end.

Lemma frame_acc_refl acc : frame_acc acc acc.
Proof.
  destruct acc as [[ok s]|]; simpl; [|exact I].
  exists (m_metavar_decls s). destruct s; reflexivity.
Qed.

Lemma frame_acc_trans a1 a2 a3 : frame_acc a1 a2 -> frame_acc a2 a3 -> frame_acc a1 a3.
Proof.
  destruct a1 as [[o1 s1]|], a2 as [[o2 s2]|], a3 as [[o3 s3]|]; simpl; try tauto.
  intros [ds ->] [ds' ->]. exists ds'. reflexivity.
Qed.

Lemma validate_visitor_frame d m locals e acc :
  frame_acc acc (snd (validate_visitor d m locals e acc)).
Proof.
  unfold validate_visitor. destruct acc as [[ok s]|]; [|exact I].
  assert (Hs : frame_acc (Some (ok, s)) (Some (false, s))).
  { exists (m_metavar_decls s). destruct s; reflexivity. }
  destruct (negb ok); [apply frame_acc_refl|].
  destruct (is_href e).
  { destruct (negb (contains_href d e)); [exact Hs | apply frame_acc_refl]. }
  destruct (is_local e && negb (is_tmp_local e)).
  { destruct (all_of _ locals) as [[]|]; [exact Hs | apply frame_acc_refl | exact I]. }
  destruct (is_mref e); [|apply frame_acc_refl].
  destruct (bool_decide (m = e)); [exact Hs|].
  unfold restrict_mref_context_using.
  destruct (mref_index e); [|exact I].
  destruct (get_metavar_decl s e); [|exact I].
  destruct (get_metavar_decl s m); [|exact I].
  simpl. eexists. reflexivity.
Qed.

Lemma fold_frame d m locals l :
  Forall (fun a => forall acc,
            frame_acc acc (for_each (validate_visitor d m locals) a acc)) l ->
  forall acc,
    frame_acc acc
      (fold_left (fun acc' a => for_each (validate_visitor d m locals) a acc') l acc).
Proof.
  induction 1 as [|a l Ha _ IH]; intros acc; simpl; [apply frame_acc_refl|].
  eapply frame_acc_trans; [apply Ha | apply IH].
Qed.

Lemma for_each_frame d m locals e :
  forall acc, frame_acc acc (for_each (validate_visitor d m locals) e acc).
Proof.
  induction e using expr_ind'; intros acc; rewrite for_each_children;
    pose proof (validate_visitor_frame d m locals) as Hv;
    match goal with
    | |- context [validate_visitor d m locals ?e acc] =>
        specialize (Hv e acc);
        destruct (validate_visitor d m locals e acc) as [[] acc1]
    end; simpl in Hv; try exact Hv;
    (eapply frame_acc_trans; [exact Hv|]); apply fold_frame; simpl;
    repeat constructor; assumption.
Qed.

Lemma validate_assignment_extends m locals v t ok t' :
  validate_assignment m locals v t = Some (ok, t') -> extends_upto_decls t t'.
Proof.
  unfold validate_assignment.
  destruct (get_metavar_decl (curr_state t) m) as [d|]; [|discriminate].
  pose proof (for_each_frame d m locals v (Some (true, curr_state t))) as Hf.
  destruct (for_each _ v _) as [[ok' s']|]; [|discriminate].
  destruct Hf as [ds ->]. intros [= <- <-].
  exists ds, [], []. destruct t as [[[] ? ? ? ?] ?]. reflexivity.
Qed.

Lemma pop_extends_upto_decls t t2 :
  extends_upto_decls (push t) t2 ->
  exists ds, pop t2 = Some (with_curr_state (set_metavar_decls ds (curr_state t)) t).
Proof.
  intros (ds & nu & ne & ->). exists ds.
  destruct t as [[[hs ds0 us es tg ps] cps mx ini inc] st].
  unfold pop, push, with_curr_state, curr_state, restore_assignment, save_assignment,
    set_assignments, set_metavar_decls, set_curr_state.
  cbn [m_benv m_stack m_curr_state m_uassignment
    m_eassignment snap_usize snap_esize m_hyp_decls m_metavar_decls m_target
    m_proof_steps m_choice_points m_max_depth m_init_depth m_inc_depth].
  rewrite !shrink_app. reflexivity.
Qed.

Lemma commit_extends_upto_decls t t2 :
  extends_upto_decls (push t) t2 ->
  exists t'', Tctx.commit t2 = Some t'' /\ extends_upto_decls t t''.
Proof.
  intros (ds & nu & ne & ->). eexists. split; [reflexivity|].
  exists ds, nu, ne. destruct t as [[[] ? ? ? ?] ?]. reflexivity.
Qed.

Lemma run_ops_extends_upto_decls body :
  Forall (fun o => forall t t', run_op o t = Some t' -> extends_upto_decls t t') body ->
  forall t t', run_ops body t = Some t' -> extends_upto_decls t t'.
Proof.
  induction 1 as [|o body Ho _ IH]; intros t t'; simpl.
  - intros [= <-]. apply extends_upto_decls_refl.
  - destruct (run_op o t) as [t1|] eqn:H1; [|discriminate].
    intros H. eapply extends_upto_decls_trans; [apply Ho; exact H1 | apply IH; exact H].
Qed.

Lemma run_op_extends_upto_decls o :
  forall t t', run_op o t = Some t' -> extends_upto_decls t t'.
Proof.
  induction o as [u | m locals v | keep body IH] using op_ind'; intros t t'.
  - intros H. apply extends_upto_decls_of_extends, (run_update_extends u), H.
  - cbn [run_op].
    destruct (validate_assignment m locals v t) as [[ok t1]|] eqn:Hv; [|discriminate].
    intros [= <-]. eapply validate_assignment_extends, Hv.
  - cbn [run_op construct].
    destruct (run_list run_op body (push t)) as [t2|] eqn:Hbody; [|discriminate].
    pose proof (run_ops_extends_upto_decls body IH _ _ Hbody) as Hext.
    destruct keep; unfold destroy, commit; cbn [m_keep].
    + destruct (commit_extends_upto_decls _ _ Hext) as (t'' & -> & Ht'').
      intros [= <-]. exact Ht''.
    + destruct (pop_extends_upto_decls _ _ Hext) as (ds & ->).
      intros [= <-]. exists ds, [], []. destruct t as [[[] ? ? ? ?] ?]. reflexivity.
Qed.

Lemma run_ops_extends body :
  Forall (fun o => validation_free o = true ->
                   forall t t', run_op o t = Some t' -> extends t t') body ->
  forallb validation_free body = true ->
  forall t t', run_ops body t = Some t' -> extends t t'.
Proof.
  induction 1 as [|o body Ho _ IH]; intros Hfree t t'; simpl in *.
  - intros [= <-]. apply extends_refl.
  - apply andb_true_iff in Hfree as [Hfo Hfb].
    destruct (run_op o t) as [t1|] eqn:H1; [|discriminate].
    intros H. eapply extends_trans; [apply (Ho Hfo); exact H1 | apply (IH Hfb); exact H].
Qed.

Lemma run_op_extends o :
  validation_free o = true ->
  forall t t', run_op o t = Some t' -> extends t t'.
Proof.
  induction o as [u | m locals v | keep body IH] using op_ind'; intros Hfree t t'.
  - apply run_update_extends.
  - discriminate.
  - cbn [run_op construct]. simpl in Hfree.
    destruct (run_list run_op body (push t)) as [t2|] eqn:Hbody; [|discriminate].
    pose proof (run_ops_extends body IH Hfree _ _ Hbody) as Hext.
    destruct keep; unfold destroy, commit; cbn [m_keep].
    + destruct (commit_extends_push _ _ Hext) as (t'' & -> & Ht'').
      intros [= <-]. exact Ht''.
    + rewrite (pop_extends_push _ _ Hext). intros [= <-]. apply extends_refl.
Qed.

(** X16 ([scope_assignment], [tctx::push], [tctx::pop], blast.cpp 201-208,
    740-750). A scope that is not committed undoes every assignment made
    inside it, committed inner scopes included, and nothing but the
    assignments: the facade after the block is the one before it up to
    the declarations of the metavariables, whose contexts the calls of
    [validate_assignment] inside the block may have narrowed and [pop]
    does not restore. With no such call inside, the facade after the
    block is the one before it. *)
Theorem scope_assignment_rolls_back (body : list op) (t t' : tctx) :
  run_op (Block false body) t = Some t' ->
  (exists ds, t' = with_curr_state (set_metavar_decls ds (curr_state t)) t) /\
  (forallb validation_free body = true -> t' = t).
Proof.
  cbn [run_op construct].
  destruct (run_list run_op body (push t)) as [t2|] eqn:Hbody; [|discriminate].
  unfold destroy; cbn [m_keep]. intros Hpop. split.
  - assert (Hext : extends_upto_decls (push t) t2).
    { apply (run_ops_extends_upto_decls body); [|exact Hbody].
      apply Forall_forall. intros o _. apply run_op_extends_upto_decls. }
    destruct (pop_extends_upto_decls _ _ Hext) as (ds & Hds).
    rewrite Hds in Hpop. injection Hpop as <-. eauto.
  - intros Hfree.
    assert (Hext : extends (push t) t2).
    { apply (run_ops_extends body); [|exact Hfree|exact Hbody].
      apply Forall_forall. intros o _. apply run_op_extends. }
    rewrite (pop_extends_push _ _ Hext) in Hpop. congruence.
Qed.

(** X17 ([scope_assignment], [scope_assignment::commit], [tctx::commit],
    blast.cpp 201-212, 740-754). A committed scope is transparent: the
    block leaves the facade that its body alone would leave, with the
    snapshot stack as before the block. *)
Theorem scope_assignment_commit_keeps (body : list item) (t : tctx) :
  run_item (Scope true body) t = run_items body t /\
  forall t', run_items body t = Some t' -> m_stack t' = m_stack t /\ extends t t'.
Proof.
  split.
  - destruct t as [b st]. rewrite (run_items_on_stack body b st).
    cbn [run_item construct]. unfold push. cbn [m_benv m_stack curr_state].
    change (run_list run_item) with run_items.
    rewrite (run_items_on_stack body b (_ :: st)).
    destruct (run_items body (mk_tctx b [])) as [[b2 st2]|]; reflexivity.
  - intros t' Hrun. pose proof (run_items_extends _ _ _ Hrun) as Hext.
    split; [|exact Hext]. destruct Hext as (nu & ne & ->). reflexivity.
Qed.

(** [?0 := ?1 h0], validated and recorded in a committed scope, inside a
    scope that is not committed: the assignment is undone, and the context
    of [?1], narrowed from [{0, 1}] to [{0}] by the validation, stays
    narrowed. *)
Definition validate_then_assign : list op :=
  [Block true [Validate (Mref 0) [] (App (Mref 1) (Href 0));
               Update (upd_expr (Mref 0) (App (Mref 1) (Href 0)))]].

Definition tctx_after_rollback : tctx :=
  match run_op (Block false validate_then_assign) TctxMore.tctx_two_mvars with
  | Some t' => t'
  | None => TctxMore.tctx_two_mvars
  end.

Lemma scope_assignment_rolls_back_example :
  run_op (Block false validate_then_assign) TctxMore.tctx_two_mvars
  = Some tctx_after_rollback /\
  ((exists ds,
      tctx_after_rollback
      = with_curr_state
          (set_metavar_decls ds (curr_state TctxMore.tctx_two_mvars))
          TctxMore.tctx_two_mvars) /\
   (forallb validation_free validate_then_assign = true ->
    tctx_after_rollback = TctxMore.tctx_two_mvars)) /\
  get_assignment tctx_after_rollback (Mref 0) = None /\
  md_context <$> (m_metavar_decls (curr_state TctxMore.tctx_two_mvars) !! 1%nat)
  = Some {[ 0%nat; 1%nat ]} /\
  md_context <$> (m_metavar_decls (curr_state tctx_after_rollback) !! 1%nat)
  = Some {[ 0%nat ]}.
Proof.
  assert (Hrun : run_op (Block false validate_then_assign) TctxMore.tctx_two_mvars
                 = Some tctx_after_rollback) by (vm_compute; reflexivity).
  split; [exact Hrun|].
  split; [exact (scope_assignment_rolls_back validate_then_assign
                   TctxMore.tctx_two_mvars tctx_after_rollback Hrun)|].
  split; [vm_compute; reflexivity|].
  split; vm_compute; reflexivity.
Defined.

(** The same scope around the assignment alone gives back the facade. *)
Example scope_without_validation :
  run_op (Block false [Block true [Update (upd_expr (Mref 0) (App (Mref 1) (Href 0)))]])
    TctxMore.tctx_two_mvars
  = Some TctxMore.tctx_two_mvars.
Proof. vm_compute. reflexivity. Qed.

End ScopeAssignment.

(* ===================================================================== *)
(** ** [to_state]: the initial state of a goal                            *)
(* ===================================================================== *)

Module ToState.
Import Term State Outcome Internalize LevelFacts InternalizeMore.

(** A goal of the tactic framework: its hypotheses ([get_hyps], in order)
    and its conclusion ([get_type]). *)
Record goal := mk_goal {
  get_hyps : list expr;
  get_type : expr
}.

(** [mlocal_type] and [local_pp_name] of [kernel/expr.h]. *)
Definition mlocal_type (e : expr) : option expr :=
  match e with
  | Meta _ ty | Local _ _ ty => Some ty
  | _ => None
  end.

Definition local_pp_name (e : expr) : option name :=
  match e with
  | Local _ pp _ => Some pp
  | _ => None
  end.

Definition set_hyp_decls (hs : gmap nat hypothesis) (s : state) : state :=
  mk_state hs (m_metavar_decls s) (m_uassignment s) (m_eassignment s)
           (m_target s) (m_proof_steps s).

(** Modelled from the spec: [mk_hypothesis(name, type, source_local)]
    "appends a hypothesis, returns its stable index"; [idx] is the fresh
    index drawn by the caller from the engine's counter of [href]s. The
    local constant is "retained for externalization", and the externalizer
    reaches a hypothesis through [get_value()] only
    ([to_tactic_proof_fn::visit_local]): the third argument is what
    [get_value()] returns for the new hypothesis. *)
Definition mk_hypothesis (idx : nat) (n : name) (type h : expr) (s : state)
    : expr * state :=
  (Href idx,
   set_hyp_decls (<[ idx := mk_hypothesis_decl n type (Some h) h ]> (m_hyp_decls s)) s).

(** What the loop of [to_state] has in hand: the visitor's references
    (the state [s] under construction among them), [local2href], and the
    counter of [href]s. *)
Record builder := mk_builder {
  b_conv : conv;
  b_local2href : gmap name expr;
  b_next_href : nat
}.

Definition with_state (s : state) (c : conv) : conv :=
  mk_conv s (cv_uvar2uref c) (cv_mvar2meta_mref c) (cv_next_uref c) (cv_next_mref c).

Section ToState.

(** [normalize], over the type checker [norm_tc], and the kernel's type
    inference. *)
Variable normalize : expr -> expr.
Variable infer : expr -> expr.

(** [s.check_invariant()], of [state.h]. *)
Variable check_invariant : state -> bool.

(** The body of the loop over the hypotheses. A hypothesis of the goal is
    a local constant of the caller; on anything else [mlocal_type] or
    [local_pp_name] is not defined. *)
Definition add_hypothesis (fuel : nat) (h : expr) (b : builder) : outcome builder :=
  if negb (is_local h) then AssertionViolation
  else
    match mlocal_type h, local_pp_name h, mlocal_name h with
    | Some ty, Some pp, Some n =>
        match to_blast_expr infer (b_local2href b) fuel (normalize ty) (b_conv b) with
        | Ok (new_type, c1) =>
            let '(href, s') :=
              mk_hypothesis (b_next_href b) pp new_type h (cv_state c1) in
            Ok (mk_builder (with_state s' c1) (<[ n := href ]> (b_local2href b))
                           (S (b_next_href b)))
        | Throw ex => Throw ex
        | AssertionViolation => AssertionViolation
        | OutOfFuel => OutOfFuel
        end
    | _, _, _ => AssertionViolation
    end.

Fixpoint add_hypotheses (fuel : nat) (hs : list expr) (b : builder) : outcome builder :=
  match hs with
  | [] => Ok b
  | h :: hs' => obind (add_hypothesis fuel h b) (add_hypotheses fuel hs')
  end.

(** [to_state(g)]: [c] holds the engine's maps and counters, [next_href]
    its counter of [href]s; the state starts empty and [local2href] too.
    The result is the builder at the end, whose state is the [s] that the
    function returns. *)
Definition to_state (fuel : nat) (g : goal) (c : conv) (next_href : nat)
    : outcome builder :=
  obind (add_hypotheses fuel (get_hyps g)
           (mk_builder (with_state empty_state c) ∅ next_href))
    (fun b =>
       match to_blast_expr infer (b_local2href b) fuel (normalize (get_type g))
               (b_conv b) with
       | Ok (new_target, c1) =>
           let s := set_target new_target (cv_state c1) in
           if negb (check_invariant s) then AssertionViolation
           else Ok (mk_builder (with_state s c1) (b_local2href b) (b_next_href b))
       | Throw ex => Throw ex
       | AssertionViolation => AssertionViolation
       | OutOfFuel => OutOfFuel
       end).

End ToState.
End ToState.

Module ToStateFacts.
Import Term State Outcome Internalize LevelFacts InternalizeMore ToState.

Lemma conv_ok_mono l2h l2h' c : l2h ⊆ l2h' -> conv_ok l2h c -> conv_ok l2h' c.
Proof.
  intros Hsub (Hu & Hfresh & Hdecls & Hmrefs & Hinj).
  split; [exact Hu|]. split; [exact Hfresh|]. split; [|split; assumption].
  intros i d Hd. destruct (Hdecls i d Hd) as [Hty Hctx]. split; [exact Hty|].
  intros h Hh. destruct (Hctx h Hh) as [n Hn]. exists n.
  eapply lookup_weaken; eassumption.
Qed.

Lemma conv_ok_with_state l2h c s :
  m_metavar_decls s = m_metavar_decls (cv_state c) ->
  conv_ok l2h c -> conv_ok l2h (with_state s c).
Proof.
  intros Hs Hok. unfold conv_ok, uref_map_ok, with_state in *. cbn.
  rewrite Hs. exact Hok.
Qed.

(** What the loop of [to_state] keeps, [hs] being the hypotheses of the
    goal that were added so far. *)
Definition builder_ok (hs : list expr) (b : builder) : Prop :=
  hrefs_only (b_local2href b) /\
  conv_ok (b_local2href b) (b_conv b) /\
  (forall i, is_Some (m_hyp_decls (cv_state (b_conv b)) !! i) ->
     (i < b_next_href b)%nat) /\
  (forall i d,
     m_hyp_decls (cv_state (b_conv b)) !! i = Some d ->
     internal (h_type d) = true /\ h_local d ∈ hs) /\
  (forall n, is_Some (b_local2href b !! n) <-> Some n ∈ mlocal_name <$> hs) /\
  (forall h n,
     h ∈ hs -> mlocal_name h = Some n ->
     exists i d,
       b_local2href b !! n = Some (Href i) /\
       m_hyp_decls (cv_state (b_conv b)) !! i = Some d /\ h_local d = h).

Section Facts.

Variable normalize : expr -> expr.
Variable infer : expr -> expr.
Variable check_invariant : state -> bool.

Local Abbreviation add_hypothesis := (add_hypothesis normalize infer).
Local Abbreviation add_hypotheses := (add_hypotheses normalize infer).
Local Abbreviation to_state := (to_state normalize infer check_invariant).

Lemma add_hypothesis_ok fuel pre h b b' :
  builder_ok pre b ->
  mlocal_name h ∉ mlocal_name <$> pre ->
  add_hypothesis fuel h b = Ok b' ->
  builder_ok (pre ++ [h]) b'.
Proof.
  intros (Hl2h & Hok & Hbound & Hdecls & Hdom & Hmap) Hnew.
  unfold ToState.add_hypothesis.
  destruct h as [| | | |n pp ty| | | | | |]; try discriminate.
  cbn [is_local negb mlocal_type local_pp_name mlocal_name] in *.
  destruct (to_blast_expr infer (b_local2href b) fuel (normalize ty) (b_conv b))
    as [[new_type c1]| | |] eqn:Hrun; try discriminate.
  destruct (visit_keeps_invariant infer (b_local2href b) fuel Hl2h _ _ _ _ Hok Hrun)
    as (Hok1 & Hg1 & Hty).
  destruct Hg1 as (_ & _ & _ & _ & _ & Hhyps & _).
  unfold mk_hypothesis. intros [= <-].
  cbn [b_conv b_local2href b_next_href with_state cv_state set_hyp_decls m_hyp_decls].
  assert (Hfresh : b_local2href b !! n = None).
  { destruct (b_local2href b !! n) eqn:Hn; [|reflexivity].
    exfalso. apply Hnew, Hdom. eauto. }
  rewrite Hhyps. unfold builder_ok.
  cbn [b_conv b_local2href b_next_href with_state cv_state set_hyp_decls m_hyp_decls].
  split; [|split; [|split; [|split; [|split]]]].
  - apply map_Forall_insert_2; [reflexivity | exact Hl2h].
  - apply conv_ok_with_state; [reflexivity|].
    eapply conv_ok_mono; [apply insert_subseteq, Hfresh | exact Hok1].
  - intros i. rewrite lookup_insert. case_decide; [lia|].
    intros Hi. apply Hbound in Hi. lia.
  - intros i d. rewrite lookup_insert. case_decide.
    + intros [= <-]. cbn. split; [exact Hty|].
      apply elem_of_app. right. apply list_elem_of_singleton. reflexivity.
    + intros Hd. destruct (Hdecls i d Hd) as (? & ?).
      split; [assumption|]. apply elem_of_app. auto.
  - intros n'. rewrite fmap_app, elem_of_app, <- Hdom. cbn.
    rewrite list_elem_of_singleton, lookup_insert. case_decide.
    + subst. split; [auto | eauto].
    + split; [auto|]. intros [H'|[= H']]; [exact H' | congruence].
  - intros h' n' [Hin | ->%list_elem_of_singleton]%elem_of_app Hname.
    + assert (n' <> n).
      { intros ->. apply Hnew. rewrite <- Hname.
        apply list_elem_of_fmap. eauto. }
      destruct (Hmap h' n' Hin Hname) as (i & d & Hi & Hd & Hloc).
      exists i, d. rewrite lookup_insert_ne by congruence.
      split; [exact Hi|]. split; [|exact Hloc].
      rewrite lookup_insert_ne; [exact Hd|].
      assert (i < b_next_href b)%nat by (apply Hbound; eauto). lia.
    + cbn in Hname. injection Hname as <-.
      eexists _, _. rewrite !lookup_insert_eq. split; [reflexivity|].
      split; reflexivity.
Qed.

Lemma add_hypotheses_ok fuel hs :
  forall pre b b',
    builder_ok pre b ->
    NoDup (mlocal_name <$> (pre ++ hs)) ->
    add_hypotheses fuel hs b = Ok b' ->
    builder_ok (pre ++ hs) b'.
Proof.
  induction hs as [|h hs IH]; intros pre b b' Hb Hnd; simpl.
  - intros [= <-]. rewrite app_nil_r. exact Hb.
  - destruct (add_hypothesis fuel h b) as [b1| | |] eqn:H1; try discriminate.
    simpl. intros Hrun.
    replace (pre ++ h :: hs) with ((pre ++ [h]) ++ hs) in *
      by (rewrite <- app_assoc; reflexivity).
    eapply IH; [|exact Hnd|exact Hrun].
    eapply add_hypothesis_ok; [exact Hb| |exact H1].
    rewrite !fmap_app in Hnd. apply NoDup_app in Hnd as [Hnd _].
    apply NoDup_app in Hnd as (_ & Hdisj & _).
    intros Hin. apply (Hdisj _ Hin). cbn. apply list_elem_of_singleton. reflexivity.
Qed.

Lemma builder_ok_start c k :
  uref_map_ok c -> cv_mvar2meta_mref c = ∅ ->
  builder_ok [] (mk_builder (with_state empty_state c) ∅ k).
Proof.
  intros Hu Hm. unfold builder_ok. cbn.
  split; [apply map_Forall_empty|]. split.
  - unfold conv_ok. cbn. rewrite Hm. split; [exact Hu|].
    split; [|split; [|split]]; intros *; rewrite ?lookup_empty; try discriminate.
    intros [? [=]].
  - split; [|split; [|split]]; intros *; rewrite ?lookup_empty; try discriminate.
    + intros [? [=]].
    + split; [intros [? [=]] | intros H; inversion H].
    + intros H; inversion H.
Qed.

Lemma to_state_ok fuel g c k b :
  NoDup (mlocal_name <$> get_hyps g) ->
  uref_map_ok c -> cv_mvar2meta_mref c = ∅ ->
  to_state fuel g c k = Ok b ->
  builder_ok (get_hyps g) b /\ internal (m_target (cv_state (b_conv b))) = true.
Proof.
  intros Hnd Hu Hm. unfold ToState.to_state.
  destruct (ToState.add_hypotheses normalize infer fuel (get_hyps g) _)
    as [b1| | |] eqn:Hadd; try discriminate. simpl.
  apply (add_hypotheses_ok fuel (get_hyps g) []) in Hadd;
    [|apply builder_ok_start; assumption | exact Hnd].
  simpl in Hadd. destruct Hadd as (Hl2h & Hok & Hbound & Hdecls & Hdom & Hmap).
  destruct (to_blast_expr infer (b_local2href b1) fuel (normalize (get_type g))
              (b_conv b1)) as [[new_target c1]| | |] eqn:Hrun; try discriminate.
  destruct (negb (check_invariant _)); [discriminate|].
  destruct (visit_keeps_invariant infer (b_local2href b1) fuel Hl2h _ _ _ _ Hok Hrun)
    as (Hok1 & Hg1 & Hty).
  destruct Hg1 as (_ & _ & _ & _ & _ & Hhyps & _).
  intros [= <-]. split; [|exact Hty].
  unfold builder_ok.
  cbn [b_conv b_local2href b_next_href with_state cv_state set_target m_hyp_decls].
  rewrite Hhyps.
  split; [exact Hl2h|]. split; [|auto].
  apply conv_ok_with_state; [reflexivity | exact Hok1].
Qed.


(** *** What [get_value()] returns for the hypotheses of the goal *)

(** Every declared hypothesis carries the local constant that it records
    as its value. *)
Definition values_recorded (b : builder) : Prop :=
  forall i d,
    m_hyp_decls (cv_state (b_conv b)) !! i = Some d -> h_value d = Some (h_local d).

Lemma add_hypothesis_values fuel pre h b b' :
  builder_ok pre b ->
  values_recorded b ->
  add_hypothesis fuel h b = Ok b' ->
  values_recorded b'.
Proof.
  intros (Hl2h & Hok & _) Hvals.
  unfold ToState.add_hypothesis.
  destruct h as [| | | |n pp ty| | | | | |]; try discriminate.
  cbn [is_local negb mlocal_type local_pp_name mlocal_name] in *.
  destruct (to_blast_expr infer (b_local2href b) fuel (normalize ty) (b_conv b))
    as [[new_type c1]| | |] eqn:Hrun; try discriminate.
  destruct (visit_keeps_invariant infer (b_local2href b) fuel Hl2h _ _ _ _ Hok Hrun)
    as (_ & (_ & _ & _ & _ & _ & Hhyps & _) & _).
  unfold mk_hypothesis. intros [= <-]. unfold values_recorded.
  cbn [b_conv with_state cv_state set_hyp_decls m_hyp_decls].
  rewrite Hhyps. intros i d. rewrite lookup_insert. case_decide.
  - intros [= <-]. reflexivity.
  - apply Hvals.
Qed.

Lemma add_hypotheses_values fuel hs :
  forall pre b b',
    builder_ok pre b ->
    values_recorded b ->
    NoDup (mlocal_name <$> (pre ++ hs)) ->
    add_hypotheses fuel hs b = Ok b' ->
    values_recorded b'.
Proof.
  induction hs as [|h hs IH]; intros pre b b' Hb Hvals Hnd; simpl.
  - intros [= <-]. exact Hvals.
  - destruct (add_hypothesis fuel h b) as [b1| | |] eqn:H1; try discriminate.
    simpl. intros Hrun.
    replace (pre ++ h :: hs) with ((pre ++ [h]) ++ hs) in *
      by (rewrite <- app_assoc; reflexivity).
    eapply (IH (pre ++ [h])); [| |exact Hnd|exact Hrun].
    + eapply add_hypothesis_ok; [exact Hb| |exact H1].
      rewrite !fmap_app in Hnd. apply NoDup_app in Hnd as [Hnd _].
      apply NoDup_app in Hnd as (_ & Hdisj & _).
      intros Hin. apply (Hdisj _ Hin). cbn. apply list_elem_of_singleton. reflexivity.
    + eapply add_hypothesis_values; eassumption.
Qed.

Lemma to_state_values fuel g c k b :
  NoDup (mlocal_name <$> get_hyps g) ->
  uref_map_ok c -> cv_mvar2meta_mref c = ∅ ->
  to_state fuel g c k = Ok b ->
  values_recorded b.
Proof.
  intros Hnd Hu Hm. unfold ToState.to_state.
  destruct (ToState.add_hypotheses normalize infer fuel (get_hyps g) _)
    as [b1| | |] eqn:Hadd; try discriminate. simpl.
  pose proof (add_hypotheses_ok fuel (get_hyps g) [] _ b1
                (builder_ok_start c k Hu Hm) Hnd Hadd) as (Hl2h & Hok & _).
  assert (Hvals : values_recorded b1).
  { apply (add_hypotheses_values fuel (get_hyps g) [] _ b1
             (builder_ok_start c k Hu Hm)); [|exact Hnd|exact Hadd].
    intros i d. cbn. rewrite lookup_empty. discriminate. }
  simpl in Hl2h, Hok.
  destruct (to_blast_expr infer (b_local2href b1) fuel (normalize (get_type g))
              (b_conv b1)) as [[new_target c1]| | |] eqn:Hrun; try discriminate.
  destruct (negb (check_invariant _)); [discriminate|].
  destruct (visit_keeps_invariant infer (b_local2href b1) fuel Hl2h _ _ _ _ Hok Hrun)
    as (_ & (_ & _ & _ & _ & _ & Hhyps & _) & _).
  intros [= <-]. unfold values_recorded.
  cbn [b_conv with_state cv_state set_target m_hyp_decls].
  rewrite Hhyps. exact Hvals.
Qed.

(** *** A hypothesis that refers to a local constant not yet added *)

(** [l] is a local constant that is none of [pre]. *)
Definition outside (pre : list expr) (l : expr) : bool :=
  match mlocal_name l with
  | Some n => bool_decide (Some n ∉ mlocal_name <$> pre)
  | None => false
  end.

Lemma add_hypotheses_app fuel pre rest b :
  add_hypotheses fuel (pre ++ rest) b
  = obind (add_hypotheses fuel pre b) (add_hypotheses fuel rest).
Proof.
  revert b. induction pre as [|h pre IH]; intros b; simpl; [reflexivity|].
  destruct (add_hypothesis fuel h b) as [b1| | |]; simpl; auto.
Qed.

Lemma find_unmapped_outside pre b ls :
  builder_ok pre b ->
  find (unmapped (b_local2href b)) ls = find (outside pre) ls.
Proof.
  intros (_ & _ & _ & _ & Hdom & _).
  induction ls as [|l ls IH]; simpl; [reflexivity|].
  assert (Heq : unmapped (b_local2href b) l = outside pre l).
  { unfold unmapped, outside. destruct (mlocal_name l) as [n|]; [|reflexivity].
    apply bool_decide_ext. rewrite <- Hdom, eq_None_not_Some. reflexivity. }
  rewrite Heq, IH. reflexivity.
Qed.

Lemma to_state_throws fuel pre n pp ty post target c k l :
  NoDup (mlocal_name <$> pre) ->
  uref_map_ok c -> cv_mvar2meta_mref c = ∅ ->
  (exists b1,
     add_hypotheses fuel pre (mk_builder (with_state empty_state c) ∅ k) = Ok b1) ->
  meta_free (normalize ty) = true ->
  (height (normalize ty) < fuel)%nat ->
  find (outside pre) (visited_locals (normalize ty)) = Some l ->
  to_state fuel (mk_goal (pre ++ Local n pp ty :: post) target) c k
  = Throw (ill_formed_input_goal l).
Proof.
  intros Hnd Hu Hm [b1 Hpre] Hmf Hh Hfind.
  unfold ToState.to_state. cbn [get_hyps].
  rewrite add_hypotheses_app, Hpre. simpl.
  assert (Hb1 : builder_ok pre b1).
  { apply (add_hypotheses_ok fuel pre [] _ b1 (builder_ok_start c k Hu Hm) Hnd Hpre). }
  pose proof (visit_meta_free infer (b_local2href b1) fuel (normalize ty) Hmf Hh
                (b_conv b1)) as Hrun.
  rewrite (find_unmapped_outside pre b1 _ Hb1), Hfind in Hrun.
  unfold ToState.add_hypothesis. cbn [is_local negb mlocal_type local_pp_name mlocal_name].
  unfold to_blast_expr. rewrite Hrun. reflexivity.
Qed.

End Facts.

(** X18 ([to_state], blast.cpp 380-399). For a goal whose hypotheses have
    different names, in an engine whose metavariable map is empty, a
    successful [to_state] gives a well-formed state: [local2href] maps the
    name of every hypothesis of the goal, and nothing else, to the
    reference of a declared hypothesis that records it; every declared
    hypothesis comes from the goal and has a type that is a term of the
    engine; so is the target; and the engine's tables are consistent. *)
Theorem to_state_well_formed
    (normalize infer : expr -> expr) (check_invariant : state -> bool)
    (fuel : nat) (g : goal) (c : conv) (k : nat) (b : builder) :
  NoDup (mlocal_name <$> get_hyps g) ->
  uref_map_ok c ->
  cv_mvar2meta_mref c = ∅ ->
  to_state normalize infer check_invariant fuel g c k = Ok b ->
  builder_ok (get_hyps g) b /\ internal (m_target (cv_state (b_conv b))) = true.
Proof. apply to_state_ok. Qed.

(** X19 ([to_state], [visit_local], blast.cpp 347-352, 380-399). A
    hypothesis is internalized when only the hypotheses before it are in
    [local2href]: if its normalized type, free of metavariables, mentions
    a local constant that is none of them (itself, a later hypothesis, a
    stranger), [to_state] throws the ill-formed-input-goal error for the
    first such local constant. *)
Theorem to_state_rejects_unknown_local
    (normalize infer : expr -> expr) (check_invariant : state -> bool)
    (fuel : nat) (pre post : list expr) (n pp : name) (ty target l : expr)
    (c : conv) (k : nat) :
  NoDup (mlocal_name <$> pre) ->
  uref_map_ok c ->
  cv_mvar2meta_mref c = ∅ ->
  (exists b1,
     add_hypotheses normalize infer fuel pre
       (mk_builder (with_state empty_state c) ∅ k) = Ok b1) ->
  meta_free (normalize ty) = true ->
  (height (normalize ty) < fuel)%nat ->
  find (outside pre) (visited_locals (normalize ty)) = Some l ->
  to_state normalize infer check_invariant fuel
    (mk_goal (pre ++ Local n pp ty :: post) target) c k
  = Throw (ill_formed_input_goal l).
Proof. apply to_state_throws. Qed.

(** *** The goal [a : Sort 0, b : a |- f b] *)

Definition hyp_a : expr := Local (ext_name "a") (ext_name "a") (Sort LZero).
Definition hyp_b : expr := Local (ext_name "b") (ext_name "b") hyp_a.
Definition goal_a_b : goal :=
  mk_goal [hyp_a; hyp_b] (App (Const (ext_name "f") []) hyp_b).

Definition no_normalize (e : expr) : expr := e.
Definition infer_sort (_ : expr) : expr := Sort LZero.
Definition no_check (_ : state) : bool := true.

Definition builder_a_b : builder :=
  match to_state no_normalize infer_sort no_check 3 goal_a_b fresh_conv 0 with
  | Ok b => b
  | _ => mk_builder fresh_conv ∅ 0
  end.

Lemma to_state_goal_a_b :
  to_state no_normalize infer_sort no_check 3 goal_a_b fresh_conv 0
  = Ok builder_a_b.
Proof. vm_compute. reflexivity. Qed.

Lemma target_goal_a_b :
  m_target (cv_state (b_conv builder_a_b)) = App (Const (ext_name "f") []) (Href 1).
Proof. vm_compute. reflexivity. Qed.

Lemma to_state_well_formed_example :
  builder_ok [hyp_a; hyp_b] builder_a_b /\
  internal (m_target (cv_state (b_conv builder_a_b))) = true.
Proof.
  apply (to_state_well_formed no_normalize infer_sort no_check 3 goal_a_b
           fresh_conv 0 builder_a_b).
  - compute_done.
  - exact fresh_conv_uref_map_ok.
  - reflexivity.
  - exact to_state_goal_a_b.
Defined.

(** The goal [b : a, a : Sort 0 |- f b]: [b] comes before [a]. *)
Lemma to_state_rejects_unknown_local_example :
  to_state no_normalize infer_sort no_check 3
    (mk_goal ([] ++ hyp_b :: [hyp_a]) (App (Const (ext_name "f") []) hyp_b))
    fresh_conv 0
  = Throw (ill_formed_input_goal hyp_a).
Proof.
  apply (to_state_rejects_unknown_local no_normalize infer_sort no_check 3
           [] [hyp_a] (ext_name "b") (ext_name "b") hyp_a).
  - constructor.
  - exact fresh_conv_uref_map_ok.
  - reflexivity.
  - eexists. reflexivity.
  - reflexivity.
  - simpl. lia.
  - reflexivity.
Defined.

End ToStateFacts.

(* ===================================================================== *)
(** ** The pool of temporary type contexts                                *)
(* ===================================================================== *)

Module TmpContextPool.
Import Term State.

Section Pool.

(** The contents of a [tmp_type_context] and the operations of
    [library/tmp_type_context.h] that [blast.cpp] calls on it. *)
Variable ctx : Type.
Variable new_tmp_tctx : ctx.
Variable clear : ctx -> ctx.
Variable set_local_instances : list expr -> ctx -> ctx.
Variable set_next_uvar_idx : Z -> ctx -> ctx.
Variable set_next_mvar_idx : Z -> ctx -> ctx.

(** The part of [blastenv] that the pool lives in. Contexts are heap
    objects: [m_heap] maps the address of each one allocated so far to its
    contents, [m_next_addr] is the address that [new] returns next; the
    back of [m_tmp_ctx_pool] is the head of the list. *)
Record poolenv := mk_poolenv {
  m_heap : gmap nat ctx;
  m_next_addr : nat;
  m_tmp_ctx_pool : list nat;
  m_initial_context : list expr
}.

(** [blastenv::mk_tmp_type_context]; [None] when the pool holds a pointer
    to no object. *)
Definition mk_tmp_type_context (e : poolenv) : option (nat * poolenv) :=
  match m_tmp_ctx_pool e with
  | [] =>
      let r := m_next_addr e in
      Some (r, mk_poolenv
                 (<[ r := set_local_instances (m_initial_context e) new_tmp_tctx ]>
                    (m_heap e))
                 (S r) [] (m_initial_context e))
  | r :: pool =>
      match m_heap e !! r with
      | Some d =>
          Some (r, mk_poolenv
                     (<[ r := set_local_instances (m_initial_context e) d ]> (m_heap e))
                     (m_next_addr e) pool (m_initial_context e))
      | None => None
      end
  end.

(** [blastenv::recycle_tmp_type_context]; a null pointer violates the
    assertion. *)
Definition recycle_tmp_type_context (p : option nat) (e : poolenv) : option poolenv :=
  match p with
  | None => None
  | Some r =>
      match m_heap e !! r with
      | Some d =>
          Some (mk_poolenv (<[ r := clear d ]> (m_heap e)) (m_next_addr e)
                           (r :: m_tmp_ctx_pool e) (m_initial_context e))
      | None => None
      end
  end.

(** [class blast_tmp_type_context]: the object holds [m_ctx]. *)
Record blast_tmp_type_context := mk_blast_tmp { m_ctx : nat }.

(** The constructor with [num_umeta] and [num_emeta]. *)
Definition construct_with (num_umeta num_emeta : Z) (e : poolenv)
    : option (blast_tmp_type_context * poolenv) :=
  match mk_tmp_type_context e with
  | Some (r, e1) =>
      match m_heap e1 !! r with
      | Some d =>
          Some (mk_blast_tmp r,
                mk_poolenv
                  (<[ r := set_next_mvar_idx num_emeta
                             (set_next_uvar_idx num_umeta (clear d)) ]> (m_heap e1))
                  (m_next_addr e1) (m_tmp_ctx_pool e1) (m_initial_context e1))
      | None => None
      end
  | None => None
  end.

(** The default constructor. *)
Definition construct (e : poolenv) : option (blast_tmp_type_context * poolenv) :=
  match mk_tmp_type_context e with
  | Some (r, e1) => Some (mk_blast_tmp r, e1)
  | None => None
  end.

(** The destructor. *)
Definition destroy (o : blast_tmp_type_context) (e : poolenv) : option poolenv :=
  recycle_tmp_type_context (Some (m_ctx o)) e.

(** The contexts of the pool and the ones in use ([live]) are allocated
    objects, and no context is held twice. *)
Definition pool_ok (live : list nat) (e : poolenv) : Prop :=
  NoDup (live ++ m_tmp_ctx_pool e) /\
  forall r, r ∈ live ++ m_tmp_ctx_pool e ->
    is_Some (m_heap e !! r) /\ (r < m_next_addr e)%nat.

(** The client writes to a context that it holds. *)
Definition write (r : nat) (d : ctx) (e : poolenv) : poolenv :=
  mk_poolenv (<[ r := d ]> (m_heap e)) (m_next_addr e) (m_tmp_ctx_pool e)
             (m_initial_context e).

Lemma mk_tmp_type_context_ok live e :
  pool_ok live e ->
  exists r e',
    mk_tmp_type_context e = Some (r, e') /\
    (r ∉ live) /\ pool_ok (r :: live) e' /\
    (forall r', r' <> r -> m_heap e' !! r' = m_heap e !! r') /\
    length (m_tmp_ctx_pool e') = Nat.pred (length (m_tmp_ctx_pool e)).
Proof.
  intros [Hnd Hin]. unfold mk_tmp_type_context.
  destruct (m_tmp_ctx_pool e) as [|r pool] eqn:Hpool.
  - rewrite app_nil_r in *. eexists _, _. split; [reflexivity|].
    split; [|split; [|split]].
    + intros Hr. apply Hin in Hr as [_ Hr]. lia.
    + split; cbn; rewrite app_nil_r.
      * apply NoDup_cons. split; [|exact Hnd].
        intros Hr. apply Hin in Hr as [_ Hr]. lia.
      * intros r' Hr'. apply elem_of_cons in Hr' as [-> | Hr'].
        -- rewrite lookup_insert_eq. split; [eauto | lia].
        -- destruct (Hin r' Hr') as [Hs Hlt].
           rewrite lookup_insert_ne by lia. split; [exact Hs | lia].
    + intros r' Hne. cbn. apply lookup_insert_ne. congruence.
    + reflexivity.
  - destruct (Hin r) as [[d Hd] Hlt]; [set_solver|]. rewrite Hd.
    eexists _, _. split; [reflexivity|].
    apply NoDup_app in Hnd as (Hlive & Hdisj & Hp).
    apply NoDup_cons in Hp as [Hr Hp].
    split; [|split; [|split]].
    + intros Hr'. apply (Hdisj _ Hr'). set_solver.
    + split; cbn.
      * apply NoDup_cons. split.
        -- intros [Hr'|Hr']%elem_of_app; [apply (Hdisj _ Hr'); set_solver | auto].
        -- apply NoDup_app. split; [exact Hlive|]. split; [|exact Hp].
           intros x Hx Hx'. apply (Hdisj _ Hx). set_solver.
      * intros r' Hr'.
        assert (Hr'' : r' ∈ live ++ r :: pool) by set_solver.
        destruct (Hin r' Hr'') as [Hs Hlt'].
        split; [|exact Hlt'].
        rewrite lookup_insert. case_decide; eauto.
    + intros r' Hne. cbn. apply lookup_insert_ne. congruence.
    + reflexivity.
Qed.

Lemma recycle_ok live r e :
  pool_ok (r :: live) e ->
  exists d,
    m_heap e !! r = Some d /\
    recycle_tmp_type_context (Some r) e
    = Some (mk_poolenv (<[ r := clear d ]> (m_heap e)) (m_next_addr e)
                       (r :: m_tmp_ctx_pool e) (m_initial_context e)) /\
    pool_ok live
      (mk_poolenv (<[ r := clear d ]> (m_heap e)) (m_next_addr e)
                  (r :: m_tmp_ctx_pool e) (m_initial_context e)).
Proof.
  intros [Hnd Hin]. unfold recycle_tmp_type_context.
  destruct (Hin r) as [[d Hd] Hlt]; [set_solver|]. rewrite Hd.
  exists d. split; [reflexivity|]. split; [reflexivity|].
  split; cbn.
  - cbn in Hnd. apply NoDup_cons in Hnd as [Hr Hnd].
    apply NoDup_app in Hnd as (Hlive & Hdisj & Hp).
    apply NoDup_app. split; [exact Hlive|]. split.
    + intros x Hx [-> | Hx']%elem_of_cons; [set_solver | exact (Hdisj _ Hx Hx')].
    + apply NoDup_cons. split; [set_solver | exact Hp].
  - intros r' Hr'.
    assert (Hr'' : r' ∈ (r :: live) ++ m_tmp_ctx_pool e) by set_solver.
    destruct (Hin r' Hr'') as [Hs Hlt'].
    split; [|exact Hlt'].
    rewrite lookup_insert. case_decide; eauto.
Qed.

Lemma write_ok live r d e : pool_ok live e -> r ∈ live -> pool_ok live (write r d e).
Proof.
  intros [Hnd Hin] Hr. split; [exact Hnd|]. cbn.
  intros r' Hr'. destruct (Hin r' Hr') as [Hs Hlt]. split; [|exact Hlt].
  rewrite lookup_insert. case_decide; eauto.
Qed.


Lemma construct_ok live e :
  pool_ok live e ->
  exists o e',
    construct e = Some (o, e') /\
    (m_ctx o ∉ live) /\ pool_ok (m_ctx o :: live) e' /\
    (forall r, r ∈ live -> m_heap e' !! r = m_heap e !! r).
Proof.
  intros Hok. unfold construct.
  destruct (mk_tmp_type_context_ok live e Hok) as (r & e' & -> & Hr & Hok' & Hheap & _).
  exists (mk_blast_tmp r), e'. split; [reflexivity|]. split; [exact Hr|].
  split; [exact Hok'|]. intros r' Hr'. apply Hheap. intros ->. exact (Hr Hr').
Qed.

Lemma construct_with_ok num_umeta num_emeta live e :
  pool_ok live e ->
  exists o e',
    construct_with num_umeta num_emeta e = Some (o, e') /\
    (m_ctx o ∉ live) /\ pool_ok (m_ctx o :: live) e' /\
    (forall r, r ∈ live -> m_heap e' !! r = m_heap e !! r).
Proof.
  intros Hok. unfold construct_with.
  destruct (mk_tmp_type_context_ok live e Hok) as (r & e' & -> & Hr & Hok' & Hheap & _).
  destruct (proj2 Hok' r) as [[d Hd] _]; [set_solver|]. rewrite Hd.
  eexists (mk_blast_tmp r), _. split; [reflexivity|]. split; [exact Hr|]. split.
  - apply (write_ok (r :: live) r _ e' Hok'). set_solver.
  - intros r' Hr'. cbn. rewrite lookup_insert_ne by (intros ->; exact (Hr Hr')).
    apply Hheap. intros ->. exact (Hr Hr').
Qed.

Lemma reuse_after_destroy live e o e1 d e2 :
  pool_ok live e ->
  construct e = Some (o, e1) ->
  destroy o (write (m_ctx o) d e1) = Some e2 ->
  exists e3,
    construct e2 = Some (o, e3) /\
    m_heap e3 !! m_ctx o
    = Some (set_local_instances (m_initial_context e) (clear d)) /\
    m_next_addr e3 = m_next_addr e1 /\
    m_tmp_ctx_pool e3 = m_tmp_ctx_pool e1.
Proof.
  intros Hok Hc. unfold construct in Hc.
  destruct (mk_tmp_type_context e) as [[r e1']|] eqn:Hmk; [|discriminate].
  injection Hc as <- <-. cbn [m_ctx].
  assert (Hinit : m_initial_context e1' = m_initial_context e).
  { unfold mk_tmp_type_context in Hmk.
    destruct (m_tmp_ctx_pool e); [|destruct (m_heap e !! n); [|discriminate]];
      injection Hmk as <- <-; reflexivity. }
  unfold destroy, recycle_tmp_type_context, write. cbn.
  rewrite lookup_insert_eq. intros [= <-].
  unfold construct, mk_tmp_type_context. cbn. rewrite lookup_insert_eq.
  eexists. split; [reflexivity|]. cbn. rewrite lookup_insert_eq, Hinit. auto.
Qed.

End Pool.

(** X20 ([mk_tmp_type_context], [recycle_tmp_type_context],
    [blast_tmp_type_context], blast.cpp 599-603, 812-839). Temporary type
    contexts are never shared: when the contexts in use and the ones in
    the pool are distinct allocated objects, a new [blast_tmp_type_context]
    (either constructor) gets a context that no other holder has, leaves
    the contexts of the other holders as they are, and keeps that
    discipline; and so does the destructor, which returns the context to
    the pool. *)
Theorem tmp_contexts_are_never_shared
    (ctx : Type) (new_tmp_tctx : ctx) (clear : ctx -> ctx)
    (set_local_instances : list expr -> ctx -> ctx)
    (set_next_uvar_idx set_next_mvar_idx : Z -> ctx -> ctx)
    (live : list nat) (e : poolenv ctx) :
  pool_ok ctx live e ->
  (exists o e',
     construct ctx new_tmp_tctx set_local_instances e = Some (o, e') /\
     (m_ctx o ∉ live) /\ pool_ok ctx (m_ctx o :: live) e' /\
     (forall r, r ∈ live -> m_heap ctx e' !! r = m_heap ctx e !! r)) /\
  (forall num_umeta num_emeta,
   exists o e',
     construct_with ctx new_tmp_tctx clear set_local_instances
       set_next_uvar_idx set_next_mvar_idx num_umeta num_emeta e = Some (o, e') /\
     (m_ctx o ∉ live) /\ pool_ok ctx (m_ctx o :: live) e' /\
     (forall r, r ∈ live -> m_heap ctx e' !! r = m_heap ctx e !! r)) /\
  (forall r live',
     live = r :: live' ->
     exists e', destroy ctx clear (mk_blast_tmp r) e = Some e' /\ pool_ok ctx live' e').
Proof.
  intros Hok.
  split; [exact (construct_ok ctx new_tmp_tctx clear set_local_instances live e Hok)|].
  split.
  - intros num_umeta num_emeta. apply construct_with_ok, Hok.
  - intros r live' ->.
    destruct (recycle_ok ctx new_tmp_tctx clear live' r e Hok)
      as (d & _ & Hrun & Hok').
    eexists. split; [exact Hrun | exact Hok'].
Qed.

(** X21 ([mk_tmp_type_context], [recycle_tmp_type_context],
    [blast_tmp_type_context], blast.cpp 599-603, 812-839). A recycled
    context is the next one handed out: after a [blast_tmp_type_context]
    is destroyed, the next one gets the same context, without allocation,
    and finds it cleared, with the initial context as local instances,
    whatever its holder had written to it. *)
Theorem recycled_context_is_reused_cleared
    (ctx : Type) (new_tmp_tctx : ctx) (clear : ctx -> ctx)
    (set_local_instances : list expr -> ctx -> ctx)
    (live : list nat) (e e1 e2 : poolenv ctx) (o : blast_tmp_type_context) (d : ctx) :
  pool_ok ctx live e ->
  construct ctx new_tmp_tctx set_local_instances e = Some (o, e1) ->
  destroy ctx clear o (write ctx (m_ctx o) d e1) = Some e2 ->
  exists e3,
    construct ctx new_tmp_tctx set_local_instances e2 = Some (o, e3) /\
    m_heap ctx e3 !! m_ctx o
    = Some (set_local_instances (m_initial_context ctx e) (clear d)) /\
    m_next_addr ctx e3 = m_next_addr ctx e1 /\
    m_tmp_ctx_pool ctx e3 = m_tmp_ctx_pool ctx e1.
Proof. apply reuse_after_destroy. Qed.

(** *** Contexts that count the writes since they were cleared *)

Definition empty_pool : poolenv nat := mk_poolenv nat ∅ 0 [] [Href 0].

Definition keep_instances (_ : list expr) (d : nat) : nat := d.
Definition keep_idx (_ : Z) (d : nat) : nat := d.
Definition reset (_ : nat) : nat := 0%nat.

Lemma empty_pool_ok : pool_ok nat [] empty_pool.
Proof. split; [constructor|]. intros r Hr. inversion Hr. Qed.

(** One context, at address 0, is in use; the pool is empty. *)
Definition one_live_pool : poolenv nat :=
  mk_poolenv nat {[ 0%nat := 7%nat ]} 1 [] [Href 0].

Lemma one_live_pool_ok : pool_ok nat [0%nat] one_live_pool.
Proof.
  split; [cbn; apply NoDup_singleton|]. cbn.
  intros r ->%list_elem_of_singleton. split; [eexists; reflexivity | lia].
Qed.

Lemma tmp_contexts_are_never_shared_example :
  (exists o e',
     construct nat 0%nat keep_instances one_live_pool = Some (o, e') /\
     (m_ctx o ∉ [0%nat]) /\ pool_ok nat (m_ctx o :: [0%nat]) e' /\
     (forall r, r ∈ [0%nat] -> m_heap nat e' !! r = m_heap nat one_live_pool !! r)) /\
  (forall num_umeta num_emeta,
   exists o e',
     construct_with nat 0%nat reset keep_instances keep_idx keep_idx
       num_umeta num_emeta one_live_pool = Some (o, e') /\
     (m_ctx o ∉ [0%nat]) /\ pool_ok nat (m_ctx o :: [0%nat]) e' /\
     (forall r, r ∈ [0%nat] -> m_heap nat e' !! r = m_heap nat one_live_pool !! r)) /\
  (forall r live',
     [0%nat] = r :: live' ->
     exists e', destroy nat reset (mk_blast_tmp r) one_live_pool = Some e' /\
                pool_ok nat live' e').
Proof.
  exact (tmp_contexts_are_never_shared nat 0%nat reset keep_instances keep_idx
           keep_idx [0%nat] one_live_pool one_live_pool_ok).
Defined.

Lemma recycled_context_is_reused_cleared_example :
  exists e3,
    construct nat 0%nat keep_instances
      (mk_poolenv nat {[ 0%nat := 0%nat ]} 1 [0%nat] [Href 0])
    = Some (mk_blast_tmp 0, e3) /\
    m_heap nat e3 !! 0%nat = Some 0%nat /\
    m_next_addr nat e3 = 1%nat /\
    m_tmp_ctx_pool nat e3 = [].
Proof.
  exact (recycled_context_is_reused_cleared nat 0%nat reset keep_instances []
           empty_pool (mk_poolenv nat {[ 0%nat := 0%nat ]} 1 [] [Href 0])
           (mk_poolenv nat {[ 0%nat := 0%nat ]} 1 [0%nat] [Href 0])
           (mk_blast_tmp 0) 7%nat empty_pool_ok eq_refl eq_refl).
Defined.

End TmpContextPool.

(* ===================================================================== *)
(** ** The type contexts on what the internalizer declares                *)
(* ===================================================================== *)

Module TmpTctx.
Import Term State ToState.

(** [tmp_tctx::infer_local] and [tmp_tctx::infer_metavar]: the state is
    the engine's current state; [None] is a violated assertion or a term
    on which [mlocal_type] is not defined. *)
Definition infer_local (s : state) (e : expr) : option expr :=
  if is_href e then
    match get_hypothesis_decl s e with
    | Some h => Some (h_type h)
    | None => None
    end
  else mlocal_type e.

Definition infer_metavar (s : state) (m : expr) : option expr :=
  if is_mref m then
    match get_metavar_decl s m with
    | Some d => Some (md_type d)
    | None => None
    end
  else
    (* The type of external meta-variables is encoded in the usual way. *)
    mlocal_type m.

End TmpTctx.

(** [blastenv::internalize]: the visitor over the current state, with an
    empty [local2href]. *)
Module Debug.
Import Term State Outcome Internalize.

Definition internalize (infer : expr -> expr) (fuel : nat) (e : expr) : M expr :=
  to_blast_expr infer ∅ fuel e.

End Debug.

Module FacadeFacts.
Import Term State Engine Tctx Outcome Internalize LevelFacts InternalizeMore.
Import ToState ToStateFacts.

Section Facts.

Variable infer : expr -> expr.
Variable m_local2href : gmap name expr.

(** The declaration made at the first occurrence of a metavariable whose
    arguments are all closed. *)
Lemma closed_pattern_decl fuel e c r c1 mvar args mname :
  is_meta e = true ->
  get_app_args e = (mvar, args) ->
  mlocal_name mvar = Some mname ->
  cv_mvar2meta_mref c !! mname = None ->
  forallb closed args = true ->
  to_blast_expr infer m_local2href (S fuel) e c = Ok (r, c1) ->
  exists type c0 ctx,
    to_blast_expr infer m_local2href fuel (infer e) c = Ok (type, c0) /\
    find_prefix m_local2href e [] args [] = Ok (length args, ctx) /\
    r = Mref (cv_next_mref c0) /\
    m_metavar_decls (cv_state c1) !! cv_next_mref c0
    = Some (mk_metavar_decl (list_to_set ctx) type).
Proof.
  intros He Hargs Hname Hfind Hclosed. unfold to_blast_expr.
  rewrite visit_meta_head by exact He.
  unfold visit_meta_app. rewrite He, Hargs, Hname. cbn [negb].
  unfold bind at 1, mvar2meta_mref_find. rewrite Hfind.
  destruct (find_prefix m_local2href e [] args []) as [[prefix_sz ctx]| | |] eqn:Hpre;
    try discriminate.
  pose proof (find_prefix_all_closed m_local2href e args [] [] _ _ Hclosed Hpre) as Hsz.
  simpl in Hsz. subst prefix_sz.
  rewrite Nat.sub_diag. cbn [app_fn_iter]. rewrite He. cbn [negb].
  unfold bind at 1.
  destruct (visit infer m_local2href fuel (infer e) c) as [[type c0]| | |];
    try discriminate.
  unfold bind at 1, state_mk_metavar, mk_metavar.
  unfold bind at 1, mvar2meta_mref_insert.
  rewrite drop_all. unfold mk_mref_app at 1.
  intros Hrun. cbn in Hrun. injection Hrun as <- <-.
  exists type, c0, ctx. split; [reflexivity|]. split; [reflexivity|].
  split; [reflexivity|]. cbn. apply lookup_insert_eq.
Qed.

End Facts.

(** X22 ([visit_meta_app], [tctx::infer_metavar], [tmp_tctx::infer_metavar],
    blast.cpp 184-191, 284-341, 797-810). The metavariable reference that
    the first occurrence of a metavariable applied to closed arguments is
    internalized as is declared with the internalization of the kernel's
    type of the application, and that is the type that both type contexts
    infer for it; on a metavariable of the caller the temporary context
    returns the type it carries, where the facade violates its
    assertion. *)
Theorem infer_metavar_of_new_mref
    (infer : expr -> expr) (m_local2href : gmap name expr)
    (fuel : nat) (e r mvar : expr) (args : list expr) (mname : name)
    (c c1 : conv) :
  is_meta e = true ->
  get_app_args e = (mvar, args) ->
  mlocal_name mvar = Some mname ->
  cv_mvar2meta_mref c !! mname = None ->
  forallb closed args = true ->
  to_blast_expr infer m_local2href (S fuel) e c = Ok (r, c1) ->
  exists type c0,
    to_blast_expr infer m_local2href fuel (infer e) c = Ok (type, c0) /\
    TmpTctx.infer_metavar (cv_state c1) r = Some type /\
    (forall t, curr_state t = cv_state c1 -> Tctx.infer_metavar t r = Some type) /\
    (forall t n ty,
       Tctx.infer_metavar t (Meta n ty) = None /\
       TmpTctx.infer_metavar (curr_state t) (Meta n ty) = Some ty).
Proof.
  intros He Hargs Hname Hfind Hclosed Hrun.
  destruct (closed_pattern_decl infer m_local2href fuel e c r c1 mvar args mname
              He Hargs Hname Hfind Hclosed Hrun)
    as (type & c0 & ctx & Hty & _ & -> & Hdecl).
  exists type, c0. split; [exact Hty|]. split; [|split].
  - unfold TmpTctx.infer_metavar, get_metavar_decl. cbn. rewrite Hdecl. reflexivity.
  - intros t Ht. unfold Tctx.infer_metavar, get_metavar_decl. cbn.
    rewrite Ht, Hdecl. reflexivity.
  - intros t n ty. split; reflexivity.
Qed.

(** X23 ([to_state], [tctx::infer_local], [tmp_tctx::infer_local],
    blast.cpp 173-182, 380-399, 783-795). After a successful [to_state]
    on a goal whose hypotheses have different names, both type contexts
    give the reference of every hypothesis of the goal a type, the same
    one, and it is a term of the engine; on a local constant of the caller
    both return the type it carries. *)
Theorem infer_local_after_to_state
    (normalize infer : expr -> expr) (check_invariant : state -> bool)
    (fuel : nat) (g : goal) (c : conv) (k : nat) (b : builder) :
  NoDup (mlocal_name <$> get_hyps g) ->
  uref_map_ok c ->
  cv_mvar2meta_mref c = ∅ ->
  to_state normalize infer check_invariant fuel g c k = Ok b ->
  (forall h n,
     h ∈ get_hyps g -> mlocal_name h = Some n ->
     exists href ty,
       b_local2href b !! n = Some href /\
       TmpTctx.infer_local (cv_state (b_conv b)) href = Some ty /\
       (forall t, curr_state t = cv_state (b_conv b) ->
          Tctx.infer_local t href = Some ty) /\
       internal ty = true) /\
  (forall t n pp ty,
     Tctx.infer_local t (Local n pp ty) = Some ty /\
     TmpTctx.infer_local (curr_state t) (Local n pp ty) = Some ty).
Proof.
  intros Hnd Hu Hm Hrun.
  destruct (to_state_ok normalize infer check_invariant fuel g c k b Hnd Hu Hm Hrun)
    as [(_ & _ & _ & Hdecls & _ & Hmap) _].
  split; [|intros t n pp ty; split; reflexivity].
  intros h n Hh Hn. destruct (Hmap h n Hh Hn) as (i & d & Hi & Hd & _).
  destruct (Hdecls i d Hd) as (Hint & _).
  exists (Href i), (h_type d). split; [exact Hi|]. split; [|split; [|exact Hint]].
  - unfold TmpTctx.infer_local, get_hypothesis_decl. cbn. rewrite Hd. reflexivity.
  - intros t Ht. unfold Tctx.infer_local, get_hypothesis_decl. cbn.
    rewrite Ht, Hd. reflexivity.
Qed.

Lemma visited_locals_are_local e :
  Forall (fun l => is_local l = true) (visited_locals e).
Proof.
  induction e using expr_ind'; simpl; try constructor; try reflexivity;
    try constructor; try (apply Forall_app; split; assumption).
  induction H as [|a args Ha _ IH]; simpl; [constructor|].
  apply Forall_app. split; assumption.
Qed.

(** X24 ([blastenv::internalize], [visit_local], blast.cpp 347-352,
    625-628). [internalize] runs the visitor with an empty [local2href]:
    on a term in which no metavariable is visited it throws the
    ill-formed-input-goal error for the first local constant that the
    term mentions outside the types of local constants, and succeeds,
    translating universe levels only, when there is none. *)
Theorem internalize_rejects_local_constants
    (infer : expr -> expr) (fuel : nat) (e : expr) (c : conv) :
  meta_free e = true ->
  (height e < fuel)%nat ->
  match visited_locals e with
  | l :: _ => Debug.internalize infer fuel e c = Throw (ill_formed_input_goal l)
  | [] =>
      exists e' c', Debug.internalize infer fuel e c = Ok (e', c') /\ level_step c c'
  end.
Proof.
  intros Hmf Hh.
  pose proof (visit_meta_free infer ∅ fuel e Hmf Hh c) as Hrun.
  pose proof (visited_locals_are_local e) as Hloc.
  destruct (visited_locals e) as [|l ls]; [exact Hrun|].
  apply Forall_cons in Hloc as [Hl _]. simpl in Hrun.
  assert (Hun : unmapped ∅ l = true).
  { unfold unmapped. destruct l; try discriminate; simpl;
      rewrite lookup_empty; reflexivity. }
  rewrite Hun in Hrun. exact Hrun.
Qed.

Lemma infer_metavar_of_new_mref_example :
  exists type c0,
    to_blast_expr infer_sort_u local2href_x 2 (infer_sort_u meta_m_x) fresh_conv
    = Ok (type, c0) /\
    TmpTctx.infer_metavar (cv_state conv_m_x) (Mref 0) = Some type /\
    (forall t, curr_state t = cv_state conv_m_x ->
       Tctx.infer_metavar t (Mref 0) = Some type) /\
    (forall t n ty,
       Tctx.infer_metavar t (Meta n ty) = None /\
       TmpTctx.infer_metavar (curr_state t) (Meta n ty) = Some ty).
Proof.
  apply (infer_metavar_of_new_mref infer_sort_u local2href_x 2 meta_m_x (Mref 0)
           (Meta (ext_name "m") (Sort LZero)) [hyp_x] (ext_name "m")
           fresh_conv conv_m_x); reflexivity.
Defined.

Lemma infer_local_after_to_state_example :
  (forall h n,
     h ∈ get_hyps goal_a_b -> mlocal_name h = Some n ->
     exists href ty,
       b_local2href builder_a_b !! n = Some href /\
       TmpTctx.infer_local (cv_state (b_conv builder_a_b)) href = Some ty /\
       (forall t, curr_state t = cv_state (b_conv builder_a_b) ->
          Tctx.infer_local t href = Some ty) /\
       internal ty = true) /\
  (forall t n pp ty,
     Tctx.infer_local t (Local n pp ty) = Some ty /\
     TmpTctx.infer_local (curr_state t) (Local n pp ty) = Some ty).
Proof.
  apply (infer_local_after_to_state no_normalize infer_sort no_check 3 goal_a_b
           fresh_conv 0 builder_a_b).
  - compute_done.
  - exact fresh_conv_uref_map_ok.
  - reflexivity.
  - exact to_state_goal_a_b.
Defined.

Lemma internalize_rejects_local_constants_example :
  Debug.internalize infer_sort 2 (App (Const (ext_name "f") []) hyp_a) fresh_conv
  = Throw (ill_formed_input_goal hyp_a).
Proof.
  apply (internalize_rejects_local_constants infer_sort 2
           (App (Const (ext_name "f") []) hyp_a) fresh_conv).
  - reflexivity.
  - simpl. lia.
Defined.

End FacadeFacts.

(* ===================================================================== *)
(** ** The externalizer on the hypotheses of the goal                     *)
(* ===================================================================== *)

Module ExternalizeGoal.
Import Term State Outcome Internalize LevelFacts Externalize ExternalizeFacts.
Import ExternalizeMore ToState ToStateFacts.

(** The proof term in which every hypothesis reference is replaced by the
    local constant recorded for the hypothesis. *)
Fixpoint replace_hrefs (s : state) (e : expr) : expr :=
  match e with
  | Href i =>
      match m_hyp_decls s !! i with
      | Some h => h_local h
      | None => e
      end
  | Var _ | Sort _ | Const _ _ | Mref _ => e
  | Meta n ty => Meta n (replace_hrefs s ty)
  | Local n pp ty => Local n pp (replace_hrefs s ty)
  | App f a => App (replace_hrefs s f) (replace_hrefs s a)
  | Lam n d b bi => Lam n (replace_hrefs s d) (replace_hrefs s b) bi
  | Pi n d b bi => Pi n (replace_hrefs s d) (replace_hrefs s b) bi
  | Macro def args => Macro def (map (replace_hrefs s) args)
  end.

(** The hypotheses of [s] are as [to_state] makes them: the value of each
    is the local constant that it records, a term of the caller (no
    reference of the engine, no metavariable) of depth below [D]. *)
Definition records_locals (s : state) (D : nat) : Prop :=
  forall i h,
    m_hyp_decls s !! i = Some h ->
    h_value h = Some (h_local h) /\
    no_refs (h_local h) = true /\ (depth (h_local h) < D)%nat.

Lemma omap_map {A B : Type} (f : A -> outcome B) (g : A -> B) l :
  Forall (fun a => f a = Ok (g a)) l -> omap f l = Ok (map g l).
Proof.
  induction 1 as [|a l Ha _ IH]; simpl; [reflexivity|].
  rewrite Ha. simpl. rewrite IH. reflexivity.
Qed.

Lemma no_refs_no_hrefs e : no_refs e = true -> forall i, i ∉ hrefs_of e.
Proof.
  induction e using expr_ind'; simpl; try discriminate; try set_solver.
  - intros [H1 H2]%andb_true_iff. specialize (IHe1 H1). specialize (IHe2 H2).
    set_solver.
  - intros [H1 H2]%andb_true_iff. specialize (IHe1 H1). specialize (IHe2 H2).
    set_solver.
  - intros [H1 H2]%andb_true_iff. specialize (IHe1 H1). specialize (IHe2 H2).
    set_solver.
  - intros Hargs. induction H as [|a args Ha _ IH]; simpl in *; [set_solver|].
    apply andb_true_iff in Hargs as [H1 H2]. specialize (Ha H1). specialize (IH H2).
    set_solver.
Qed.

Lemma hrefs_of_macro_arg def args a i :
  In a args -> i ∈ hrefs_of a -> i ∈ hrefs_of (Macro def args).
Proof.
  simpl. induction args as [|x args IH]; simpl; [tauto|].
  intros [-> | Hin] Hi; [set_solver|]. specialize (IH Hin Hi). set_solver.
Qed.

Lemma depth_macro_arg def args a :
  In a args -> (depth a < depth (Macro def args))%nat.
Proof.
  simpl. induction args as [|x args IH]; simpl; [tauto|].
  intros [-> | Hin]; [lia|]. specialize (IH Hin). lia.
Qed.

Section Facts.

Variable s : state.
Variable D : nat.
Hypothesis Hrec : records_locals s D.

Lemma visit_replaces fuel :
  forall e,
    no_metavars e = true ->
    (forall i, i ∈ hrefs_of e -> is_Some (m_hyp_decls s !! i)) ->
    (depth e + D < fuel)%nat ->
    visit s fuel e = Ok (replace_hrefs s e).
Proof.
  induction fuel as [|fuel IH]; intros e Hnm Hdecl Hfuel; [lia|].
  destruct e; simpl in Hnm, Hdecl, Hfuel |- *; try discriminate; try reflexivity.
  - unfold visit_local. cbn [is_href].
    unfold replace_visitor_visit_local, replace_visitor_visit_mlocal.
    rewrite IH; [reflexivity | exact Hnm | exact Hdecl | lia].
  - unfold visit_local, get_hypothesis_decl. cbn [is_href href_index].
    destruct (Hdecl idx) as [h Hh]; [set_solver|]. rewrite Hh.
    destruct (Hrec idx h Hh) as (-> & Hnr & Hd).
    apply visit_no_refs; [exact Hnr | lia].
  - apply andb_true_iff in Hnm as [H1 H2].
    unfold replace_visitor_visit_app.
    rewrite !IH; [reflexivity | | | | | |]; try assumption; try lia; set_solver.
  - apply andb_true_iff in Hnm as [H1 H2].
    unfold replace_visitor_visit_binding.
    rewrite !IH; [reflexivity | | | | | |]; try assumption; try lia; set_solver.
  - apply andb_true_iff in Hnm as [H1 H2].
    unfold replace_visitor_visit_binding.
    rewrite !IH; [reflexivity | | | | | |]; try assumption; try lia; set_solver.
  - unfold replace_visitor_visit_macro.
    rewrite (omap_map _ (replace_hrefs s)); [reflexivity|].
    apply List.Forall_forall. intros a Ha. apply IH.
    + rewrite forallb_forall in Hnm. apply Hnm, Ha.
    + intros i Hi. apply Hdecl. eapply (hrefs_of_macro_arg def); eassumption.
    + pose proof (depth_macro_arg def args a Ha). simpl in H. lia.
Qed.

Lemma replace_hrefs_no_hrefs e :
  (forall i, i ∈ hrefs_of e -> is_Some (m_hyp_decls s !! i)) ->
  forall i, i ∉ hrefs_of (replace_hrefs s e).
Proof.
  induction e as [j | l | n ls | n ty IH | n pp ty IH | j | j
                  | f a IHf IHa | n dm b bi IHd IHb | n dm b bi IHd IHb
                  | def args IH] using expr_ind'; simpl; intros Hdecl.
  - set_solver.
  - set_solver.
  - set_solver.
  - apply IH, Hdecl.
  - apply IH, Hdecl.
  - destruct (Hdecl j) as [h Hh]; [set_solver|]. rewrite Hh.
    apply no_refs_no_hrefs. apply (Hrec j h Hh).
  - set_solver.
  - assert (H1 : forall i, i ∉ hrefs_of (replace_hrefs s f)) by (apply IHf; set_solver).
    assert (H2 : forall i, i ∉ hrefs_of (replace_hrefs s a)) by (apply IHa; set_solver).
    set_solver.
  - assert (H1 : forall i, i ∉ hrefs_of (replace_hrefs s dm)) by (apply IHd; set_solver).
    assert (H2 : forall i, i ∉ hrefs_of (replace_hrefs s b)) by (apply IHb; set_solver).
    set_solver.
  - assert (H1 : forall i, i ∉ hrefs_of (replace_hrefs s dm)) by (apply IHd; set_solver).
    assert (H2 : forall i, i ∉ hrefs_of (replace_hrefs s b)) by (apply IHb; set_solver).
    set_solver.
  - induction IH as [|a args Ha _ IHargs]; simpl in *; [set_solver|].
    assert (H1 : forall i, i ∉ hrefs_of (replace_hrefs s a)) by (apply Ha; set_solver).
    assert (H2 : forall i,
              i ∉ fold_right (fun a acc => hrefs_of a ∪ acc) ∅
                    (map (replace_hrefs s) args)) by (apply IHargs; set_solver).
    set_solver.
Qed.

End Facts.

(** What [to_state] records for a goal whose hypotheses are terms of the
    caller. *)
Lemma to_state_records_locals
    (normalize infer : expr -> expr) (check_invariant : state -> bool)
    (fuel : nat) (g : goal) (c : conv) (k : nat) (b : builder) (D : nat) :
  NoDup (mlocal_name <$> get_hyps g) ->
  uref_map_ok c ->
  cv_mvar2meta_mref c = ∅ ->
  to_state normalize infer check_invariant fuel g c k = Ok b ->
  (forall h, h ∈ get_hyps g -> no_refs h = true /\ (depth h < D)%nat) ->
  records_locals (cv_state (b_conv b)) D.
Proof.
  intros Hnd Hu Hm Hrun Hhyps i h Hh.
  destruct (to_state_ok normalize infer check_invariant fuel g c k b Hnd Hu Hm Hrun)
    as [(_ & _ & _ & Hdecls & _) _].
  split.
  - exact (to_state_values normalize infer check_invariant fuel g c k b
             Hnd Hu Hm Hrun i h Hh).
  - apply Hhyps. apply (Hdecls i h Hh).
Qed.


(** *** The goal [h : P |- P] *)

Definition goal_h_P : goal := mk_goal [local_h] (Const (ext_name "P") []).

(** The state that [to_state] builds for it. *)
Definition builder_h_P : builder :=
  match to_state no_normalize infer_sort no_check 2 goal_h_P fresh_conv 0 with
  | Ok b => b
  | _ => mk_builder fresh_conv ∅ 0
  end.

Definition state_h_P : state := cv_state (b_conv builder_h_P).

Lemma to_state_goal_h_P :
  to_state no_normalize infer_sort no_check 2 goal_h_P fresh_conv 0 = Ok builder_h_P.
Proof. vm_compute. reflexivity. Qed.

Lemma goal_h_P_hyps h :
  h ∈ get_hyps goal_h_P -> no_refs h = true /\ (depth h < 2)%nat.
Proof.
  cbn. intros ->%list_elem_of_singleton. split; [reflexivity | simpl; lia].
Qed.


End ExternalizeGoal.
